(** * depends.py: dependency graph generator for C/C++

    A shallow embedding of [depends.py] and the verification of its
    include scanner, path resolver, graph model and tree renderer.

    Modelling conventions.
    - Python strings are [string]s: a character of the model is a code
      point below 256.
    - The [Graph.nodes] dict is an association list in insertion order
      (the listing and the full-graph render iterate it in that order).
    - A [Node] object is only ever created by [Graph.get_node], under the
      key that is its [file] attribute, and is never removed.  A reference
      to a node is therefore modelled by that key: [children] is the list
      of the keys of the child objects, and [node_ == node] (object
      identity) is equality of keys.
    - [print] appends to a trace of events, which also records the lines
      handed out by the file iterator.
    - [os.path] is the POSIX flavour; [os.path.isfile] and file content
      are a parameter of the development ([FileSystem]).
    - Recursion ([cpp_scan_file], [print_tree]) is by fuel; [None] is
      running out of fuel, or a key that is not in the graph, which no
      Python reference can be; enough fuel is shown to exist.  Python's own
      recursion limit is not modelled.
    - Strings follow Python 3: [str.strip] removes the white space of
      [str.isspace], which below 256 is 9 to 13, 28 to 32, 133 and 160. *)

From Stdlib Require Import String Ascii List Bool Arith Lia DecimalString.
Import ListNotations.
Open Scope list_scope.
Open Scope string_scope.


(** ** Characters and strings *)

Definition dquote : ascii := "034"%char.
Definition newline : ascii := "010"%char.

(** [s.startswith(p)] *)
Definition startswith (s p : string) : bool := String.prefix p s.

(** [s.endswith(sep)] for the separator [/] *)
Fixpoint ends_with_sep (s : string) : bool :=
  match s with
  | EmptyString => false
  | String c EmptyString => Ascii.eqb c "/"
  | String _ s' => ends_with_sep s'
  end.

(** [s[n:]] *)
Fixpoint drop (n : nat) (s : string) : string :=
  match n, s with
  | 0, _ => s
  | S n', String _ s' => drop n' s'
  | S _, EmptyString => EmptyString
  end.

Fixpoint rev_string (acc s : string) : string :=
  match s with
  | EmptyString => acc
  | String c s' => rev_string (String c acc) s'
  end.

(** [str(n)] for a non-negative integer *)
Definition str (n : nat) : string := NilZero.string_of_uint (Nat.to_uint n).

(** Characters removed by [str.strip()]: the code points for which
    [str.isspace] holds, that is the ASCII white space 9 to 13 and 28 to
    32, the next-line control 133 and the no-break space 160. *)
Definition is_space (c : ascii) : bool :=
  let n := nat_of_ascii c in
  ((9 <=? n)%nat && (n <=? 13)%nat) || ((28 <=? n)%nat && (n <=? 32)%nat)
  || (n =? 133)%nat || (n =? 160)%nat.

Fixpoint lstrip (s : string) : string :=
  match s with
  | String c s' => if is_space c then lstrip s' else s
  | EmptyString => EmptyString
  end.

(** [line.strip()] *)
Definition strip (s : string) : string :=
  rev_string EmptyString (lstrip (rev_string EmptyString (lstrip s))).

(** A run of [n] blanks. *)
Fixpoint spaces (n : nat) : string :=
  match n with
  | 0 => EmptyString
  | S n' => String " " (spaces n')
  end.

(** [sub] occurs in [s]. *)
Definition contains (s sub : string) : Prop :=
  exists pre post, s = pre ++ sub ++ post.

(** ** os.path (posixpath) *)

(** [os.path.join(a, b)] *)
Definition path_join (a b : string) : string :=
  if startswith b "/" then b
  else if (String.eqb a EmptyString) || ends_with_sep a then a ++ b
  else a ++ "/" ++ b.

(** Splits the reversed path at its first separator: the reversed tail
    and the reversed head, the head keeping the separator. *)
Fixpoint rsplit_sep (r : string) : string * string :=
  match r with
  | EmptyString => (EmptyString, EmptyString)
  | String c r' =>
      if Ascii.eqb c "/" then (EmptyString, r)
      else let '(t, h) := rsplit_sep r' in (String c t, h)
  end.

Fixpoint all_sep (s : string) : bool :=
  match s with
  | EmptyString => true
  | String c s' => Ascii.eqb c "/" && all_sep s'
  end.

Fixpoint lstrip_sep (s : string) : string :=
  match s with
  | String c s' => if Ascii.eqb c "/" then lstrip_sep s' else s
  | EmptyString => EmptyString
  end.

(** [os.path.split(p)]: head and tail around the last separator; trailing
    separators are removed from the head unless it is made of separators
    only. *)
Definition path_split (p : string) : string * string :=
  let '(rtail, rhead) := rsplit_sep (rev_string EmptyString p) in
  let tail := rev_string EmptyString rtail in
  let head :=
    if all_sep rhead then rev_string EmptyString rhead
    else rev_string EmptyString (lstrip_sep rhead) in
  (head, tail).

(** ** CPP_INC_PATTERN

    The compiled pattern is, in order: the character [#]; any number of
    blanks; the literal [include]; any number of blanks; group 1, one
    character that is [<] or a double quote; group 2, any number of
    characters other than [>] and the double quote; group 3, one character
    that is [>] or a double quote.  It is used through [.match(line)],
    which anchors the pattern at the first character of the line.  Every
    repetition in the pattern is followed by a token that
    the repeated class cannot match, so the greedy choice is the only one
    and the matcher below needs no backtracking. *)

Definition is_open (c : ascii) : bool := Ascii.eqb c "<" || Ascii.eqb c dquote.
Definition is_close (c : ascii) : bool := Ascii.eqb c ">" || Ascii.eqb c dquote.

(** [ *] *)
Fixpoint skip_blanks (s : string) : string :=
  match s with
  | String c s' => if Ascii.eqb c " " then skip_blanks s' else s
  | EmptyString => EmptyString
  end.

(** a literal *)
Fixpoint drop_literal (lit s : string) : option string :=
  match lit, s with
  | EmptyString, _ => Some s
  | String a lit', String b s' =>
      if Ascii.eqb a b then drop_literal lit' s' else None
  | String _ _, EmptyString => None
  end.

(** The second group: the longest run without [>] or a double quote, and
    the rest of the line. *)
Fixpoint span_spelling (s : string) : string * string :=
  match s with
  | EmptyString => (EmptyString, EmptyString)
  | String c s' =>
      if is_close c then (EmptyString, s)
      else let '(b, r) := span_spelling s' in (String c b, r)
  end.

(** [CPP_INC_PATTERN.match(line)]: the three groups, or [None]. *)
Definition CPP_INC_PATTERN_match (line : string)
  : option (ascii * string * ascii) :=
  match line with
  | String c s1 =>
      if Ascii.eqb c "#" then
        match drop_literal "include" (skip_blanks s1) with
        | Some s2 =>
            match skip_blanks s2 with
            | String first s3 =>
                if is_open first then
                  let '(body, s4) := span_spelling s3 in
                  match s4 with
                  | String last _ =>
                      if is_close last then Some (first, body, last) else None
                  | EmptyString => None
                  end
                else None
            | EmptyString => None
            end
        | None => None
        end
      else None
  | EmptyString => None
  end.

(** The test of line 254: an opening [<] with a closing double quote, or an
    opening double quote with a closing [>]. *)
Definition mismatched (first last : ascii) : bool :=
  (Ascii.eqb first "<" && Ascii.eqb last dquote)
  || (Ascii.eqb first dquote && Ascii.eqb last ">").

(** ** Constants *)

Definition MAX_DEPTH : nat := 1000.
Definition INDENT : nat := 2.

(** ** Node *)

Record Node : Type := mkNode {
  file : string;
  children : list string;
  has_parent : bool;
  visited : bool;
  missing : bool
}.

(** [Node.__init__] *)
Definition Node_init (f : string) : Node := mkNode f [] false false false.

Definition set_visited (b : bool) (n : Node) : Node :=
  mkNode (file n) (children n) (has_parent n) b (missing n).
Definition set_missing (b : bool) (n : Node) : Node :=
  mkNode (file n) (children n) (has_parent n) (visited n) b.
Definition set_has_parent (b : bool) (n : Node) : Node :=
  mkNode (file n) (children n) b (visited n) (missing n).
Definition append_child (c : string) (n : Node) : Node :=
  mkNode (file n) (children n ++ [c])%list (has_parent n) (visited n) (missing n).

(** [Node.has_children] *)
Definition has_children (n : Node) : bool := (0 <? length (children n))%nat.

(** [Node.has_child] *)
Definition has_child (n : Node) (c : string) : bool :=
  existsb (String.eqb c) (children n).

(** ** The environment and the program state *)

Record FileSystem : Type := mkFS {
  isfile : string -> bool;            (* os.path.isfile *)
  read_lines : string -> list string  (* the lines the file iterator yields *)
}.

Record Env : Type := mkEnv {
  fs : FileSystem;
  verbose : bool;
  inc_search_paths : list string;
  SYS_INC_PATHS : list string
}.

Inductive event : Type :=
| EvPrint (s : string)               (* print(s) *)
| EvOpen (path : string)             (* open(path) *)
| EvLine (path : string) (line : string)  (* one line read from path *)
| EvClose (path : string).           (* f.close() *)

Record State : Type := mkState {
  nodes : list (string * Node);      (* graph.nodes *)
  depth : nat;
  max_depth_reached : nat;
  trace : list event
}.

Definition initial_state : State := mkState [] 0 0 [].

Definition with_nodes (g : list (string * Node)) (st : State) : State :=
  mkState g (depth st) (max_depth_reached st) (trace st).
Definition with_depth (d m : nat) (st : State) : State :=
  mkState (nodes st) d m (trace st).
Definition emit (e : event) (st : State) : State :=
  mkState (nodes st) (depth st) (max_depth_reached st) (trace st ++ [e])%list.

(** [print(s)] *)
Definition print (s : string) (st : State) : State := emit (EvPrint s) st.

(** [error(s)] *)
Definition error (s : string) (st : State) : State := print ("ERROR: " ++ s) st.

(** [log(s)] *)
Definition log (E : Env) (s : string) (st : State) : State :=
  if verbose E then print s st else st.

(** ** Graph *)

(** [self.nodes[k]] *)
Fixpoint lookup (g : list (string * Node)) (k : string) : option Node :=
  match g with
  | [] => None
  | (k', n) :: g' => if String.eqb k k' then Some n else lookup g' k
  end.

(** An attribute update of the object stored under [k]. *)
Definition update (k : string) (f : Node -> Node) (g : list (string * Node))
  : list (string * Node) :=
  map (fun kn => if String.eqb k (fst kn) then (fst kn, f (snd kn)) else kn) g.

Definition keys (st : State) : list string := map fst (nodes st).
Definition node_at (st : State) (k : string) : option Node := lookup (nodes st) k.
Definition modify (k : string) (f : Node -> Node) (st : State) : State :=
  with_nodes (update k f (nodes st)) st.

(** [Graph.get_node]: creates the node on first use.  The returned object
    is the one stored under [file]. *)
Definition get_node (f : string) (st : State) : State :=
  match node_at st f with
  | Some _ => st
  | None => with_nodes (nodes st ++ [(f, Node_init f)])%list st
  end.

(** [Node.add_child], called on the node stored under [parent] with the
    node stored under [child]. *)
Definition add_child (parent child : string) (st : State) : option State :=
  match node_at st parent with
  | None => None
  | Some p =>
      if has_child p child then Some st
      else Some (modify child (set_has_parent true)
                   (modify parent (append_child child) st))
  end.

(** ** Path resolver *)

(** The loop of [resolve_path] over the search paths, with its fall-through
    [return inc_path]. *)
Fixpoint search_loop (F : FileSystem) (paths : list string) (inc_path : string)
  : string :=
  match paths with
  | [] => inc_path
  | search_path :: rest =>
      let full_path := path_join search_path inc_path in
      if isfile F full_path then full_path else search_loop F rest inc_path
  end.

(** [resolve_path] *)
Definition resolve_path (E : Env) (dir_path inc_path : string) (relative : bool)
  : string :=
  if relative then
    let full_path := path_join dir_path inc_path in
    if isfile (fs E) full_path then full_path
    else search_loop (fs E) (inc_search_paths E) inc_path
  else search_loop (fs E) (inc_search_paths E) inc_path.

(** [is_sys_header_path] *)
Definition is_sys_header_path (E : Env) (dir_path : string) : bool :=
  existsb (fun path => startswith dir_path path) (SYS_INC_PATHS E).

(** ** Include scanner *)

Definition invalid_directive_msg (path : string) (line_num : nat) (line : string)
  : string :=
  path ++ ": Invalid #include directive at line " ++ str line_num ++ ": "
       ++ strip line.

Definition missing_msg (path : string) : string :=
  path ++ " is missing. Did you add include search paths?".

(** The body of the loop over the lines of the file (lines 250 to 266),
    on the list [includes] and the state. *)
Definition scan_line (E : Env) (path dir_path : string) (line_num : nat)
    (line : string) (includes : list string) (st : State)
  : list string * State :=
  match CPP_INC_PATTERN_match line with
  | Some (first, inc, last) =>
      if mismatched first last then
        (includes, error (invalid_directive_msg path line_num line) st)
      else
        let isrelative := Ascii.eqb first dquote in
        let inc_path := resolve_path E dir_path inc isrelative in
        let '(base_dir, inc_file) := path_split inc_path in
        if is_sys_header_path E base_dir then
          (includes, log E ("Ignoring system header file: " ++ inc_path) st)
        else
          ((includes ++ [inc_path])%list,
           log E ("  " ++ path ++ " >> " ++ inc_path) st)
  | None => (includes, st)
  end.

(** [for line in f: ...; line_num = line_num + 1] *)
Fixpoint scan_lines (E : Env) (path dir_path : string) (lines : list string)
    (line_num : nat) (includes : list string) (st : State)
  : list string * State :=
  match lines with
  | [] => (includes, st)
  | line :: rest =>
      let '(includes', st') :=
        scan_line E path dir_path line_num line includes
                  (emit (EvLine path line) st) in
      scan_lines E path dir_path rest (S line_num) includes' st'
  end.

(** The loop of lines 271 to 274; [scan] is the recursive call. *)
Fixpoint link_includes (scan : string -> State -> option State)
    (this : string) (includes : list string) (st : State) : option State :=
  match includes with
  | [] => Some st
  | inc_path :: rest =>
      match add_child inc_path this (get_node inc_path st) with
      | None => None
      | Some st1 =>
          match scan inc_path st1 with
          | None => None
          | Some st2 => link_includes scan this rest st2
          end
      end
  end.

(** [cpp_scan_file] *)
Fixpoint cpp_scan_file (E : Env) (fuel : nat) (path : string) (st : State)
  : option State :=
  match fuel with
  | 0 => None
  | S fuel' =>
      let st0 := get_node path st in
      match node_at st0 path with
      | None => None
      | Some this_node =>
          if visited this_node then
            Some (log E ("Ignoring scanned file: " ++ path) st0)
          else
            let st1 := modify path (set_visited true) st0 in
            if negb (isfile (fs E) path) then
              Some (error (missing_msg path)
                      (modify path (set_missing true) st1))
            else
              let '(dir_path, filename) := path_split path in
              let st2 := emit (EvOpen path) (log E ("Scanning " ++ path) st1) in
              let '(includes, st3) :=
                scan_lines E path dir_path (read_lines (fs E) path) 1 [] st2 in
              link_includes (cpp_scan_file E fuel') path includes
                            (emit (EvClose path) st3)
      end
  end.

(** ** Tree renderer *)

(** The path clean-up of [print_node]. *)
Definition strip_dot_prefix (s : string) : string :=
  if startswith s "./" || startswith s ".\" then drop 2 s else s.

(** The line [Node.print_node] prints at depth [d]. *)
Definition node_line (d : nat) (n : Node) : string :=
  let s := strip_dot_prefix (file n) in
  let s := spaces (d * INDENT) ++ s in
  let s := if visited n then s ++ " *" else s in
  if missing n then s ++ " ?" else s.

(** [Node.print_node] *)
Definition print_node (key : string) (st : State) : option State :=
  match node_at st key with
  | None => None
  | Some n => Some (print (node_line (depth st) n) st)
  end.

(** What a Python call returns here: [None], [True] or [False]. *)
Inductive pyret : Type := RetNone | RetTrue | RetFalse.

(** [not r] *)
Definition py_not (r : pyret) : bool :=
  match r with RetTrue => false | _ => true end.

Definition max_depth_msg (d : nat) : string := "MAX depth reached " ++ str d.

(** The loop of lines 152 to 154: [false] when it left through
    [return False], [true] when it ran to its end. *)
Fixpoint print_children (pt : string -> State -> option (pyret * State))
    (cs : list string) (st : State) : option (bool * State) :=
  match cs with
  | [] => Some (true, st)
  | child :: rest =>
      match pt child st with
      | None => None
      | Some (r, st') =>
          if py_not r then Some (false, st')
          else print_children pt rest st'
      end
  end.

(** [Node.print_tree] *)
Fixpoint print_tree (fuel : nat) (key : string) (st : State)
  : option (pyret * State) :=
  match fuel with
  | 0 => None
  | S fuel' =>
      if (MAX_DEPTH <? depth st)%nat then
        Some (RetFalse, print (max_depth_msg (depth st)) st)
      else
        match node_at st key, print_node key st with
        | Some self, Some st1 =>
            if visited self then Some (RetNone, st1)
            else
              let st2 := modify key (set_visited true) st1 in
              let st3 := with_depth (depth st2 + 1) (depth st2 + 1) st2 in
              match print_children (print_tree fuel') (children self) st3 with
              | None => None
              | Some (false, st4) => Some (RetFalse, st4)
              | Some (true, st4) =>
                  Some (RetTrue,
                        with_depth (depth st4 - 1) (max_depth_reached st4) st4)
              end
        | _, _ => None
        end
  end.

(** [Graph.clear_visisted] *)
Definition clear_visisted (st : State) : State :=
  with_depth 0 0
    (with_nodes (map (fun kn => (fst kn, set_visited false (snd kn))) (nodes st))
       st).

(** [for file in self.nodes: node = self.nodes[file]; body] *)
Fixpoint for_each_node (body : Node -> string -> State -> option State)
    (ks : list string) (st : State) : option State :=
  match ks with
  | [] => Some st
  | k :: rest =>
      match node_at st k with
      | None => None
      | Some n =>
          match body n k st with
          | None => None
          | Some st' => for_each_node body rest st'
          end
      end
  end.

(** [Graph.print_graph]: the value of [print_tree] is dropped.  The global
    [indent] that the method sets is read nowhere. *)
Definition print_graph (fuel : nat) (st : State) : option State :=
  let st0 := clear_visisted st in
  for_each_node
    (fun node k s =>
       if negb (has_parent node) then
         match print_tree fuel k s with
         | None => None
         | Some (_, s') => Some s'
         end
       else Some s)
    (keys st0) st0.

(** [Graph.print_leaf_nodes] *)
Definition print_leaf_nodes (st : State) : option State :=
  let st0 := clear_visisted st in
  for_each_node
    (fun node k s =>
       if Bool.eqb (has_children node) false then print_node k s else Some s)
    (keys st0) st0.

(** [Graph.print_top_level_nodes] *)
Definition print_top_level_nodes (st : State) : option State :=
  let st0 := clear_visisted st in
  for_each_node
    (fun node k s => if negb (has_parent node) then print_node k s else Some s)
    (keys st0) st0.

(** [Graph.print_node] *)
Definition Graph_print_node (fuel : nat) (name : string) (st : State)
  : option State :=
  let st0 := clear_visisted st in
  match node_at st0 name with
  | Some _ =>
      match print_tree fuel name st0 with
      | None => None
      | Some (_, s') => Some s'
      end
  | None => Some st0
  end.

(** ** Building example inputs *)

Definition quoted (s : string) : string :=
  String dquote (s ++ String dquote EmptyString).
Definition nl (s : string) : string := s ++ String newline EmptyString.

(** A file system given by the list of its files. *)
Fixpoint assoc_lines (files : list (string * list string)) (p : string)
  : option (list string) :=
  match files with
  | [] => None
  | (q, ls) :: rest => if String.eqb p q then Some ls else assoc_lines rest p
  end.

Definition fs_of (files : list (string * list string)) : FileSystem :=
  mkFS (fun p => match assoc_lines files p with Some _ => true | None => false end)
       (fun p => match assoc_lines files p with Some ls => ls | None => [] end).

(** * Specification predicates *)

(** ** Growth of the graph and of the trace

    [node_le n n'] : [n'] is [n] with possibly more children and more
    flags raised.  [ext st st'] : every node of [st] is still in [st'],
    grown, and the trace of [st'] extends that of [st]. *)

Definition node_le (n n' : Node) : Prop :=
  file n = file n'
  /\ (forall c, In c (children n) -> In c (children n'))
  /\ (has_parent n = true -> has_parent n' = true)
  /\ (visited n = true -> visited n' = true)
  /\ (missing n = true -> missing n' = true).

Definition ext (st st' : State) : Prop :=
  (forall k n, node_at st k = Some n ->
     exists n', node_at st' k = Some n' /\ node_le n n')
  /\ (exists evs, trace st' = (trace st ++ evs)%list).


(** ** Invariant of the scan phase

    Every state the scanner reaches from the empty graph satisfies:
    - a key listed among the children of a node is the key of a node of
      the graph, and that node has [has_parent] set;
    - a visited node whose path is not a file is marked missing, and its
      diagnostic has been printed. *)

Definition scan_inv (E : Env) (st : State) : Prop :=
  (forall k n c, node_at st k = Some n -> In c (children n) ->
     exists nc, node_at st c = Some nc /\ has_parent nc = true)
  /\ (forall k n, node_at st k = Some n -> visited n = true ->
        isfile (fs E) k = false ->
        missing n = true /\ In (EvPrint ("ERROR: " ++ missing_msg k)) (trace st)).

(** The state differs from [st] by printed lines only. *)
Definition only_prints (st st' : State) : Prop :=
  nodes st' = nodes st /\ depth st' = depth st
  /\ max_depth_reached st' = max_depth_reached st
  /\ exists lines, trace st' = (trace st ++ map EvPrint lines)%list.

(** The node stored under [k] once [add_child] has added the edge from
    [parent] to [child]. *)
Definition linked (parent child k : string) (n : Node) : Node :=
  let n1 := if String.eqb parent k then append_child child n else n in
  if String.eqb child k then set_has_parent true n1 else n1.

(** The state in which the file [path] has been read: its node is created
    and marked visited, its lines have gone through the loop of lines 249
    to 266, and the file is closed. *)
Definition read_state (E : Env) (path : string) (st : State)
  : list string * State :=
  scan_lines E path (fst (path_split path)) (read_lines (fs E) path) 1 []
    (emit (EvOpen path)
       (log E ("Scanning " ++ path)
          (modify path (set_visited true) (get_node path st)))).

(** The list [includes] that [cpp_scan_file] builds from the text of
    [path]. *)
Definition includes_of (E : Env) (path : string) : list string :=
  fst (scan_lines E path (fst (path_split path)) (read_lines (fs E) path) 1 []
         initial_state).

Definition after_read (E : Env) (path : string) (st : State) : State :=
  emit (EvClose path) (snd (read_state E path st)).

(** ** Vocabulary of the claims *)

(** The node stored under [k] exists and has the flag [f] set. *)
Definition flagged (f : Node -> bool) (st : State) (k : string) : Prop :=
  exists n, node_at st k = Some n /\ f n = true.

(** The node stored under [parent] lists [child] among its children. *)
Definition has_edge (st : State) (parent child : string) : Prop :=
  exists n, node_at st parent = Some n /\ In child (children n).

(** [graph.get_node(k).visited], without creating the node. *)
Definition is_visited (st : State) (k : string) : bool :=
  match node_at st k with Some n => visited n | None => false end.

(** The path to which the include directive of [line], a line of the file
    [path], resolves; [None] when the line holds no directive that the
    pattern matches or when its delimiters are mismatched. *)
Definition include_directive (E : Env) (path line : string) : option string :=
  match CPP_INC_PATTERN_match line with
  | Some (first, inc, last) =>
      if mismatched first last then None
      else Some (resolve_path E (fst (path_split path)) inc
                   (Ascii.eqb first dquote))
  | None => None
  end.

(** The text of [A] contains an include directive that resolves to [B]. *)
Definition resolves_to (E : Env) (A B : string) : Prop :=
  exists line, In line (read_lines (fs E) A) /\ include_directive E A line = Some B.

(** The number of paths of [files] not yet visited: the measure under which
    the scan terminates when [files] lists every file of the file system. *)
Definition unvisited_files (files : list string) (st : State) : nat :=
  length (filter (fun p => negb (is_visited st p)) files).

Definition fs_listed (E : Env) (files : list string) : Prop :=
  forall p, isfile (fs E) p = true -> In p files.

(** What one line adds to the list [includes]: the resolved path of its
    directive, unless the directory of that path starts with a system
    header path. *)
Definition line_includes (E : Env) (path line : string) : list string :=
  match include_directive E path line with
  | Some inc_path =>
      if is_sys_header_path E (fst (path_split inc_path)) then [] else [inc_path]
  | None => []
  end.

(** ** Example file systems *)

Definition include_quoted (s : string) : string := nl ("#include " ++ quoted s).
Definition include_angle (s : string) : string := nl ("#include <" ++ s ++ ">").

(** [main.cpp] includes [util.h], which includes [base.h]. *)
Definition demo_files : list (string * list string) :=
  [("main.cpp", [include_quoted "util.h"; nl "int main() { return 0; }"]);
   ("util.h", [include_quoted "base.h"]);
   ("base.h", [nl "#define BASE 1"])].
Definition E_demo : Env := mkEnv (fs_of demo_files) false [] [].

(** The state after the scan of [main.cpp] from the empty graph. *)
Definition run_scan (E : Env) (fuel : nat) (path : string) (st : State) : State :=
  match cpp_scan_file E fuel path st with Some st' => st' | None => st end.
Definition demo_scanned : State :=
  Eval vm_compute in run_scan E_demo 4 "main.cpp" initial_state.

(** [a.c] includes a header found under a system include path. *)
Definition sys_files : list (string * list string) :=
  [("a.c", [include_angle "b.h"]); ("/usr/include/b.h", [])].
Definition E_sys : Env :=
  mkEnv (fs_of sys_files) false ["/usr/include"] ["/usr/include"].

(** [x.cpp], whose line 5 opens with [<] and closes with a double quote. *)
Definition bad_line : string := nl ("#include <foo.h" ++ String dquote EmptyString).
Definition bad_files : list (string * list string) :=
  [("x.cpp", [nl "// x"; include_quoted "ok.h"; nl EmptyString; nl "int x;"; bad_line;
              include_quoted "ok.h"]);
   ("ok.h", [])].
Definition E_bad : Env := mkEnv (fs_of bad_files) false [] [].

(** [x.cpp], whose two lines are that same directive, once with two blanks
    before the [#] and once with a tab after it. *)
Definition tab : ascii := "009"%char.
Definition indented_bad_line : string := "  " ++ bad_line.
Definition tabbed_bad_line : string :=
  nl ("#" ++ String tab ("include <foo.h" ++ String dquote EmptyString)).
Definition indent_files : list (string * list string) :=
  [("x.cpp", [indented_bad_line; tabbed_bad_line])].
Definition E_indent : Env := mkEnv (fs_of indent_files) false [] [].

(** [a.c] includes [b.h], which is not on disk. *)
Definition missing_files : list (string * list string) :=
  [("a.c", [include_quoted "b.h"])].
Definition E_missing : Env := mkEnv (fs_of missing_files) false [] [].

(** Two search paths that both hold [foo.h]. *)
Definition search_files : list (string * list string) :=
  [("src/a.c", [include_angle "foo.h"]); ("inc2/foo.h", []); ("inc3/foo.h", [])].
Definition E_search : Env :=
  mkEnv (fs_of search_files) false ["inc1"; "inc2"; "inc3"] [].

(** No character of [s] is [>] or a double quote. *)
Fixpoint no_close (s : string) : bool :=
  match s with
  | EmptyString => true
  | String c s' => negb (is_close c) && no_close s'
  end.

(** A directive as the pattern takes it: [#], blanks, [include], blanks, an
    opening delimiter, the spelling, a closing delimiter, anything. *)
Definition directive_line (n m : nat) (first : ascii) (body : string)
    (last : ascii) (rest : string) : string :=
  "#" ++ spaces n ++ "include" ++ spaces m
      ++ String first (body ++ String last rest).

(** ** Listings *)

(** The line of a node in the top-level and leaf listings: its path without
    a leading current-directory prefix, followed by the missing marker when
    the node is missing. *)
Definition listing_line (n : Node) : string :=
  if missing n then strip_dot_prefix (file n) ++ " ?"
  else strip_dot_prefix (file n).

Definition key_line (g : list (string * Node)) (k : string) : string :=
  match lookup g k with Some n => listing_line n | None => EmptyString end.

(** The keys of [ks], in order, whose node satisfies [sel]. *)
Definition selected (sel : Node -> bool) (g : list (string * Node))
    (ks : list string) : list string :=
  filter (fun k => match lookup g k with Some n => sel n | None => false end) ks.

Definition is_top_level (n : Node) : bool := negb (has_parent n).
Definition is_leaf (n : Node) : bool := Bool.eqb (has_children n) false.

(** The state after a listing of the nodes that satisfy [sel]. *)
Definition listed (sel : Node -> bool) (st : State) : State :=
  mkState (nodes (clear_visisted st)) 0 0
    (trace st
     ++ map (fun k => EvPrint (key_line (nodes st) k))
            (selected sel (nodes st) (keys st)))%list.

Definition missing_scanned : State :=
  Eval vm_compute in run_scan E_missing 3 "a.c" initial_state.

(** A header under a system include path that includes itself. *)
Definition self_sys_files : list (string * list string) :=
  [("/usr/include/a.h", [include_quoted "a.h"])].
Definition E_self_sys : Env :=
  mkEnv (fs_of self_sys_files) false ["/usr/include"] ["/usr/include"].
Definition self_sys_scanned : State :=
  Eval vm_compute in run_scan E_self_sys 3 "/usr/include/a.h" initial_state.

(** [src/a.h] includes itself. *)
Definition self_files : list (string * list string) :=
  [("src/a.h", [include_quoted "a.h"])].
Definition E_self : Env := mkEnv (fs_of self_files) false [] [].

(** ** The render phase *)

(** Every key listed among the children of a node is the key of a node. *)
Definition graph_closed (st : State) : Prop :=
  forall k n c, node_at st k = Some n -> In c (children n) ->
  exists nc, node_at st c = Some nc.

(** The number of nodes not yet visited: the measure under which a render
    terminates. *)
Definition count_unvisited (g : list (string * Node)) : nat :=
  length (filter (fun kn => negb (visited (snd kn))) g).

(** [n'] is [n] with, possibly, [visited] raised. *)
Definition vis_le (n n' : Node) : Prop :=
  file n' = file n /\ children n' = children n
  /\ has_parent n' = has_parent n /\ missing n' = missing n
  /\ (visited n = true -> visited n' = true).

(** The graph after a part of a render: the same keys in the same order,
    the same nodes up to [visited], which is only raised. *)
Definition render_le (g g' : list (string * Node)) : Prop :=
  Forall2 (fun kn kn' => fst kn = fst kn' /\ vis_le (snd kn) (snd kn')) g g'.

(** [base.h] is included by [a.h], [b.c] and [c.c]; [b.c] also includes
    [a.h]. *)
Definition shared_files : list (string * list string) :=
  [("base.h", []);
   ("a.h", [include_quoted "base.h"]);
   ("b.c", [include_quoted "a.h"; include_quoted "base.h"]);
   ("c.c", [include_quoted "base.h"])].
Definition E_shared : Env := mkEnv (fs_of shared_files) false [] [].
Definition shared_scanned : State :=
  Eval vm_compute in
    run_scan E_shared 5 "c.c" (run_scan E_shared 5 "b.c" initial_state).


(** * Further invariants of the scan phase *)

(** The keys of the graph are distinct and every node is stored under its
    own [file]. *)
Definition graph_keyed (st : State) : Prop :=
  NoDup (keys st) /\ forall k n, node_at st k = Some n -> file n = k.

(** No children list holds a key twice. *)
Definition children_nodup (st : State) : Prop :=
  forall k n, node_at st k = Some n -> NoDup (children n).

(** Every edge comes from an include directive: its child is a file that
    has been visited, and its parent is among the includes of the child. *)
Definition edges_sound (E : Env) (st : State) : Prop :=
  forall p c, has_edge st p c ->
  is_visited st c = true /\ isfile (fs E) c = true /\ In p (includes_of E c).

(** [has_parent] is only set on the child of an edge. *)
Definition parent_has_edge (st : State) : Prop :=
  forall c, flagged has_parent st c -> exists p, has_edge st p c.

(** A node marked missing has been visited and is not a file. *)
Definition missing_sound (E : Env) (st : State) : Prop :=
  forall k, flagged missing st k ->
  is_visited st k = true /\ isfile (fs E) k = false.

(** The lines of [p] handed out by the file iterator, in order. *)
Fixpoint lines_read (tr : list event) (p : string) : list string :=
  match tr with
  | [] => []
  | EvLine q l :: tr' =>
      if String.eqb q p then l :: lines_read tr' p else lines_read tr' p
  | _ :: tr' => lines_read tr' p
  end.

(** The paths opened, in order. *)
Fixpoint opened (tr : list event) : list string :=
  match tr with
  | [] => []
  | EvOpen q :: tr' => q :: opened tr'
  | _ :: tr' => opened tr'
  end.

(** The trace holds, for every path, the lines of the file if it is a
    visited file, and no line otherwise; and a path is opened at most once. *)
Definition read_once (E : Env) (st : State) : Prop :=
  (forall p, lines_read (trace st) p
             = if is_visited st p && isfile (fs E) p then read_lines (fs E) p
               else [])
  /\ NoDup (opened (trace st))
  /\ (forall p, In p (opened (trace st)) ->
                is_visited st p = true /\ isfile (fs E) p = true).

(** Every node of the graph has been visited. *)
Definition all_visited (st : State) : Prop :=
  forall k n, node_at st k = Some n -> visited n = true.

(** Every visited file outside [S] has an edge from each of its includes. *)
Definition complete_except (E : Env) (S : list string) (st : State) : Prop :=
  forall A, is_visited st A = true -> isfile (fs E) A = true -> ~ In A S ->
  forall B, In B (includes_of E A) -> has_edge st B A.

(** The state between two top-level calls of [cpp_scan_file]. *)
Definition scan_done (E : Env) (st : State) : Prop :=
  scan_inv E st /\ edges_sound E st /\ parent_has_edge st
  /\ missing_sound E st /\ all_visited st /\ complete_except E [] st.

(** Every node other than that of [path] has been visited. *)
Definition visited_except (path : string) (st : State) : Prop :=
  forall k n, node_at st k = Some n -> k <> path -> visited n = true.

(** The states reached from the empty graph by calls of [cpp_scan_file]
    that returned and by calls of [log]. *)
Inductive scanned (E : Env) : State -> Prop :=
| scanned_initial : scanned E initial_state
| scanned_step (st st' : State) (fuel : nat) (path : string) :
    scanned E st -> cpp_scan_file E fuel path st = Some st' -> scanned E st'
| scanned_log (st : State) (s : string) :
    scanned E st -> scanned E (log E s st).

(** [B] is reached from [A] through includes of files. *)
Inductive include_chain (E : Env) : string -> string -> Prop :=
| chain_here (A : string) : include_chain E A A
| chain_next (A B C : string) :
    isfile (fs E) A = true -> In B (includes_of E A) ->
    include_chain E B C -> include_chain E A C.

(** * Directory scanning *)

(** [os.listdir] and [os.path.isdir].  [listdir d] is the list that
    [os.listdir] returns for a directory [d]; on a path that is no
    directory [os.listdir] raises [OSError].  The recursive calls of
    [cpp_scan_dir] are made on paths for which [isdir] holds; the call from
    [main] is not guarded, and [main] below raises there. *)
Record DirSystem : Type := mkDS {
  listdir : string -> list string;
  isdir : string -> bool
}.

Definition CPP_FILE_TYPES : list string := [".c"; ".cpp"; ".cxx"].
Definition IGNORE_LIST : list string := [".git"].

(** [x in l] for a list of strings *)
Definition str_in (x : string) (l : list string) : bool :=
  existsb (String.eqb x) l.

(** On the reversed path: the reversed extension, ending with its dot, and
    what lies before the dot; [None] when a separator comes before any
    dot. *)
Fixpoint rfind_dot (r : string) : option (string * string) :=
  match r with
  | EmptyString => None
  | String c r' =>
      if Ascii.eqb c "." then Some (String c EmptyString, r')
      else if Ascii.eqb c "/" then None
      else match rfind_dot r' with
           | Some (e, rest) => Some (String c e, rest)
           | None => None
           end
  end.

(** On the reversed path before the dot: the file name holds a character
    other than a dot. *)
Fixpoint has_name_char (r : string) : bool :=
  match r with
  | EmptyString => false
  | String c r' =>
      if Ascii.eqb c "/" then false
      else if Ascii.eqb c "." then has_name_char r'
      else true
  end.

(** [os.path.splitext(p)]: the extension starts at the last dot of the last
    component, unless that component has only dots before it. *)
Definition splitext (p : string) : string * string :=
  match rfind_dot (rev_string EmptyString p) with
  | Some (e, rest) =>
      if has_name_char rest
      then (rev_string EmptyString rest, rev_string EmptyString e)
      else (p, EmptyString)
  | None => (p, EmptyString)
  end.

(** The first loop of [cpp_scan_dir], over the files of the directory. *)
Fixpoint scan_dir_files (E : Env) (ffuel : nat) (dirpath : string)
    (files : list string) (st : State) : option State :=
  match files with
  | [] => Some st
  | file :: rest =>
      let path := path_join dirpath file in
      if isfile (fs E) path then
        let '(name, ext) := splitext ("x" ++ file) in
        if str_in ext IGNORE_LIST then
          scan_dir_files E ffuel dirpath rest (log E ("Ignoring " ++ file) st)
        else if str_in ext CPP_FILE_TYPES then
          match cpp_scan_file E ffuel path st with
          | None => None
          | Some st' => scan_dir_files E ffuel dirpath rest st'
          end
        else scan_dir_files E ffuel dirpath rest st
      else scan_dir_files E ffuel dirpath rest st
  end.

(** The second loop of [cpp_scan_dir], over the sub directories; [rec] is
    the recursive call. *)
Fixpoint scan_subdirs (E : Env) (D : DirSystem)
    (rec : string -> State -> option State) (dirpath : string)
    (files : list string) (st : State) : option State :=
  match files with
  | [] => Some st
  | file :: rest =>
      let path := path_join dirpath file in
      if isdir D path then
        let '(name, ext) := splitext ("x" ++ file) in
        if str_in ext IGNORE_LIST then
          scan_subdirs E D rec dirpath rest (log E ("Ignoring " ++ file) st)
        else
          match rec path st with
          | None => None
          | Some st' => scan_subdirs E D rec dirpath rest st'
          end
      else scan_subdirs E D rec dirpath rest st
  end.

(** [cpp_scan_dir] on a directory; [ffuel] is the fuel of each call of
    [cpp_scan_file]. *)
Fixpoint cpp_scan_dir (E : Env) (D : DirSystem) (ffuel fuel : nat)
    (dirpath : string) (st : State) : option State :=
  match fuel with
  | 0 => None
  | S fuel' =>
      let st0 := log E ("Scanning dir " ++ dirpath) st in
      let files := listdir D dirpath in
      match scan_dir_files E ffuel dirpath files st0 with
      | None => None
      | Some st1 =>
          scan_subdirs E D (cpp_scan_dir E D ffuel fuel') dirpath files st1
      end
  end.

(** The extension of a directory entry as [cpp_scan_dir] takes it. *)
Definition entry_ext (file : string) : string := snd (splitext ("x" ++ file)).

(** [path] is a file that [cpp_scan_dir] scans from [dirpath]: a file of the
    directory with a tracked extension, or such a file of a sub directory
    that is not ignored. *)
Inductive dir_source (E : Env) (D : DirSystem) : string -> string -> Prop :=
| source_here (dirpath file : string) :
    In file (listdir D dirpath) ->
    isfile (fs E) (path_join dirpath file) = true ->
    str_in (entry_ext file) CPP_FILE_TYPES = true ->
    dir_source E D dirpath (path_join dirpath file)
| source_below (dirpath sub path : string) :
    In sub (listdir D dirpath) ->
    isdir D (path_join dirpath sub) = true ->
    str_in (entry_ext sub) IGNORE_LIST = false ->
    dir_source E D (path_join dirpath sub) path ->
    dir_source E D dirpath path.

(** The directory tree under [dirpath] has fewer than [n] levels of
    directories that are not ignored. *)
Fixpoint dir_bounded (D : DirSystem) (n : nat) (dirpath : string) : Prop :=
  match n with
  | 0 => False
  | S n' =>
      forall sub, In sub (listdir D dirpath) ->
      isdir D (path_join dirpath sub) = true ->
      str_in (entry_ext sub) IGNORE_LIST = false ->
      dir_bounded D n' (path_join dirpath sub)
  end.

(** No character of [s] is a dot or a separator. *)
Fixpoint plain (s : string) : bool :=
  match s with
  | EmptyString => true
  | String c s' => negb (Ascii.eqb c ".") && negb (Ascii.eqb c "/") && plain s'
  end.

(** No character of [s] is a separator. *)
Fixpoint no_sep (s : string) : bool :=
  match s with
  | EmptyString => true
  | String c s' => negb (Ascii.eqb c "/") && no_sep s'
  end.

(** A source tree: [src/main.c], [src/util.h], [src/lib/io.cpp],
    [src/.git/x.c] and [src/notes.txt]. *)
Definition tree_files : list (string * list string) :=
  [("src/main.c", [include_quoted "util.h"]);
   ("src/util.h", []);
   ("src/notes.txt", [include_quoted "util.h"]);
   ("src/lib/io.cpp", [include_angle "stdio.h"]);
   ("src/.git/x.c", [])].
Definition E_tree : Env := mkEnv (fs_of tree_files) false [] [].
Definition D_tree : DirSystem :=
  mkDS (fun d => if String.eqb d "src" then ["main.c"; "util.h"; "notes.txt"; "lib"; ".git"]
                 else if String.eqb d "src/lib" then ["io.cpp"]
                 else if String.eqb d "src/.git" then ["x.c"]
                 else [])
       (fun d => String.eqb d "src/lib" || String.eqb d "src/.git").

Definition run_dir (E : Env) (D : DirSystem) (ffuel fuel : nat)
    (dirpath : string) (st : State) : State :=
  match cpp_scan_dir E D ffuel fuel dirpath st with
  | Some st' => st'
  | None => st
  end.

(** A directory [doc] with a text file, a file and a directory whose names
    end in [.git]. *)
Definition quiet_files : list (string * list string) :=
  [("doc/readme.txt", [include_quoted "a.h"]); ("doc/x.git", [])].
Definition E_quiet : Env := mkEnv (fs_of quiet_files) true [] [].
Definition D_quiet : DirSystem :=
  mkDS (fun d => if String.eqb d "doc" then ["readme.txt"; "x.git"; ".git"]
                 else if String.eqb d "doc/.git" then ["hook.c"]
                 else [])
       (fun d => String.eqb d "doc/.git").

(** * The render phase, further *)

(** What a render that returned [r] owes: nothing when it returned [True],
    one line, a marked node or the diagnostic, otherwise. *)
Definition last_line (r : pyret) : nat :=
  match r with RetTrue => 0 | _ => 1 end.

(** The outcome of a call of [print_tree], or of the loop over the children
    with [r] its success: the graph changed by raised [visited] flags only,
    the trace grew by printed lines only, as many as nodes were newly visited
    plus [extra], and the depth did not go down. *)
Definition render_step (extra : nat) (st st' : State) : Prop :=
  render_le (nodes st) (nodes st')
  /\ depth st <= depth st'
  /\ exists lines,
       trace st' = (trace st ++ map EvPrint lines)%list
       /\ length lines + count_unvisited (nodes st')
          = count_unvisited (nodes st) + extra.

(** [a.h] and [b.h] include each other. *)
Definition cycle_files : list (string * list string) :=
  [("a.h", [include_quoted "b.h"]); ("b.h", [include_quoted "a.h"])].
Definition E_cycle : Env := mkEnv (fs_of cycle_files) false [] [].
Definition cycle_scanned : State :=
  Eval vm_compute in run_scan E_cycle 3 "a.h" initial_state.

(** * The command line *)

Definition crlf : string := String "013"%char (String "010"%char EmptyString).

(** The text that [usage] prints. *)
Definition usage_text : string :=
  ("usage: depends [options]" ++ crlf ++ crlf) ++
  ("Options are:" ++ crlf) ++
  ("    -h             print this help and exit" ++ crlf) ++
  ("    -i             specify input directory" ++ crlf) ++
  ("    -I             add include search path" ++ crlf) ++
  ("    -f             specify format of output file. Supported are txt, html" ++ crlf) ++
  ("    -o             specify output file name to create (default is stdout)" ++ crlf) ++
  ("    -v             enable verbose mode" ++ crlf) ++
  ("    --node         print depedencies of node" ++ crlf) ++
  ("    --top-level    print top level files only" ++ crlf) ++
  ("    --leaf-level   print leaf level files only" ++ crlf ++ crlf) ++
  ("If " ++ quoted "input-dir"
     ++ " is not specified, depends will scan current directory." ++ crlf).

(** [usage] *)
Definition usage (st : State) : State := print usage_text st.

(** The variables that the option loop of [main] sets: its locals
    [input_dir], [only_top_level], [only_leaf_level] and [node], and the
    globals [verbose], [inc_search_paths] and [output_format]. *)
Record Options : Type := mkOptions {
  input_dir : string;
  only_top_level : bool;
  only_leaf_level : bool;
  node : option string;
  opt_verbose : bool;
  opt_search_paths : list string;
  output_format : string
}.

Definition default_options : Options :=
  mkOptions "." false false None false [] "txt".

(** [sys.exit(code)], with the output so far, the normal end of a block,
    or an exception that nothing catches, with the output so far. *)
Inductive outcome (A : Type) : Type :=
| Exit (code : nat) (negative : bool) (st : State)
| Go (a : A) (st : State)
| Raised (exc : string) (st : State).
Arguments Exit {A} code negative st.
Arguments Go {A} a st.
Arguments Raised {A} exc st.

(** The loop of [main] over the options that [getopt] returned. *)
Fixpoint process_opts (opts : list (string * string)) (o : Options) (st : State)
  : outcome Options :=
  match opts with
  | [] => Go o st
  | (opt, arg) :: rest =>
      if String.eqb opt "-h" then Exit 0 false (usage st)
      else if String.eqb opt "-I" then
        process_opts rest
          (mkOptions (input_dir o) (only_top_level o) (only_leaf_level o) (node o)
             (opt_verbose o) (opt_search_paths o ++ [arg])%list (output_format o)) st
      else if String.eqb opt "-i" then
        process_opts rest
          (mkOptions arg (only_top_level o) (only_leaf_level o) (node o)
             (opt_verbose o) (opt_search_paths o) (output_format o)) st
      else if String.eqb opt "-f" then
        process_opts rest
          (mkOptions (input_dir o) (only_top_level o) (only_leaf_level o) (node o)
             (opt_verbose o) (opt_search_paths o) arg) st
      else if String.eqb opt "-v" then
        process_opts rest
          (mkOptions (input_dir o) (only_top_level o) (only_leaf_level o) (node o)
             true (opt_search_paths o) (output_format o)) st
      else if String.eqb opt "--node" then
        process_opts rest
          (mkOptions (input_dir o) (only_top_level o) (only_leaf_level o) (Some arg)
             (opt_verbose o) (opt_search_paths o) (output_format o)) st
      else if String.eqb opt "--top-level" then
        process_opts rest
          (mkOptions (input_dir o) true (only_leaf_level o) (node o)
             (opt_verbose o) (opt_search_paths o) (output_format o)) st
      else if String.eqb opt "--only_leaf_level" then
        process_opts rest
          (mkOptions (input_dir o) (only_top_level o) true (node o)
             (opt_verbose o) (opt_search_paths o) (output_format o)) st
      else
        Exit 1 false (usage (print ("Invalid option " ++ quoted opt) st))
  end.

(** The option names that [main] declares to [getopt]: the short options
    [I:f:i:o:v] and the long options [top-level], [leaf-level] and [node=]. *)
Definition getopt_names : list string :=
  ["-I"; "-f"; "-i"; "-o"; "-v"; "--top-level"; "--leaf-level"; "--node"].

(** The platform: [sys.platform] and [os.name]. *)
Record Platform : Type := mkPlatform {
  sys_platform : string;
  os_name : string
}.

(** The system include paths that [main] appends to [SYS_INC_PATHS], which
    is empty before. *)
Definition sys_inc_paths (Pf : Platform) (D : DirSystem) : list string :=
  ((if str_in (sys_platform Pf) ["cygwin"; "linux2"; "darwin"]
    then ["/usr/include"] else [])
   ++ (if String.eqb (os_name Pf) "nt" && String.eqb (sys_platform Pf) "win32"
       then filter (isdir D)
              ["C:\Program Files\Microsoft Visual Studio 9.0\VC\include";
               "C:\Program Files\Microsoft Visual Studio 10.0\VC\include";
               "C:\Program Files\Microsoft SDKs\Windows\v7.0A\Include"]
       else [])
   ++ (if String.eqb (os_name Pf) "posix" && String.eqb (sys_platform Pf) "cygwin"
       then filter (isdir D)
              ["/lib/gcc/i686-pc-cygwin/5.4.0/include";
               "/lib/gcc/i686-pc-cygwin/5.4.0/include/c++"]
       else []))%list.

(** The environment of the scan that [main] sets up. *)
Definition main_env (F : FileSystem) (D : DirSystem) (Pf : Platform)
    (o : Options) : Env :=
  mkEnv F (opt_verbose o)
    (opt_search_paths o ++ sys_inc_paths Pf D)%list (sys_inc_paths Pf D).

(** [for path in SYS_INC_PATHS: log('  ' + path)] *)
Fixpoint log_paths (E : Env) (paths : list string) (st : State) : State :=
  match paths with
  | [] => st
  | p :: rest => log_paths E rest (log E ("  " ++ p) st)
  end.

(** The last part of [main]: the results. *)
Definition print_results (E : Env) (fuel : nat) (o : Options) (st : State)
  : option State :=
  match node o with
  | Some name =>
      let st1 := print (name ++ " dependencies:") st in
      match node_at st1 name with
      | Some _ => Graph_print_node fuel name st1
      | None => Some (print "[none]" st1)
      end
  | None =>
      match
        (if negb (only_top_level o) && negb (only_leaf_level o) then
           print_graph fuel (print "Full dependency graph:" (log E EmptyString st))
         else Some st)
      with
      | None => None
      | Some st1 =>
          match
            (if only_top_level o then
               print_top_level_nodes
                 (print "Top level files:" (print EmptyString st1))
             else Some st1)
          with
          | None => None
          | Some st2 =>
              if only_leaf_level o then
                print_leaf_nodes
                  (print "Leaf level files:" (print EmptyString st2))
              else Some st2
          end
      end
  end.

(** [main], from the value of [getopt.getopt]: [None] when it raised
    [GetoptError].  The input directory is handed to [cpp_scan_dir] as it
    is: when it is no directory, [os.listdir] raises [OSError] (under
    Python 3 one of its subclasses) after the log line of [cpp_scan_dir],
    and nothing catches it.  The result is
    [None] when the fuel runs out. *)
Definition main (F : FileSystem) (D : DirSystem) (Pf : Platform)
    (ffuel fuel : nat) (getopt_result : option (list (string * string)))
  : option (outcome unit) :=
  match getopt_result with
  | None => Some (Exit 1 true (usage initial_state))
  | Some opts =>
      match process_opts opts default_options initial_state with
      | Exit code neg st => Some (Exit code neg st)
      | Raised exc st => Some (Raised exc st)
      | Go o st =>
          let E := main_env F D Pf o in
          if only_top_level o && only_leaf_level o then
            Some (Exit 1 false
                    (usage (error "Both --top-level and --leaf-level flags present." st)))
          else
            let st1 :=
              log_paths E (sys_inc_paths Pf D)
                (log E "system includes:"
                   (log E ("sys.platform = " ++ sys_platform Pf)
                      (log E ("os.name = " ++ os_name Pf) st))) in
            if isdir D (input_dir o) then
              match cpp_scan_dir E D ffuel fuel (input_dir o) st1 with
              | None => None
              | Some st2 =>
                  match print_results E fuel o (log E "Scan complete." st2) with
                  | None => None
                  | Some st3 => Some (Go tt st3)
                  end
              end
            else
              Some (Raised "OSError"
                      (log E ("Scanning dir " ++ input_dir o) st1))
      end
  end.

(** The names that the option loop handles without leaving. *)
Definition handled (opt : string) : bool :=
  str_in opt ["-I"; "-i"; "-f"; "-v"; "--node"; "--top-level"; "--only_leaf_level"].

(** What the option loop does to the variables for one handled option. *)
Definition apply_opt (opt arg : string) (o : Options) : Options :=
  if String.eqb opt "-I" then
    mkOptions (input_dir o) (only_top_level o) (only_leaf_level o) (node o)
      (opt_verbose o) (opt_search_paths o ++ [arg])%list (output_format o)
  else if String.eqb opt "-i" then
    mkOptions arg (only_top_level o) (only_leaf_level o) (node o)
      (opt_verbose o) (opt_search_paths o) (output_format o)
  else if String.eqb opt "-f" then
    mkOptions (input_dir o) (only_top_level o) (only_leaf_level o) (node o)
      (opt_verbose o) (opt_search_paths o) arg
  else if String.eqb opt "-v" then
    mkOptions (input_dir o) (only_top_level o) (only_leaf_level o) (node o)
      true (opt_search_paths o) (output_format o)
  else if String.eqb opt "--node" then
    mkOptions (input_dir o) (only_top_level o) (only_leaf_level o) (Some arg)
      (opt_verbose o) (opt_search_paths o) (output_format o)
  else if String.eqb opt "--top-level" then
    mkOptions (input_dir o) true (only_leaf_level o) (node o)
      (opt_verbose o) (opt_search_paths o) (output_format o)
  else if String.eqb opt "--only_leaf_level" then
    mkOptions (input_dir o) (only_top_level o) true (node o)
      (opt_verbose o) (opt_search_paths o) (output_format o)
  else o.

(** The arguments of the options named [name], in order. *)
Definition args_of (name : string) (opts : list (string * string)) : list string :=
  map snd (filter (fun oa => String.eqb (fst oa) name) opts).

(** The last element of a list, or a default. *)
Fixpoint last_or (d : string) (l : list string) : string :=
  match l with
  | [] => d
  | x :: l' => last_or x l'
  end.

(** An option list holds [-o] or [--leaf-level]. *)
Definition has_unhandled (opts : list (string * string)) : bool :=
  existsb (fun oa => String.eqb (fst oa) "-o" || String.eqb (fst oa) "--leaf-level")
    opts.

Definition linux_py3 : Platform := mkPlatform "linux" "posix".



(** * Verification *)

(** ** The node store *)

Lemma lookup_update (k k' : string) (f : Node -> Node) (g : list (string * Node)) :
  lookup (update k f g) k' =
  if String.eqb k k' then option_map f (lookup g k') else lookup g k'.
Proof.
  induction g as [|[q n] g IH]; simpl.
  - now destruct (String.eqb k k').
  - destruct (String.eqb k q) eqn:Hkq; simpl.
    + apply String.eqb_eq in Hkq; subst q.
      rewrite (String.eqb_sym k' k).
      destruct (String.eqb k k') eqn:Hk; simpl; [reflexivity | exact IH].
    + destruct (String.eqb k' q) eqn:Hq; simpl.
      * apply String.eqb_eq in Hq; subst q.
        now rewrite Hkq.
      * exact IH.
Qed.

Lemma lookup_app (g g' : list (string * Node)) (k : string) :
  lookup (g ++ g') k =
  match lookup g k with Some n => Some n | None => lookup g' k end.
Proof.
  induction g as [|[q n] g IH]; simpl; [reflexivity|].
  now destruct (String.eqb k q).
Qed.

Lemma lookup_In (g : list (string * Node)) (k : string) (n : Node) :
  lookup g k = Some n -> In (k, n) g.
Proof.
  induction g as [|[q m] g IH]; simpl; [discriminate|].
  destruct (String.eqb k q) eqn:Hk.
  - apply String.eqb_eq in Hk; subst q. intros [= ->]. now left.
  - intros H. right. now apply IH.
Qed.

Lemma lookup_None (g : list (string * Node)) (k : string) :
  lookup g k = None <-> ~ In k (map fst g).
Proof.
  induction g as [|[q m] g IH]; simpl.
  - tauto.
  - destruct (String.eqb k q) eqn:Hk.
    + apply String.eqb_eq in Hk; subst q. split; [discriminate | tauto].
    + apply String.eqb_neq in Hk. rewrite IH. split.
      * intros H [He|Hi]; [now apply Hk | now apply H].
      * tauto.
Qed.

Lemma node_at_modify (k k' : string) (f : Node -> Node) (st : State) :
  node_at (modify k f st) k' =
  if String.eqb k k' then option_map f (node_at st k') else node_at st k'.
Proof. apply lookup_update. Qed.

Lemma node_at_get_node (f k : string) (st : State) :
  node_at (get_node f st) k =
  match node_at st k with
  | Some n => Some n
  | None => if String.eqb k f then Some (Node_init f) else None
  end.
Proof.
  unfold get_node.
  destruct (node_at st f) as [m|] eqn:Hf.
  - destruct (node_at st k) as [n|] eqn:Hk; [reflexivity|].
    destruct (String.eqb k f) eqn:He; [|reflexivity].
    apply String.eqb_eq in He; subst k. congruence.
  - unfold node_at in *; simpl. rewrite lookup_app; simpl.
    destruct (lookup (nodes st) k); [reflexivity|].
    now destruct (String.eqb k f).
Qed.

Lemma node_at_get_node_same (f : string) (st : State) :
  exists n, node_at (get_node f st) f = Some n.
Proof.
  rewrite node_at_get_node, String.eqb_refl.
  destruct (node_at st f); eauto.
Qed.

Lemma node_at_emit (e : event) (st : State) (k : string) :
  node_at (emit e st) k = node_at st k.
Proof. reflexivity. Qed.

Lemma trace_emit (e : event) (st : State) :
  trace (emit e st) = (trace st ++ [e])%list.
Proof. reflexivity. Qed.

Lemma nodes_log (E : Env) (s : string) (st : State) :
  nodes (log E s st) = nodes st.
Proof. unfold log. now destruct (verbose E). Qed.

Lemma node_at_log (E : Env) (s : string) (st : State) (k : string) :
  node_at (log E s st) k = node_at st k.
Proof. unfold node_at. now rewrite nodes_log. Qed.

Lemma existsb_eqb_In (c : string) (l : list string) :
  existsb (String.eqb c) l = true <-> In c l.
Proof.
  rewrite existsb_exists. split.
  - intros [x [Hx He]]. apply String.eqb_eq in He. now subst.
  - intros H. exists c. split; [assumption | apply String.eqb_refl].
Qed.

(** ** Growth of the graph and of the trace *)

Lemma node_le_refl (n : Node) : node_le n n.
Proof. unfold node_le; tauto. Qed.

Lemma node_le_trans (a b c : Node) : node_le a b -> node_le b c -> node_le a c.
Proof.
  unfold node_le. intros (F1 & C1 & P1 & V1 & M1) (F2 & C2 & P2 & V2 & M2).
  repeat split; try congruence; auto.
Qed.

Lemma ext_refl (st : State) : ext st st.
Proof.
  split.
  - intros k n H. exists n. split; [assumption | apply node_le_refl].
  - exists []. now rewrite app_nil_r.
Qed.

Lemma ext_trans (a b c : State) : ext a b -> ext b c -> ext a c.
Proof.
  intros [N1 [e1 T1]] [N2 [e2 T2]]. split.
  - intros k n H. destruct (N1 _ _ H) as [n1 [H1 L1]].
    destruct (N2 _ _ H1) as [n2 [H2 L2]].
    exists n2. split; [assumption | eapply node_le_trans; eassumption].
  - exists (e1 ++ e2)%list. now rewrite T2, T1, app_assoc.
Qed.

Lemma ext_emit (e : event) (st : State) : ext st (emit e st).
Proof.
  split.
  - intros k n H. exists n. split; [assumption | apply node_le_refl].
  - now exists [e].
Qed.

Lemma ext_log (E : Env) (s : string) (st : State) : ext st (log E s st).
Proof.
  unfold log. destruct (verbose E); [apply ext_emit | apply ext_refl].
Qed.

Lemma ext_get_node (f : string) (st : State) : ext st (get_node f st).
Proof.
  split.
  - intros k n H. exists n. rewrite node_at_get_node, H.
    split; [reflexivity | apply node_le_refl].
  - exists []. unfold get_node. destruct (node_at st f); simpl; now rewrite app_nil_r.
Qed.

Lemma ext_modify (k : string) (f : Node -> Node) (st : State) :
  (forall n, node_le n (f n)) -> ext st (modify k f st).
Proof.
  intros Hf. split.
  - intros q n H. rewrite node_at_modify, H.
    destruct (String.eqb k q); simpl.
    + exists (f n). split; [reflexivity | apply Hf].
    + exists n. split; [reflexivity | apply node_le_refl].
  - exists []. simpl. now rewrite app_nil_r.
Qed.

Lemma node_le_set_visited (n : Node) : node_le n (set_visited true n).
Proof. unfold node_le; simpl; tauto. Qed.
Lemma node_le_set_missing (n : Node) : node_le n (set_missing true n).
Proof. unfold node_le; simpl; tauto. Qed.
Lemma node_le_set_has_parent (n : Node) : node_le n (set_has_parent true n).
Proof. unfold node_le; simpl; tauto. Qed.
Lemma node_le_append_child (c : string) (n : Node) : node_le n (append_child c n).
Proof.
  unfold node_le; simpl. repeat split; auto.
  intros x Hx. apply in_or_app. now left.
Qed.

Lemma ext_add_child (parent child : string) (st st' : State) :
  add_child parent child st = Some st' -> ext st st'.
Proof.
  unfold add_child. destruct (node_at st parent) as [p|]; [|discriminate].
  destruct (has_child p child).
  - intros [= <-]. apply ext_refl.
  - intros [= <-]. eapply ext_trans.
    + apply ext_modify, (node_le_append_child child).
    + apply ext_modify, node_le_set_has_parent.
Qed.

(** ** The scan invariant *)

Lemma scan_inv_initial (E : Env) : scan_inv E initial_state.
Proof. split; intros k n; discriminate. Qed.

Lemma scan_inv_same_nodes (E : Env) (st st' : State) :
  nodes st' = nodes st ->
  (exists evs, trace st' = (trace st ++ evs)%list) ->
  scan_inv E st -> scan_inv E st'.
Proof.
  intros Hn [evs Ht] [Ha Hb]. unfold scan_inv, node_at. rewrite Hn. split.
  - exact Ha.
  - intros k n H V F. destruct (Hb k n H V F) as [M I]. split; [assumption|].
    rewrite Ht. apply in_or_app. now left.
Qed.

Lemma scan_inv_emit (E : Env) (e : event) (st : State) :
  scan_inv E st -> scan_inv E (emit e st).
Proof. apply scan_inv_same_nodes; [reflexivity | now exists [e]]. Qed.

Lemma scan_inv_log (E : Env) (s : string) (st : State) :
  scan_inv E st -> scan_inv E (log E s st).
Proof. unfold log. destruct (verbose E); [apply scan_inv_emit | trivial]. Qed.

Lemma scan_inv_get_node (E : Env) (f : string) (st : State) :
  scan_inv E st -> scan_inv E (get_node f st).
Proof.
  intros [Ha Hb].
  assert (Ht : trace (get_node f st) = trace st).
  { unfold get_node. now destruct (node_at st f). }
  split.
  - intros k n c H Hc. rewrite node_at_get_node in H.
    destruct (node_at st k) as [m|] eqn:Hk.
    + injection H as ->. destruct (Ha k n c Hk Hc) as [nc [H1 H2]].
      exists nc. rewrite node_at_get_node, H1. now split.
    + destruct (String.eqb k f); [|discriminate].
      injection H as <-. destruct Hc.
  - intros k n H V F. rewrite node_at_get_node in H. rewrite Ht.
    destruct (node_at st k) as [m|] eqn:Hk.
    + injection H as ->. now apply Hb.
    + destruct (String.eqb k f); [|discriminate].
      injection H as <-. discriminate.
Qed.

(** The nodes after an [add_child] that adds the edge. *)
Lemma node_at_add_child (parent child : string) (st st' : State) (p : Node) :
  node_at st parent = Some p -> has_child p child = false ->
  add_child parent child st = Some st' ->
  trace st' = trace st /\
  forall k, node_at st' k = option_map (linked parent child k) (node_at st k).
Proof.
  intros Hp Hc. unfold add_child. rewrite Hp, Hc. intros [= <-].
  split; [reflexivity|]. intros k.
  rewrite !node_at_modify. unfold linked.
  destruct (node_at st k) as [n|]; simpl;
    destruct (String.eqb child k), (String.eqb parent k); reflexivity.
Qed.

Lemma linked_flags (parent child k : string) (n : Node) :
  visited (linked parent child k n) = visited n
  /\ missing (linked parent child k n) = missing n
  /\ file (linked parent child k n) = file n.
Proof.
  unfold linked. destruct (String.eqb child k), (String.eqb parent k); simpl; auto.
Qed.

Lemma linked_children (parent child k c : string) (n : Node) :
  In c (children (linked parent child k n)) ->
  In c (children n) \/ (c = child /\ k = parent).
Proof.
  unfold linked. intros H.
  assert (In c (children (if String.eqb parent k then append_child child n else n))) as H'.
  { destruct (String.eqb child k); exact H. }
  clear H. destruct (String.eqb parent k) eqn:Hk.
  - apply String.eqb_eq in Hk. simpl in H'. apply in_app_or in H'.
    destruct H' as [H|[H|[]]]; [now left | right; now split].
  - now left.
Qed.

Lemma linked_has_parent (parent child k : string) (n : Node) :
  has_parent n = true \/ k = child -> has_parent (linked parent child k n) = true.
Proof.
  unfold linked. intros [H| ->].
  - destruct (String.eqb child k), (String.eqb parent k); simpl; auto.
  - rewrite String.eqb_refl. reflexivity.
Qed.

(** [add_child] keeps the invariant when the child is a node of the graph,
    and afterwards the edge is there with the child's [has_parent] set. *)
Lemma add_child_inv (E : Env) (parent child : string) (st st' : State) (c0 : Node) :
  scan_inv E st -> node_at st child = Some c0 ->
  add_child parent child st = Some st' ->
  scan_inv E st'
  /\ (exists p', node_at st' parent = Some p' /\ In child (children p'))
  /\ (exists c', node_at st' child = Some c' /\ has_parent c' = true).
Proof.
  intros [Ha Hb] Hc Hadd.
  destruct (node_at st parent) as [p|] eqn:Hp;
    [| unfold add_child in Hadd; rewrite Hp in Hadd; discriminate].
  destruct (has_child p child) eqn:Hhc.
  - unfold add_child in Hadd. rewrite Hp, Hhc in Hadd. injection Hadd as <-.
    apply existsb_eqb_In in Hhc. split; [now split|]. split.
    + now exists p.
    + destruct (Ha _ _ _ Hp Hhc) as [nc [H1 H2]]. now exists nc.
  - destruct (@node_at_add_child _ _ _ _ _ Hp Hhc Hadd) as [Ht Hk]. split; [split|split].
    + intros k n c H Hin. rewrite Hk in H.
      destruct (node_at st k) as [m|] eqn:Hm; [|discriminate].
      injection H as <-. apply linked_children in Hin.
      destruct Hin as [Hin | [-> ->]].
      * destruct (Ha _ _ _ Hm Hin) as [nc [H1 H2]].
        exists (linked parent child c nc). rewrite Hk, H1. split; [reflexivity|].
        apply linked_has_parent. now left.
      * exists (linked parent child child c0). rewrite Hk, Hc. split; [reflexivity|].
        apply linked_has_parent. now right.
    + intros k n H V F. rewrite Hk in H. rewrite Ht.
      destruct (node_at st k) as [m|] eqn:Hm; [|discriminate].
      injection H as <-. destruct (linked_flags parent child k m) as (Hv & Hmis & _).
      rewrite Hv in V. rewrite Hmis. now apply Hb.
    + exists (linked parent child parent p). rewrite Hk, Hp. split; [reflexivity|].
      unfold linked. rewrite String.eqb_refl.
      assert (In child (children (append_child child p))) as Hin
        by (simpl; apply in_or_app; right; now left).
      destruct (String.eqb child parent); exact Hin.
    + exists (linked parent child child c0). rewrite Hk, Hc. split; [reflexivity|].
      apply linked_has_parent. now right.
Qed.

(** ** The loop over the lines touches the trace only *)

Lemma scan_line_nodes (E : Env) (path dir_path : string) (line_num : nat)
    (line : string) (includes : list string) (st : State) :
  let st' := snd (scan_line E path dir_path line_num line includes st) in
  nodes st' = nodes st /\ exists evs, trace st' = (trace st ++ evs)%list.
Proof.
  unfold scan_line.
  destruct (CPP_INC_PATTERN_match line) as [[[first inc] last]|]; simpl.
  - destruct (mismatched first last); simpl.
    + split; [reflexivity | eexists; reflexivity].
    + destruct (path_split _) as [base_dir inc_file].
      destruct (is_sys_header_path E base_dir); simpl;
        (split; [apply nodes_log | apply (ext_log E)]).
  - split; [reflexivity | exists []; now rewrite app_nil_r].
Qed.

Lemma scan_lines_nodes (E : Env) (path dir_path : string) (lines : list string) :
  forall (line_num : nat) (includes : list string) (st : State),
  let st' := snd (scan_lines E path dir_path lines line_num includes st) in
  nodes st' = nodes st /\ exists evs, trace st' = (trace st ++ evs)%list.
Proof.
  induction lines as [|line rest IH]; intros line_num includes st; simpl.
  - split; [reflexivity | exists []; now rewrite app_nil_r].
  - pose proof (scan_line_nodes E path dir_path line_num line includes
                  (emit (EvLine path line) st)) as H.
    destruct (scan_line E path dir_path line_num line includes
                (emit (EvLine path line) st)) as [includes' st1].
    simpl in H. destruct H as [Hn [e1 Ht]].
    destruct (IH (S line_num) includes' st1) as [Hn2 [e2 Ht2]].
    split.
    + now rewrite Hn2, Hn.
    + exists ([EvLine path line] ++ e1 ++ e2)%list.
      rewrite Ht2, Ht. simpl. now rewrite <- !app_assoc.
Qed.

Lemma ext_same_nodes (st st' : State) :
  nodes st' = nodes st ->
  (exists evs, trace st' = (trace st ++ evs)%list) -> ext st st'.
Proof.
  intros Hn Ht. split; [|assumption].
  intros k n H. exists n. unfold node_at in *. rewrite Hn.
  split; [assumption | apply node_le_refl].
Qed.

(** ** Soundness of the scanner *)

Section LinkIncludes.
Variable E : Env.
Variable scan : string -> State -> option State.
Variable this : string.
Hypothesis scan_sound : forall inc st st',
  scan inc st = Some st' -> ext st st' /\ (scan_inv E st -> scan_inv E st').

Lemma link_includes_sound (includes : list string) :
  forall st st' n0,
  node_at st this = Some n0 ->
  link_includes scan this includes st = Some st' ->
  ext st st'
  /\ (scan_inv E st ->
      scan_inv E st'
      /\ forall b, In b includes ->
           (exists nb, node_at st' b = Some nb /\ In this (children nb))
           /\ (exists na, node_at st' this = Some na /\ has_parent na = true)).
Proof.
  induction includes as [|inc rest IH]; intros st st' n0 Hthis; simpl.
  - intros [= <-]. split; [apply ext_refl|]. intros Hinv.
    split; [assumption | intros b []].
  - destruct (add_child inc this (get_node inc st)) as [st1|] eqn:Hadd;
      [|discriminate].
    destruct (scan inc st1) as [st2|] eqn:Hscan; [|discriminate].
    intros Hrest.
    assert (E01 : ext st st1).
    { eapply ext_trans; [apply ext_get_node | eapply ext_add_child; eassumption]. }
    destruct (scan_sound _ _ _ Hscan) as [E12 I12].
    assert (E02 : ext st st2) by (eapply ext_trans; eassumption).
    destruct (proj1 E02 _ _ Hthis) as [n2 [Hn2 _]].
    destruct (IH _ _ _ Hn2 Hrest) as [E23 I23].
    split; [eapply ext_trans; eassumption|].
    intros Hinv.
    destruct (proj1 (ext_get_node inc st) _ _ Hthis) as [ng [Hng _]].
    destruct (add_child_inv E _ _ _ _ _ (scan_inv_get_node E inc st Hinv) Hng Hadd)
      as (I1 & (p' & Hp' & Hin') & (c' & Hc' & Hhp')).
    destruct (I23 (I12 I1)) as [I3 Hall].
    split; [assumption|].
    intros b [<- | Hb]; [|now apply Hall].
    assert (E13 : ext st1 st') by (eapply ext_trans; eassumption).
    split.
    + destruct (proj1 E13 _ _ Hp') as [nb [Hnb (_ & Hch & _)]].
      exists nb. split; [assumption | now apply Hch].
    + destruct (proj1 E13 _ _ Hc') as [na [Hna (_ & _ & Hpar & _)]].
      exists na. split; [assumption | now apply Hpar].
Qed.
End LinkIncludes.

(** The list [includes] does not depend on the state. *)
Lemma scan_line_includes (E : Env) (path dir_path : string) (line_num : nat)
    (line : string) (includes : list string) (st st' : State) :
  fst (scan_line E path dir_path line_num line includes st) =
  fst (scan_line E path dir_path line_num line includes st').
Proof.
  unfold scan_line.
  destruct (CPP_INC_PATTERN_match line) as [[[first inc] last]|]; simpl; [|reflexivity].
  destruct (mismatched first last); simpl; [reflexivity|].
  destruct (path_split _) as [base_dir inc_file].
  now destruct (is_sys_header_path E base_dir).
Qed.

Lemma scan_lines_includes (E : Env) (path dir_path : string) (lines : list string) :
  forall (line_num : nat) (includes : list string) (st st' : State),
  fst (scan_lines E path dir_path lines line_num includes st) =
  fst (scan_lines E path dir_path lines line_num includes st').
Proof.
  induction lines as [|line rest IH]; intros line_num includes st st'; simpl;
    [reflexivity|].
  pose proof (scan_line_includes E path dir_path line_num line includes
                (emit (EvLine path line) st) (emit (EvLine path line) st')) as H.
  destruct (scan_line E path dir_path line_num line includes
              (emit (EvLine path line) st)) as [i1 s1].
  destruct (scan_line E path dir_path line_num line includes
              (emit (EvLine path line) st')) as [i2 s2].
  simpl in H. subst i2. apply IH.
Qed.

(** One step of [cpp_scan_file] on a file not yet visited. *)
Lemma cpp_scan_file_unfold (E : Env) (fuel : nat) (path : string) (st : State)
    (n : Node) :
  node_at (get_node path st) path = Some n -> visited n = false ->
  isfile (fs E) path = true ->
  cpp_scan_file E (S fuel) path st =
  link_includes (cpp_scan_file E fuel) path (includes_of E path)
    (after_read E path st).
Proof.
  intros Hn Hv Hf. simpl. rewrite Hn, Hv, Hf. simpl.
  unfold includes_of, after_read, read_state.
  destruct (path_split path) as [dir_path filename]. simpl.
  rewrite (scan_lines_includes E path dir_path (read_lines (fs E) path) 1 []
             initial_state
             (emit (EvOpen path)
                (log E ("Scanning " ++ path)
                   (modify path (set_visited true) (get_node path st))))).
  destruct (scan_lines _ _ _ _ _ _ _) as [includes st3]. reflexivity.
Qed.

(** A change of the flags [visited] and [missing] of one node keeps the
    invariant, provided its second clause holds for that node. *)
Lemma scan_inv_flags (E : Env) (k : string) (f : Node -> Node) (st st' : State) :
  scan_inv E st ->
  (forall n, children (f n) = children n /\ has_parent (f n) = has_parent n) ->
  nodes st' = update k f (nodes st) ->
  (exists evs, trace st' = (trace st ++ evs)%list) ->
  (forall n, node_at st k = Some n -> visited (f n) = true ->
     isfile (fs E) k = false ->
     missing (f n) = true /\ In (EvPrint ("ERROR: " ++ missing_msg k)) (trace st')) ->
  scan_inv E st'.
Proof.
  intros [Ha Hb] Hf Hn [evs Ht] Hk.
  assert (Hat : forall q, node_at st' q =
            if String.eqb k q then option_map f (node_at st q) else node_at st q).
  { intros q. unfold node_at. rewrite Hn. apply lookup_update. }
  split.
  - intros q n c H Hc.
    assert (exists m, node_at st q = Some m /\ children n = children m) as [m [Hm Hcm]].
    { rewrite Hat in H. destruct (String.eqb k q).
      - destruct (node_at st q) as [m|]; [|discriminate]. injection H as <-.
        exists m. split; [reflexivity | apply Hf].
      - now exists n. }
    rewrite Hcm in Hc. destruct (Ha _ _ _ Hm Hc) as [nc [H1 H2]].
    rewrite Hat. destruct (String.eqb k c).
    + exists (f nc). rewrite H1. split; [reflexivity|].
      now rewrite (proj2 (Hf nc)).
    + now exists nc.
  - intros q n H V F. rewrite Hat in H.
    destruct (String.eqb k q) eqn:Hkq.
    + apply String.eqb_eq in Hkq; subst q.
      destruct (node_at st k) as [m|] eqn:Hm; [|discriminate]. injection H as <-.
      now apply Hk.
    + destruct (Hb _ _ H V F) as [M I]. split; [assumption|].
      rewrite Ht. apply in_or_app. now left.
Qed.

Lemma update_update (k : string) (f g : Node -> Node) (l : list (string * Node)) :
  update k g (update k f l) = update k (fun n => g (f n)) l.
Proof.
  unfold update. rewrite map_map. apply map_ext. intros [q n]; simpl.
  destruct (String.eqb k q) eqn:H; simpl; now rewrite H.
Qed.

(** [cpp_scan_file] only grows the graph and the trace, and keeps the
    invariant. *)
Lemma cpp_scan_file_sound (E : Env) (fuel : nat) :
  forall path st st',
  cpp_scan_file E fuel path st = Some st' ->
  ext st st' /\ (scan_inv E st -> scan_inv E st').
Proof.
  induction fuel as [|fuel IH]; intros path st st' H; [discriminate|].
  destruct (node_at_get_node_same path st) as [n Hn].
  destruct (visited n) eqn:Hv.
  - simpl in H. rewrite Hn, Hv in H. injection H as <-. split.
    + eapply ext_trans; [apply ext_get_node | apply ext_log].
    + intros I. now apply scan_inv_log, scan_inv_get_node.
  - destruct (isfile (fs E) path) eqn:Hf.
    + rewrite (cpp_scan_file_unfold E fuel path st n Hn Hv Hf) in H.
      pose proof (scan_lines_nodes E path (fst (path_split path))
                    (read_lines (fs E) path) 1 []
                    (emit (EvOpen path)
                       (log E ("Scanning " ++ path)
                          (modify path (set_visited true) (get_node path st)))))
        as [Hnodes [evs Hevs]].
      fold (read_state E path st) in Hnodes, Hevs.
      assert (Hn1 : nodes (after_read E path st)
                    = update path (set_visited true) (nodes (get_node path st))).
      { unfold after_read. simpl. rewrite Hnodes. simpl. now rewrite nodes_log. }
      assert (Ht1 : exists evs1, trace (after_read E path st)
                    = (trace (get_node path st) ++ evs1)%list).
      { destruct (ext_log E ("Scanning " ++ path)
                    (modify path (set_visited true) (get_node path st)))
          as [_ [e0 He0]].
        unfold after_read. rewrite trace_emit, Hevs, trace_emit, He0.
        change (trace (modify path (set_visited true) (get_node path st)))
          with (trace (get_node path st)).
        eexists. rewrite <- !app_assoc. reflexivity. }
      assert (E1 : ext st (after_read E path st)).
      { eapply ext_trans; [apply ext_get_node|].
        destruct Ht1 as [evs1 Ht1]. split.
        - intros q m Hq. unfold node_at. rewrite Hn1, lookup_update.
          fold (node_at (get_node path st) q). rewrite Hq. simpl.
          destruct (String.eqb path q).
          + eexists. split; [reflexivity | apply node_le_set_visited].
          + eexists. split; [reflexivity | apply node_le_refl].
        - now exists evs1. }
      assert (Hthis : exists n1, node_at (after_read E path st) path = Some n1).
      { unfold node_at. rewrite Hn1, lookup_update, String.eqb_refl.
        fold (node_at (get_node path st) path). rewrite Hn. simpl. eauto. }
      destruct Hthis as [n1 Hn1'].
      destruct (link_includes_sound E (cpp_scan_file E fuel) path IH
                  (includes_of E path) _ _ _ Hn1' H) as [E2 I2].
      split; [eapply ext_trans; eassumption|].
      intros I. apply I2.
      apply (scan_inv_flags E path (set_visited true) (get_node path st));
        [ now apply scan_inv_get_node | intros m; now split | assumption
        | assumption | congruence ].
    + simpl in H. rewrite Hn, Hv, Hf in H. simpl in H. injection H as <-. split.
      * eapply ext_trans; [apply ext_get_node|].
        eapply ext_trans; [apply ext_modify, node_le_set_visited|].
        eapply ext_trans; [apply ext_modify, node_le_set_missing|].
        apply ext_emit.
      * intros I.
        apply (scan_inv_flags E path (fun m => set_missing true (set_visited true m))
                 (get_node path st)).
        -- now apply scan_inv_get_node.
        -- intros m; now split.
        -- simpl. apply update_update.
        -- simpl. eexists; reflexivity.
        -- intros m _ _ _. split; [reflexivity|].
           simpl. apply in_or_app. right. now left.
Qed.

(** ** Termination of the scanner *)

Lemma filter_length_le {A : Type} (f g : A -> bool) (l : list A) :
  (forall x, In x l -> g x = true -> f x = true) ->
  length (filter g l) <= length (filter f l).
Proof.
  induction l as [|a l IH]; intros H; simpl; [lia|].
  assert (IH' : length (filter g l) <= length (filter f l)).
  { apply IH. intros x Hx. apply H. now right. }
  destruct (g a) eqn:Hg.
  - rewrite (H a (or_introl eq_refl) Hg). simpl. lia.
  - destruct (f a); simpl; lia.
Qed.

Lemma filter_length_lt {A : Type} (f g : A -> bool) (l : list A) (x : A) :
  (forall y, In y l -> g y = true -> f y = true) ->
  In x l -> f x = true -> g x = false ->
  length (filter g l) < length (filter f l).
Proof.
  induction l as [|a l IH]; intros H Hx Hf Hg; simpl; [destruct Hx|].
  assert (Hle : length (filter g l) <= length (filter f l)).
  { apply filter_length_le. intros y Hy. apply H. now right. }
  destruct Hx as [-> | Hx].
  - rewrite Hf, Hg. simpl. lia.
  - assert (IH' : length (filter g l) < length (filter f l)).
    { apply IH; auto. intros y Hy. apply H. now right. }
    destruct (g a) eqn:Hga.
    + rewrite (H a (or_introl eq_refl) Hga). simpl. lia.
    + destruct (f a); simpl; lia.
Qed.

Lemma ext_is_visited (st st' : State) (k : string) :
  ext st st' -> is_visited st k = true -> is_visited st' k = true.
Proof.
  intros [H _]. unfold is_visited.
  destruct (node_at st k) as [n|] eqn:Hn; [|discriminate].
  destruct (H _ _ Hn) as [n' [-> (_ & _ & _ & V & _)]]. exact V.
Qed.

Lemma ext_unvisited_le (files : list string) (st st' : State) :
  ext st st' -> unvisited_files files st' <= unvisited_files files st.
Proof.
  intros He. apply filter_length_le. intros p _ H.
  destruct (is_visited st p) eqn:Hv; [|reflexivity].
  now rewrite (ext_is_visited st st' p He Hv) in H.
Qed.

Lemma ext_unvisited_lt (files : list string) (st st' : State) (p : string) :
  ext st st' -> In p files -> is_visited st p = false -> is_visited st' p = true ->
  unvisited_files files st' < unvisited_files files st.
Proof.
  intros He Hin H0 H1. apply filter_length_lt with (x := p); auto.
  - intros q _ H. destruct (is_visited st q) eqn:Hv; [|reflexivity].
    now rewrite (ext_is_visited st st' q He Hv) in H.
  - now rewrite H0.
  - now rewrite H1.
Qed.

Lemma add_child_get_node_total (inc this : string) (st : State) :
  exists st1, add_child inc this (get_node inc st) = Some st1.
Proof.
  unfold add_child. destruct (node_at_get_node_same inc st) as [n ->].
  destruct (has_child n this); eauto.
Qed.

Lemma link_includes_total (E : Env) (files : list string) (fuel : nat)
    (scan : string -> State -> option State) (this : string) :
  (forall inc st st', scan inc st = Some st' -> ext st st') ->
  (forall inc st, unvisited_files files st < fuel -> exists st', scan inc st = Some st') ->
  forall includes st, unvisited_files files st < fuel ->
  exists st', link_includes scan this includes st = Some st'.
Proof.
  intros Hs Ht. induction includes as [|inc rest IH]; intros st Hm; simpl; [eauto|].
  destruct (add_child_get_node_total inc this st) as [st1 H1]. rewrite H1.
  assert (E1 : ext st st1).
  { eapply ext_trans; [apply ext_get_node | eapply ext_add_child; eassumption]. }
  pose proof (ext_unvisited_le files st st1 E1) as L1.
  destruct (Ht inc st1) as [st2 H2]; [lia|]. rewrite H2.
  apply IH. pose proof (ext_unvisited_le files st1 st2 (Hs _ _ _ H2)). lia.
Qed.

Lemma after_read_ext (E : Env) (path : string) (st : State) :
  ext st (after_read E path st) /\ is_visited (after_read E path st) path = true.
Proof.
  pose proof (scan_lines_nodes E path (fst (path_split path))
                (read_lines (fs E) path) 1 []
                (emit (EvOpen path)
                   (log E ("Scanning " ++ path)
                      (modify path (set_visited true) (get_node path st)))))
    as [Hnodes Hevs].
  fold (read_state E path st) in Hnodes, Hevs.
  set (s0 := emit (EvOpen path)
               (log E ("Scanning " ++ path)
                  (modify path (set_visited true) (get_node path st)))) in *.
  assert (E0 : ext st s0).
  { eapply ext_trans; [apply ext_get_node|].
    eapply ext_trans; [apply ext_modify, node_le_set_visited|].
    eapply ext_trans; [apply ext_log | apply ext_emit]. }
  assert (V0 : is_visited s0 path = true).
  { unfold is_visited, s0. rewrite node_at_emit, node_at_log, node_at_modify.
    rewrite String.eqb_refl.
    destruct (node_at_get_node_same path st) as [n ->]. reflexivity. }
  assert (E1 : ext s0 (after_read E path st)).
  { unfold after_read. eapply ext_trans; [|apply ext_emit].
    now apply ext_same_nodes. }
  split; [eapply ext_trans; eassumption | eapply ext_is_visited; eassumption].
Qed.

(** With fuel above the number of unvisited files the scan returns. *)
Lemma cpp_scan_file_total (E : Env) (files : list string) :
  fs_listed E files ->
  forall fuel path st, unvisited_files files st < fuel ->
  exists st', cpp_scan_file E fuel path st = Some st'.
Proof.
  intros Hfin. induction fuel as [|fuel IH]; intros path st Hm; [lia|].
  destruct (node_at_get_node_same path st) as [n Hn].
  destruct (visited n) eqn:Hv.
  - simpl. rewrite Hn, Hv. eauto.
  - destruct (isfile (fs E) path) eqn:Hf.
    + rewrite (cpp_scan_file_unfold E fuel path st n Hn Hv Hf).
      destruct (after_read_ext E path st) as [E1 V1].
      apply link_includes_total with (E := E) (files := files) (fuel := fuel).
      * intros inc s s' H. now apply (cpp_scan_file_sound E fuel inc s s').
      * intros inc s Hs. now apply IH.
      * assert (is_visited st path = false) as V0.
        { unfold is_visited. rewrite node_at_get_node in Hn.
          destruct (node_at st path) as [m|]; [|reflexivity]. congruence. }
        pose proof (ext_unvisited_lt files st _ path E1 (Hfin _ Hf) V0 V1). lia.
    + simpl. rewrite Hn, Hv, Hf. simpl. eauto.
Qed.

(** ** The list of includes of a file *)

Lemma scan_line_fst (E : Env) (path : string) (line_num : nat) (line : string)
    (includes : list string) (st : State) :
  fst (scan_line E path (fst (path_split path)) line_num line includes st)
  = (includes ++ line_includes E path line)%list.
Proof.
  unfold scan_line, line_includes, include_directive.
  destruct (CPP_INC_PATTERN_match line) as [[[first inc] last]|]; simpl;
    [|now rewrite app_nil_r].
  destruct (mismatched first last); simpl; [now rewrite app_nil_r|].
  destruct (path_split (resolve_path E (fst (path_split path)) inc
                          (Ascii.eqb first dquote))) as [base_dir inc_file].
  simpl. destruct (is_sys_header_path E base_dir); simpl;
    [now rewrite app_nil_r | reflexivity].
Qed.

Lemma scan_lines_fst (E : Env) (path : string) (lines : list string) :
  forall (line_num : nat) (includes : list string) (st : State),
  fst (scan_lines E path (fst (path_split path)) lines line_num includes st)
  = (includes ++ flat_map (line_includes E path) lines)%list.
Proof.
  induction lines as [|line rest IH]; intros line_num includes st; simpl.
  - now rewrite app_nil_r.
  - pose proof (scan_line_fst E path line_num line includes
                  (emit (EvLine path line) st)) as H.
    destruct (scan_line E path (fst (path_split path)) line_num line includes
                (emit (EvLine path line) st)) as [includes' st1].
    simpl in H. subst includes'. rewrite IH. now rewrite <- app_assoc.
Qed.

Lemma includes_of_flat_map (E : Env) (path : string) :
  includes_of E path = flat_map (line_includes E path) (read_lines (fs E) path).
Proof. unfold includes_of. now rewrite scan_lines_fst. Qed.

Lemma resolves_to_included (E : Env) (A B : string) :
  resolves_to E A B -> is_sys_header_path E (fst (path_split B)) = false ->
  In B (includes_of E A).
Proof.
  intros [line [Hin Hd]] Hsys. rewrite includes_of_flat_map.
  apply in_flat_map. exists line. split; [assumption|].
  unfold line_includes. rewrite Hd, Hsys. now left.
Qed.

Lemma not_visited_get_node (path : string) (st : State) :
  is_visited st path = false ->
  exists n, node_at (get_node path st) path = Some n /\ visited n = false.
Proof.
  unfold is_visited. intros H. rewrite node_at_get_node, String.eqb_refl.
  destruct (node_at st path) as [m|]; eauto.
Qed.

(** The edges that scanning a file not yet visited adds for its includes. *)
Lemma cpp_scan_file_edges (E : Env) (fuel : nat) (A : string) (st st' : State) :
  scan_inv E st -> isfile (fs E) A = true -> is_visited st A = false ->
  cpp_scan_file E fuel A st = Some st' ->
  forall B, In B (includes_of E A) ->
  has_edge st' B A /\ flagged has_parent st' A.
Proof.
  intros I Hf Hv H B HB.
  destruct fuel as [|fuel]; [discriminate|].
  destruct (not_visited_get_node A st Hv) as [n [Hn Hvn]].
  rewrite (cpp_scan_file_unfold E fuel A st n Hn Hvn Hf) in H.
  destruct (after_read_ext E A st) as [E1 V1].
  assert (exists n1, node_at (after_read E A st) A = Some n1) as [n1 Hn1].
  { unfold is_visited in V1. destruct (node_at (after_read E A st) A); eauto.
    discriminate. }
  assert (I1 : scan_inv E (after_read E A st)).
  { pose proof (scan_lines_nodes E A (fst (path_split A))
                  (read_lines (fs E) A) 1 []
                  (emit (EvOpen A)
                     (log E ("Scanning " ++ A)
                        (modify A (set_visited true) (get_node A st)))))
      as [Hnodes Hevs].
    fold (read_state E A st) in Hnodes, Hevs.
    apply (scan_inv_flags E A (set_visited true) (get_node A st)).
    - now apply scan_inv_get_node.
    - intros m; now split.
    - unfold after_read. simpl. rewrite Hnodes. simpl. now rewrite nodes_log.
    - destruct (proj2 E1) as [evs1 Hevs1].
      assert (trace (get_node A st) = trace st) as ->; [|eauto].
      unfold get_node. now destruct (node_at st A).
    - congruence. }
  destruct (link_includes_sound E (cpp_scan_file E fuel) A
              (cpp_scan_file_sound E fuel) (includes_of E A) _ _ _ Hn1 H)
    as [_ I2].
  destruct (I2 I1) as [_ Hall]. exact (Hall B HB).
Qed.

Lemma fs_of_listed (files : list (string * list string)) (v : bool)
    (search sys : list string) :
  fs_listed (mkEnv (fs_of files) v search sys) (map fst files).
Proof.
  intros p. simpl. induction files as [|[q ls] rest IH]; simpl; [discriminate|].
  destruct (String.eqb p q) eqn:Hpq.
  - apply String.eqb_eq in Hpq. intros _. now left.
  - intros H. right. now apply IH.
Qed.

(** * The claims *)

(** C1 (amended). For all files A and B where a line of the text of A is
    matched by the pattern from its first character, with delimiters that
    are not mismatched, and its spelling resolves to B ([resolves_to]), and
    where no system header path is a prefix of the text of the directory of
    B (the test of [is_sys_header_path], which a directory such as
    [/usr/include2] fails to pass when [/usr/include] is registered): on a
    file system with finitely many files and in a state that satisfies the
    invariant of the scanner, scanning A, an existing file not yet visited,
    returns, and in the state it returns the node of B has the node of A
    among its children and the node of A has [has_parent] set. *)
Theorem include_adds_edge (E : Env) (files : list string) (A B : string)
    (st : State) :
  fs_listed E files -> scan_inv E st ->
  isfile (fs E) A = true -> is_visited st A = false ->
  resolves_to E A B ->
  is_sys_header_path E (fst (path_split B)) = false ->
  (exists st', cpp_scan_file E (S (unvisited_files files st)) A st = Some st')
  /\ (forall fuel st', cpp_scan_file E fuel A st = Some st' ->
        has_edge st' B A /\ flagged has_parent st' A).
Proof.
  intros Hfin I Hf Hv Hres Hsys. split.
  - apply (cpp_scan_file_total E files Hfin). lia.
  - intros fuel st' H.
    apply (cpp_scan_file_edges E fuel A st st' I Hf Hv H).
    now apply resolves_to_included.
Qed.

Lemma include_adds_edge_witness :
  (exists st', cpp_scan_file E_demo
                 (S (unvisited_files (map fst demo_files) initial_state))
                 "main.cpp" initial_state = Some st')
  /\ (forall fuel st', cpp_scan_file E_demo fuel "main.cpp" initial_state = Some st' ->
        has_edge st' "util.h" "main.cpp" /\ flagged has_parent st' "main.cpp").
Proof.
  apply (include_adds_edge E_demo (map fst demo_files) "main.cpp" "util.h"
           initial_state).
  - apply fs_of_listed.
  - apply scan_inv_initial.
  - reflexivity.
  - reflexivity.
  - exists (include_quoted "util.h"). split; [now left | reflexivity].
  - reflexivity.
Defined.

(** C1 as stated fails: [a.c] contains an include directive that resolves to
    the file [/usr/include/b.h], whose directory starts with a system header
    path; the scan of [a.c] creates no node for it and leaves [has_parent] of
    [a.c] unset. *)
Lemma include_adds_edge_counterexample :
  scan_inv E_sys initial_state
  /\ isfile (fs E_sys) "a.c" = true
  /\ isfile (fs E_sys) "/usr/include/b.h" = true
  /\ is_visited initial_state "a.c" = false
  /\ resolves_to E_sys "a.c" "/usr/include/b.h"
  /\ exists st', cpp_scan_file E_sys 2 "a.c" initial_state = Some st'
       /\ ~ has_edge st' "/usr/include/b.h" "a.c"
       /\ ~ flagged has_parent st' "a.c".
Proof.
  split; [apply scan_inv_initial|].
  repeat (split; [reflexivity|]).
  split.
  - exists (include_angle "b.h"). split; [now left | reflexivity].
  - eexists. split; [reflexivity|]. split.
    + intros [n [H _]]. discriminate.
    + intros [n [H Hp]]. vm_compute in H. injection H as <-. discriminate.
Qed.

(** The two early returns of [cpp_scan_file]. *)
Lemma cpp_scan_file_seen (E : Env) (fuel : nat) (path : string) (st : State)
    (n : Node) :
  node_at (get_node path st) path = Some n -> visited n = true ->
  cpp_scan_file E (S fuel) path st
  = Some (log E ("Ignoring scanned file: " ++ path) (get_node path st)).
Proof. intros Hn Hv. simpl. now rewrite Hn, Hv. Qed.

Lemma cpp_scan_file_missing (E : Env) (fuel : nat) (path : string) (st : State)
    (n : Node) :
  node_at (get_node path st) path = Some n -> visited n = false ->
  isfile (fs E) path = false ->
  cpp_scan_file E (S fuel) path st
  = Some (error (missing_msg path)
            (modify path (set_missing true)
               (modify path (set_visited true) (get_node path st)))).
Proof. intros Hn Hv Hf. simpl. now rewrite Hn, Hv, Hf. Qed.

(** After its scan the node of the path is marked visited. *)
Lemma cpp_scan_file_visited (E : Env) (fuel : nat) (path : string) (st st' : State) :
  cpp_scan_file E fuel path st = Some st' -> is_visited st' path = true.
Proof.
  intros H. destruct fuel as [|fuel]; [discriminate|].
  destruct (node_at_get_node_same path st) as [n Hn].
  destruct (visited n) eqn:Hv.
  - rewrite (cpp_scan_file_seen E fuel path st n Hn Hv) in H. injection H as <-.
    unfold is_visited. now rewrite node_at_log, Hn.
  - destruct (isfile (fs E) path) eqn:Hf.
    + rewrite (cpp_scan_file_unfold E fuel path st n Hn Hv Hf) in H.
      destruct (after_read_ext E path st) as [_ V1].
      assert (exists n1, node_at (after_read E path st) path = Some n1) as [n1 Hn1].
      { unfold is_visited in V1. destruct (node_at (after_read E path st) path); eauto.
        discriminate. }
      destruct (link_includes_sound E (cpp_scan_file E fuel) path
                  (cpp_scan_file_sound E fuel) (includes_of E path) _ _ _ Hn1 H)
        as [E2 _].
      eapply ext_is_visited; eassumption.
    + rewrite (cpp_scan_file_missing E fuel path st n Hn Hv Hf) in H.
      injection H as <-.
      unfold is_visited, error, print.
      rewrite node_at_emit, !node_at_modify, String.eqb_refl, Hn.
      reflexivity.
Qed.

Lemma only_prints_log (E : Env) (s : string) (st : State) :
  only_prints st (log E s st).
Proof.
  unfold log, only_prints. destruct (verbose E); simpl.
  - repeat split. now exists [s].
  - repeat split. exists []. now rewrite app_nil_r.
Qed.

Lemma linked_children_eq (parent child k : string) (n : Node) :
  children (linked parent child k n)
  = if String.eqb parent k then (children n ++ [child])%list else children n.
Proof.
  unfold linked. destruct (String.eqb child k), (String.eqb parent k); reflexivity.
Qed.

Lemma NoDup_snoc {A : Type} (l : list A) (x : A) :
  NoDup l -> ~ In x l -> NoDup (l ++ [x]).
Proof.
  induction l as [|a l IH]; intros Hnd Hx; simpl.
  - constructor; [intros [] | constructor].
  - inversion Hnd as [|? ? Ha Hl]; subst. constructor.
    + intros Hin. apply in_app_or in Hin. destruct Hin as [Hin|[->|[]]].
      * now apply Ha.
      * apply Hx. now left.
    + apply IH; [assumption|]. intros Hin. apply Hx. now right.
Qed.

(** [add_child] never lists a child twice. *)
Lemma add_child_NoDup (parent child : string) (s s' : State) :
  add_child parent child s = Some s' ->
  (forall k n, node_at s k = Some n -> NoDup (children n)) ->
  forall k n, node_at s' k = Some n -> NoDup (children n).
Proof.
  intros Hadd Hnd k n Hk.
  destruct (node_at s parent) as [p|] eqn:Hp;
    [| unfold add_child in Hadd; rewrite Hp in Hadd; discriminate].
  destruct (has_child p child) eqn:Hhc.
  - unfold add_child in Hadd. rewrite Hp, Hhc in Hadd. injection Hadd as <-.
    now apply (Hnd k).
  - destruct (node_at_add_child parent child s s' p Hp Hhc Hadd) as [_ Hat].
    rewrite Hat in Hk. destruct (node_at s k) as [m|] eqn:Hm; [|discriminate].
    injection Hk as <-. rewrite linked_children_eq.
    destruct (String.eqb parent k) eqn:Hpk; [|now apply (Hnd k)].
    apply String.eqb_eq in Hpk; subst k.
    assert (m = p) as -> by congruence.
    apply NoDup_snoc; [now apply (Hnd parent)|].
    intros Hin. apply existsb_eqb_In in Hin.
    unfold has_child in Hhc. congruence.
Qed.

(** C2. Scanning is idempotent: once [cpp_scan_file] has returned for a path
    its node is marked visited, in that state and in every later one; and on
    every state in which the node is marked visited, so on every second call,
    also one made while the first is still running, [cpp_scan_file] returns
    at once, leaves the nodes and their edges as they are and adds to the
    trace at most the line that [log] prints, so no line of the file is read
    again.  [add_child] with a child already in the children list leaves the
    state, and so the list, as it is; and no call of [add_child] makes a
    children list hold a key twice. *)
Theorem scan_idempotent (E : Env) (fuel : nat) (path : string) (st st' : State) :
  cpp_scan_file E fuel path st = Some st' ->
  (forall s, ext st' s -> is_visited s path = true)
  /\ (forall s fuel2, is_visited s path = true ->
        cpp_scan_file E (S fuel2) path s
        = Some (log E ("Ignoring scanned file: " ++ path) s)
        /\ only_prints s (log E ("Ignoring scanned file: " ++ path) s))
  /\ (forall s parent child n,
        node_at s parent = Some n -> In child (children n) ->
        add_child parent child s = Some s)
  /\ (forall s s' parent child,
        add_child parent child s = Some s' ->
        (forall k n, node_at s k = Some n -> NoDup (children n)) ->
        forall k n, node_at s' k = Some n -> NoDup (children n)).
Proof.
  intros H. split; [|split; [|split]].
  - intros s Hs. apply (ext_is_visited st' s path Hs).
    exact (cpp_scan_file_visited E fuel path st st' H).
  - intros s fuel2 V. split; [|apply only_prints_log].
    unfold is_visited in V.
    destruct (node_at s path) as [n|] eqn:Hn; [|discriminate].
    simpl. unfold get_node. rewrite Hn, Hn, V. reflexivity.
  - intros s parent child n Hn Hin. unfold add_child. rewrite Hn.
    apply existsb_eqb_In in Hin. unfold has_child. now rewrite Hin.
  - intros s s' parent child. apply add_child_NoDup.
Qed.

Lemma scan_idempotent_witness :
  cpp_scan_file E_demo 1 "main.cpp" demo_scanned
  = Some (log E_demo ("Ignoring scanned file: " ++ "main.cpp") demo_scanned)
  /\ only_prints demo_scanned
       (log E_demo ("Ignoring scanned file: " ++ "main.cpp") demo_scanned).
Proof.
  refine (proj1 (proj2 (scan_idempotent E_demo 4 "main.cpp" initial_state
                          demo_scanned _))
            demo_scanned 0 _).
  - vm_compute. reflexivity.
  - apply (proj1 (scan_idempotent E_demo 4 "main.cpp" initial_state
                    demo_scanned eq_refl)).
    apply ext_refl.
Defined.

(** C8. For every path that is not a file when [cpp_scan_file] is called on
    it: the call returns; afterwards the node is marked visited and missing
    and the diagnostic is in the trace, appended by this very call when the
    node had not been visited before; the call adds printed lines only to the
    trace, so no content is read; and it adds no edge and raises no
    [has_parent] flag. *)
Theorem missing_file_marked (E : Env) (fuel : nat) (path : string) (st : State) :
  scan_inv E st -> isfile (fs E) path = false ->
  exists st',
    cpp_scan_file E (S fuel) path st = Some st'
    /\ flagged visited st' path /\ flagged missing st' path
    /\ In (EvPrint ("ERROR: " ++ missing_msg path)) (trace st')
    /\ (is_visited st path = false ->
        trace st' = (trace st ++ [EvPrint ("ERROR: " ++ missing_msg path)])%list)
    /\ (exists lines, trace st' = (trace st ++ map EvPrint lines)%list)
    /\ (forall k c, has_edge st' k c -> has_edge st k c)
    /\ (forall k, flagged has_parent st' k -> flagged has_parent st k).
Proof.
  intros [Ha Hb] Hf.
  destruct (node_at_get_node_same path st) as [n Hn].
  destruct (visited n) eqn:Hv.
  - (* the node is there and was visited before *)
    assert (Hst : node_at st path = Some n).
    { rewrite node_at_get_node, String.eqb_refl in Hn.
      destruct (node_at st path) as [m|]; [assumption|].
      injection Hn as <-. discriminate. }
    assert (Hg : get_node path st = st) by (unfold get_node; now rewrite Hst).
    destruct (Hb path n Hst Hv Hf) as [Hm Hin].
    destruct (only_prints_log E ("Ignoring scanned file: " ++ path) st)
      as (Hnodes & _ & _ & lines & Ht).
    exists (log E ("Ignoring scanned file: " ++ path) st).
    rewrite (cpp_scan_file_seen E fuel path st n Hn Hv), Hg.
    unfold flagged, has_edge. setoid_rewrite node_at_log.
    split; [reflexivity|]. split; [eauto|]. split; [eauto|].
    split; [rewrite Ht; apply in_or_app; now left|].
    split; [unfold is_visited; rewrite Hst, Hv; discriminate|].
    split; [eauto|]. split; auto.
  - (* first visit *)
    exists (error (missing_msg path)
              (modify path (set_missing true)
                 (modify path (set_visited true) (get_node path st)))).
    rewrite (cpp_scan_file_missing E fuel path st n Hn Hv Hf).
    assert (Ht : trace (get_node path st) = trace st).
    { unfold get_node. now destruct (node_at st path). }
    assert (Hat : forall k, node_at
              (error (missing_msg path)
                 (modify path (set_missing true)
                    (modify path (set_visited true) (get_node path st)))) k
            = if String.eqb path k
              then option_map (fun m => set_missing true (set_visited true m))
                     (node_at (get_node path st) k)
              else node_at (get_node path st) k).
    { intros k. unfold error, print. rewrite node_at_emit, !node_at_modify.
      destruct (String.eqb path k); [|reflexivity].
      now destruct (node_at (get_node path st) k). }
    assert (Hold : forall k n', node_at
              (error (missing_msg path)
                 (modify path (set_missing true)
                    (modify path (set_visited true) (get_node path st)))) k
              = Some n' ->
            (exists m, node_at st k = Some m /\ children n' = children m
                       /\ has_parent n' = has_parent m)
            \/ (children n' = [] /\ has_parent n' = false)).
    { intros k n' H. rewrite Hat, node_at_get_node in H.
      destruct (node_at st k) as [m|] eqn:Hm.
      - left. exists m. split; [reflexivity|].
        destruct (String.eqb path k); simpl in H; injection H as <-; now split.
      - right. destruct (String.eqb k path); simpl in H;
          destruct (String.eqb path k); simpl in H; try discriminate;
          injection H as <-; now split. }
    split; [reflexivity|].
    split; [exists (set_missing true (set_visited true n));
            rewrite Hat, String.eqb_refl, Hn; now split|].
    split; [exists (set_missing true (set_visited true n));
            rewrite Hat, String.eqb_refl, Hn; now split|].
    split; [simpl; apply in_or_app; right; now left|].
    split; [intros _; simpl; now rewrite Ht|].
    split; [exists ["ERROR: " ++ missing_msg path]; simpl; now rewrite Ht|].
    split.
    + intros k c [n' [H Hc]].
      destruct (Hold k n' H) as [[m (Hm & Hch & _)] | [Hch _]].
      * exists m. split; [assumption | now rewrite <- Hch].
      * rewrite Hch in Hc. destruct Hc.
    + intros k [n' [H Hp]].
      destruct (Hold k n' H) as [[m (Hm & _ & Hhp)] | [_ Hhp]].
      * exists m. split; [assumption | now rewrite <- Hhp].
      * congruence.
Qed.

Lemma missing_file_marked_witness :
  exists st',
    cpp_scan_file E_missing 1 "b.h" initial_state = Some st'
    /\ flagged visited st' "b.h" /\ flagged missing st' "b.h"
    /\ In (EvPrint ("ERROR: " ++ missing_msg "b.h")) (trace st')
    /\ (is_visited initial_state "b.h" = false ->
        trace st' = (trace initial_state
                       ++ [EvPrint ("ERROR: " ++ missing_msg "b.h")])%list)
    /\ (exists lines, trace st' = (trace initial_state ++ map EvPrint lines)%list)
    /\ (forall k c, has_edge st' k c -> has_edge initial_state k c)
    /\ (forall k, flagged has_parent st' k -> flagged has_parent initial_state k).
Proof.
  apply (missing_file_marked E_missing 0 "b.h" initial_state).
  - apply scan_inv_initial.
  - reflexivity.
Defined.

(** ** Malformed directives *)

Lemma string_app_assoc (a b c : string) : (a ++ b) ++ c = a ++ (b ++ c).
Proof. induction a as [|x a IH]; simpl; [reflexivity | now rewrite IH]. Qed.

Lemma invalid_directive_msg_contains (path : string) (line_num : nat) (line : string) :
  contains (invalid_directive_msg path line_num line) path
  /\ contains (invalid_directive_msg path line_num line) (str line_num).
Proof.
  unfold invalid_directive_msg, contains. split.
  - exists EmptyString. eexists. simpl. reflexivity.
  - exists (path ++ ": Invalid #include directive at line ").
    exists (": " ++ strip line). now rewrite string_app_assoc.
Qed.

Lemma scan_lines_app (E : Env) (path dir_path : string) (pre post : list string) :
  forall line_num includes st,
  scan_lines E path dir_path (pre ++ post) line_num includes st
  = scan_lines E path dir_path post (line_num + length pre)
      (fst (scan_lines E path dir_path pre line_num includes st))
      (snd (scan_lines E path dir_path pre line_num includes st)).
Proof.
  induction pre as [|l pre IH]; intros line_num includes st; simpl.
  - now rewrite Nat.add_0_r.
  - destruct (scan_line E path dir_path line_num l includes
                (emit (EvLine path l) st)) as [i1 s1].
    rewrite IH. now rewrite Nat.add_succ_r.
Qed.

Lemma scan_line_mismatched (E : Env) (path dir_path : string) (line_num : nat)
    (line : string) (first last : ascii) (inc : string)
    (includes : list string) (st : State) :
  CPP_INC_PATTERN_match line = Some (first, inc, last) ->
  mismatched first last = true ->
  scan_line E path dir_path line_num line includes st
  = (includes, error (invalid_directive_msg path line_num line) st).
Proof. intros Hm Hmis. unfold scan_line. now rewrite Hm, Hmis. Qed.

(** C7 (amended). For every line that the pattern matches from its first
    character, that is [#] first, then spaces, [include], spaces, an
    opening delimiter, a spelling without closing delimiter and a closing
    delimiter, with mismatched delimiters: the body of the loop prints the
    diagnostic [ERROR: ] followed by the path of the file, the number of the
    line and the stripped line, leaves the list of includes and the nodes as
    they are, and the loop goes on with the next line; in a whole file, the
    diagnostic of such a line carries its position, the includes are those
    of the other lines and no node is touched.  A line that the pattern
    does not match, whatever it looks like, is passed over in silence. *)
Theorem mismatched_directive_skipped (E : Env) (path dir_path : string)
    (line_num : nat) (line : string) (first last : ascii) (inc : string)
    (includes : list string) (st : State) :
  CPP_INC_PATTERN_match line = Some (first, inc, last) ->
  mismatched first last = true ->
  scan_line E path dir_path line_num line includes st
    = (includes, error (invalid_directive_msg path line_num line) st)
  /\ contains (invalid_directive_msg path line_num line) path
  /\ contains (invalid_directive_msg path line_num line) (str line_num)
  /\ line_includes E path line = []
  /\ nodes (error (invalid_directive_msg path line_num line) st) = nodes st
  /\ (forall rest,
        scan_lines E path dir_path (line :: rest) line_num includes st
        = scan_lines E path dir_path rest (S line_num) includes
            (error (invalid_directive_msg path line_num line)
               (emit (EvLine path line) st)))
  /\ (forall pre post st0,
        let r := scan_lines E path (fst (path_split path)) (pre ++ line :: post)
                   1 [] st0 in
        In (EvPrint ("ERROR: " ++ invalid_directive_msg path (S (length pre)) line))
           (trace (snd r))
        /\ fst r = (flat_map (line_includes E path) pre
                    ++ flat_map (line_includes E path) post)%list
        /\ nodes (snd r) = nodes st0)
  /\ (forall other num incs st0,
        CPP_INC_PATTERN_match other = None ->
        scan_line E path dir_path num other incs st0 = (incs, st0)).
Proof.
  intros Hm Hmis.
  destruct (invalid_directive_msg_contains path line_num line) as [C1 C2].
  assert (Hli : line_includes E path line = []).
  { unfold line_includes, include_directive. now rewrite Hm, Hmis. }
  assert (Hnone : forall other num incs st0,
            CPP_INC_PATTERN_match other = None ->
            scan_line E path dir_path num other incs st0 = (incs, st0)).
  { intros other num incs st0 Hn. unfold scan_line. now rewrite Hn. }
  repeat split; try assumption.
  - now apply scan_line_mismatched with (first := first) (last := last) (inc := inc).
  - intros rest. simpl.
    now rewrite (scan_line_mismatched E path dir_path line_num line first last inc
                   includes (emit (EvLine path line) st) Hm Hmis).
  - rewrite scan_lines_app. simpl.
    rewrite (scan_line_mismatched E path (fst (path_split path)) (S (length pre))
               line first last inc _ _ Hm Hmis).
    match goal with
    | |- In _ (trace (snd (scan_lines ?E ?p ?d ?ls ?n ?i ?s))) =>
        destruct (scan_lines_nodes E p d ls n i s) as [_ [evs ->]]
    end.
    apply in_or_app. left. simpl. apply in_or_app. right. now left.
  - rewrite scan_lines_fst, flat_map_app. simpl. now rewrite Hli.
  - now destruct (scan_lines_nodes E path (fst (path_split path))
                    (pre ++ line :: post) 1 [] st0) as [-> _].
Qed.

Lemma mismatched_directive_skipped_witness :
  scan_line E_bad "x.cpp" EmptyString 5 bad_line ["ok.h"] initial_state
  = (["ok.h"], error (invalid_directive_msg "x.cpp" 5 bad_line) initial_state).
Proof.
  exact (proj1 (mismatched_directive_skipped E_bad "x.cpp" EmptyString 5 bad_line
                  "<" dquote "foo.h" ["ok.h"] initial_state eq_refl eq_refl)).
Defined.

(** C7 as stated fails: the two lines of [x.cpp] are the directive
    [#include <foo.h] closed by a double quote, whose delimiters are
    mismatched, once with two blanks before the [#] and once with a tab
    after it.  The pattern, anchored at the first character of the line and
    allowing only spaces, matches neither, and the scan of the file reads
    both lines and prints nothing: no diagnostic is emitted. *)
Lemma unmatched_directive_counterexample :
  CPP_INC_PATTERN_match bad_line = Some ("<"%char, "foo.h", dquote)
  /\ mismatched "<" dquote = true
  /\ indented_bad_line = "  " ++ bad_line
  /\ isfile (fs E_indent) "x.cpp" = true
  /\ read_lines (fs E_indent) "x.cpp" = [indented_bad_line; tabbed_bad_line]
  /\ CPP_INC_PATTERN_match indented_bad_line = None
  /\ CPP_INC_PATTERN_match tabbed_bad_line = None
  /\ exists st',
       cpp_scan_file E_indent 1 "x.cpp" initial_state = Some st'
       /\ trace st' = [EvOpen "x.cpp"; EvLine "x.cpp" indented_bad_line;
                       EvLine "x.cpp" tabbed_bad_line; EvClose "x.cpp"].
Proof.
  repeat (split; [reflexivity|]).
  eexists. split; reflexivity.
Qed.

(** ** Path resolution *)

Lemma search_loop_first (F : FileSystem) (inc : string) (pre : list string) :
  forall sp post,
  (forall q, In q pre -> isfile F (path_join q inc) = false) ->
  isfile F (path_join sp inc) = true ->
  search_loop F (pre ++ sp :: post) inc = path_join sp inc.
Proof.
  induction pre as [|p pre IH]; intros sp post Hpre Hsp; simpl.
  - now rewrite Hsp.
  - rewrite (Hpre p (or_introl eq_refl)). apply IH; [|assumption].
    intros q Hq. apply Hpre. now right.
Qed.

Lemma search_loop_none (F : FileSystem) (inc : string) (paths : list string) :
  (forall q, In q paths -> isfile F (path_join q inc) = false) ->
  search_loop F paths inc = inc.
Proof.
  induction paths as [|p paths IH]; intros H; simpl; [reflexivity|].
  rewrite (H p (or_introl eq_refl)). apply IH. intros q Hq. apply H. now right.
Qed.

(** C3. [resolve_path] returns the including directory joined with the
    spelling if the include is quoted and that path is a file; otherwise the
    join of the spelling with the first search path, in registration order,
    for which the joined path is a file; and the spelling itself if there is
    no such path. *)
Theorem resolve_path_spec (E : Env) (dir_path inc_path : string) (relative : bool) :
  let quoted_hit := relative && isfile (fs E) (path_join dir_path inc_path) in
  (quoted_hit = true ->
   resolve_path E dir_path inc_path relative = path_join dir_path inc_path)
  /\ (quoted_hit = false ->
      forall pre search_path post,
      inc_search_paths E = (pre ++ search_path :: post)%list ->
      (forall q, In q pre -> isfile (fs E) (path_join q inc_path) = false) ->
      isfile (fs E) (path_join search_path inc_path) = true ->
      resolve_path E dir_path inc_path relative = path_join search_path inc_path)
  /\ (quoted_hit = false ->
      (forall q, In q (inc_search_paths E) ->
                 isfile (fs E) (path_join q inc_path) = false) ->
      resolve_path E dir_path inc_path relative = inc_path).
Proof.
  unfold resolve_path. simpl.
  destruct relative; simpl;
    destruct (isfile (fs E) (path_join dir_path inc_path)); simpl;
    repeat split; try discriminate; try reflexivity;
    try (intros _ pre sp post -> Hpre Hsp; now apply search_loop_first);
    try (intros _ Hall; now apply search_loop_none).
Qed.

Lemma resolve_path_spec_witness :
  resolve_path E_search "src" "foo.h" false = path_join "inc2" "foo.h".
Proof.
  refine (proj1 (proj2 (resolve_path_spec E_search "src" "foo.h" false))
            eq_refl ["inc1"] "inc2" ["inc3"] eq_refl _ eq_refl).
  intros q [<- | []]. reflexivity.
Defined.

(** ** The pattern *)

Lemma skip_blanks_spaces (n : nat) (s : string) :
  skip_blanks (spaces n ++ s) = skip_blanks s.
Proof. induction n as [|n IH]; simpl; [reflexivity | exact IH]. Qed.

Lemma span_spelling_body (body : string) (last : ascii) (rest : string) :
  no_close body = true -> is_close last = true ->
  span_spelling (body ++ String last rest) = (body, String last rest).
Proof.
  intros Hb Hl. induction body as [|c body IH]; simpl.
  - now rewrite Hl.
  - simpl in Hb. apply andb_true_iff in Hb. destruct Hb as [Hc Hb].
    apply negb_true_iff in Hc. rewrite Hc, (IH Hb). reflexivity.
Qed.

Lemma is_open_not_blank (c : ascii) : is_open c = true -> Ascii.eqb c " " = false.
Proof.
  unfold is_open. intros H. apply orb_true_iff in H.
  destruct H as [H|H]; apply Ascii.eqb_eq in H; subst; reflexivity.
Qed.

Lemma skip_blanks_inv (s : string) :
  exists n, s = spaces n ++ skip_blanks s.
Proof.
  induction s as [|c s [n IH]]; simpl.
  - now exists 0.
  - destruct (Ascii.eqb c " ") eqn:Hc.
    + apply Ascii.eqb_eq in Hc; subst c. exists (S n). simpl. now rewrite <- IH.
    + now exists 0.
Qed.

Lemma drop_literal_inv (lit : string) :
  forall s t, drop_literal lit s = Some t -> s = lit ++ t.
Proof.
  induction lit as [|a lit IH]; intros s t; simpl.
  - now intros [= ->].
  - destruct s as [|b s]; [discriminate|].
    destruct (Ascii.eqb a b) eqn:Hab; [|discriminate].
    apply Ascii.eqb_eq in Hab; subst b. intros H. now rewrite (IH s t H).
Qed.

Lemma span_spelling_inv (s : string) :
  s = fst (span_spelling s) ++ snd (span_spelling s)
  /\ no_close (fst (span_spelling s)) = true.
Proof.
  induction s as [|c s [IH1 IH2]]; simpl; [now split|].
  destruct (is_close c) eqn:Hc; simpl; [now split|].
  destruct (span_spelling s) as [b r]. simpl in *.
  rewrite Hc. simpl. split; [now rewrite <- IH1 | assumption].
Qed.

(** What the matcher accepts is a directive in the shape of the pattern, and
    the groups it returns are the delimiters and the spelling of that
    directive. *)
Lemma CPP_INC_PATTERN_match_inv (line : string) (first last : ascii) (body : string) :
  CPP_INC_PATTERN_match line = Some (first, body, last) ->
  exists n m rest,
    line = directive_line n m first body last rest
    /\ is_open first = true /\ no_close body = true /\ is_close last = true.
Proof.
  unfold CPP_INC_PATTERN_match, directive_line.
  destruct line as [|c s1]; [discriminate|].
  destruct (Ascii.eqb c "#") eqn:Hc; [|discriminate].
  apply Ascii.eqb_eq in Hc; subst c.
  destruct (skip_blanks_inv s1) as [n Hn].
  destruct (drop_literal "include" (skip_blanks s1)) as [s2|] eqn:H2; [|discriminate].
  apply drop_literal_inv in H2.
  destruct (skip_blanks_inv s2) as [m Hm].
  destruct (skip_blanks s2) as [|f s3]; [discriminate|].
  destruct (is_open f) eqn:Hf; [|discriminate].
  destruct (span_spelling_inv s3) as [H3 Hb].
  destruct (span_spelling s3) as [b s4]. simpl in H3, Hb.
  destruct s4 as [|l rest]; [discriminate|].
  destruct (is_close l) eqn:Hl; [|discriminate].
  intros [= <- <- <-]. exists n, m, rest.
  repeat split; try assumption.
  simpl. f_equal. rewrite Hn, H2, Hm, H3. simpl.
  reflexivity.
Qed.

(** C4 (amended). Every line that is [#], any number of spaces, [include],
    any number of spaces, an opening delimiter ([<] or a double quote), a
    spelling that holds neither [>] nor a double quote, a closing delimiter
    ([>] or a double quote) and any rest is matched by the pattern, and the
    groups are the opening delimiter, the spelling and the closing
    delimiter: the spelling extracted ends at the first [>] or double quote
    after the opening delimiter.  A line whose first character is not [#],
    such as one with white space before the [#], is not matched. *)
Theorem directive_recognized (n m : nat) (first last : ascii) (body rest : string) :
  (is_open first = true -> no_close body = true -> is_close last = true ->
   CPP_INC_PATTERN_match (directive_line n m first body last rest)
   = Some (first, body, last))
  /\ (forall c s, c <> "#"%char -> CPP_INC_PATTERN_match (String c s) = None).
Proof.
  split.
  - intros Ho Hb Hl. unfold directive_line. simpl.
    rewrite skip_blanks_spaces. simpl. rewrite skip_blanks_spaces. simpl.
    rewrite (is_open_not_blank first Ho), Ho.
    rewrite (span_spelling_body body last rest Hb Hl). now rewrite Hl.
  - intros c s Hc. simpl. apply Ascii.eqb_neq in Hc. now rewrite Hc.
Qed.

Lemma directive_recognized_witness :
  CPP_INC_PATTERN_match (directive_line 1 2 "<" "sys/types.h" ">" (nl EmptyString))
  = Some ("<"%char, "sys/types.h", ">"%char).
Proof.
  exact (proj1 (directive_recognized 1 2 "<" ">" "sys/types.h" (nl EmptyString))
           eq_refl eq_refl eq_refl).
Defined.

(** C4 as stated fails: with blanks before the [#] the pattern, anchored at
    the first character of the line, does not match. *)
Lemma leading_blanks_counterexample :
  CPP_INC_PATTERN_match ("  #include " ++ quoted "foo.h") = None
  /\ CPP_INC_PATTERN_match ("#include " ++ quoted "foo.h")
     = Some (dquote, "foo.h", dquote).
Proof. split; reflexivity. Qed.

(** ** Listings *)

Lemma lookup_map_snd (f : Node -> Node) (g : list (string * Node)) (k : string) :
  lookup (map (fun kn => (fst kn, f (snd kn))) g) k = option_map f (lookup g k).
Proof.
  induction g as [|[q n] g IH]; simpl; [reflexivity|].
  now destruct (String.eqb k q).
Qed.

Lemma lookup_key (g : list (string * Node)) (k : string) :
  In k (map fst g) -> exists n, lookup g k = Some n.
Proof.
  intros H. destruct (lookup g k) as [n|] eqn:Hn; [eauto|].
  apply lookup_None in Hn. contradiction.
Qed.

(** The loop of a listing, on a state whose flags [visited] and whose depth
    have been cleared. *)
Lemma for_each_print (sel : Node -> bool) (g : list (string * Node)) (ks : list string) :
  (forall k, In k ks -> In k (map fst g)) ->
  (forall k n, lookup g k = Some n -> visited n = false) ->
  forall m tr,
  for_each_node (fun node k s => if sel node then print_node k s else Some s)
    ks (mkState g 0 m tr)
  = Some (mkState g 0 m
            (tr ++ map (fun k => EvPrint (key_line g k)) (selected sel g ks))%list).
Proof.
  intros Hks Hv. induction ks as [|k ks IH]; intros m tr; simpl.
  - now rewrite app_nil_r.
  - destruct (lookup_key g k (Hks k (or_introl eq_refl))) as [n Hn].
    unfold node_at at 1. simpl. rewrite Hn.
    assert (IH' := IH (fun q Hq => Hks q (or_intror Hq))).
    destruct (sel n) eqn:Hs.
    + unfold print_node, node_at. simpl. rewrite Hn.
      unfold print, emit. simpl. rewrite IH'. f_equal. f_equal.
      rewrite <- app_assoc. simpl. f_equal. f_equal. f_equal.
      unfold key_line, node_line, listing_line. rewrite Hn, (Hv k n Hn).
      now destruct (missing n).
    + apply IH'.
Qed.

Lemma listing_spec (sel : Node -> bool) (st : State) :
  (forall n, sel (set_visited false n) = sel n) ->
  for_each_node (fun node k s => if sel node then print_node k s else Some s)
    (keys (clear_visisted st)) (clear_visisted st)
  = Some (listed sel st).
Proof.
  intros Hsel. unfold clear_visisted, with_depth, with_nodes, keys. simpl.
  rewrite for_each_print.
  - unfold listed. simpl. f_equal. f_equal. f_equal.
    rewrite map_map. simpl.
    assert (Hsame : selected sel
              (map (fun kn => (fst kn, set_visited false (snd kn))) (nodes st))
              (map fst (nodes st))
            = selected sel (nodes st) (keys st)).
    { unfold selected, keys. apply filter_ext. intros k.
      rewrite lookup_map_snd. destruct (lookup (nodes st) k); simpl; auto. }
    change (fun x : string * Node => fst x) with (@fst string Node).
    rewrite Hsame. apply map_ext. intros k. f_equal.
    unfold key_line. rewrite lookup_map_snd.
    now destruct (lookup (nodes st) k).
  - intros k Hk. now rewrite !map_map in *.
  - intros k n H. rewrite lookup_map_snd in H.
    destruct (lookup (nodes st) k); [|discriminate]. now injection H as <-.
Qed.

(** C9 (amended). The top-level and the leaf listing print, for each node
    they select and in the order of the graph, one line that is the path of
    the node without indentation, without one leading current-directory
    prefix and without the already-visited marker; the line of a node whose
    missing flag is set ends with the missing marker. *)
Theorem listing_lines (st : State) :
  print_top_level_nodes st = Some (listed is_top_level st)
  /\ print_leaf_nodes st = Some (listed is_leaf st)
  /\ (forall n, listing_line n
                = if missing n then strip_dot_prefix (file n) ++ " ?"
                  else strip_dot_prefix (file n))
  /\ (forall s, strip_dot_prefix ("./" ++ s) = s)
  /\ (forall s, strip_dot_prefix (".\" ++ s) = s).
Proof.
  split; [|split; [|split; [|split]]].
  - unfold print_top_level_nodes. now apply (listing_spec is_top_level).
  - unfold print_leaf_nodes. now apply (listing_spec is_leaf).
  - reflexivity.
  - intros s. now destruct s.
  - intros s. now destruct s.
Qed.

(** C9 as stated fails: in the graph of [a.c], which includes the absent
    [b.h], the node of [b.h] is missing and has no parent, and the top-level
    listing prints it with the missing marker. *)
Lemma listing_missing_counterexample :
  (exists n, node_at missing_scanned "b.h" = Some n
             /\ missing n = true /\ has_parent n = false)
  /\ exists st', print_top_level_nodes missing_scanned = Some st'
       /\ trace st' = (trace missing_scanned ++ [EvPrint "b.h ?"])%list.
Proof.
  split.
  - eexists. split; [reflexivity | split; reflexivity].
  - eexists. split; reflexivity.
Qed.

Lemma not_selected (sel : Node -> bool) (st : State) (k : string) (n : Node) :
  node_at st k = Some n -> sel n = false ->
  ~ In k (selected sel (nodes st) (keys st)).
Proof.
  intros Hn Hs Hin. apply filter_In in Hin. destruct Hin as [_ H].
  unfold node_at in Hn. rewrite Hn in H. congruence.
Qed.

(** C10 (amended). For every file A such that a line of its text is matched
    by the pattern from its first character, with delimiters that are not
    mismatched, and its spelling resolves to the path of A itself
    ([resolves_to]), and such that no system header path is a prefix of the
    text of the directory of A (the test of [is_sys_header_path]): on a
    file system with finitely many files and in a state that satisfies the
    invariant of the scanner, scanning A, an existing file not yet visited,
    returns, and in the state it returns the node of A is among its own
    children and has [has_parent] set, so that neither the top-level listing
    nor the leaf listing selects it. *)
Theorem self_include_edge (E : Env) (files : list string) (A : string) (st : State) :
  fs_listed E files -> scan_inv E st ->
  isfile (fs E) A = true -> is_visited st A = false ->
  resolves_to E A A ->
  is_sys_header_path E (fst (path_split A)) = false ->
  (exists st', cpp_scan_file E (S (unvisited_files files st)) A st = Some st')
  /\ (forall fuel st', cpp_scan_file E fuel A st = Some st' ->
        has_edge st' A A /\ flagged has_parent st' A
        /\ print_top_level_nodes st' = Some (listed is_top_level st')
        /\ ~ In A (selected is_top_level (nodes st') (keys st'))
        /\ print_leaf_nodes st' = Some (listed is_leaf st')
        /\ ~ In A (selected is_leaf (nodes st') (keys st'))).
Proof.
  intros Hfin I Hf Hv Hres Hsys. split.
  - apply (cpp_scan_file_total E files Hfin). lia.
  - intros fuel st' H.
    destruct (cpp_scan_file_edges E fuel A st st' I Hf Hv H A
                (resolves_to_included E A A Hres Hsys))
      as [[n [Hn Hin]] [n' [Hn' Hp]]].
    assert (n' = n) as -> by congruence.
    split; [now exists n|]. split; [now exists n|].
    split; [now apply (listing_spec is_top_level)|].
    split; [apply (not_selected is_top_level st' A n Hn);
            unfold is_top_level; now rewrite Hp|].
    split; [now apply (listing_spec is_leaf)|].
    apply (not_selected is_leaf st' A n Hn).
    unfold is_leaf, has_children. destruct (children n); [destruct Hin|reflexivity].
Qed.

Lemma self_include_edge_witness :
  (exists st', cpp_scan_file E_self
                 (S (unvisited_files (map fst self_files) initial_state))
                 "src/a.h" initial_state = Some st')
  /\ (forall fuel st', cpp_scan_file E_self fuel "src/a.h" initial_state = Some st' ->
        has_edge st' "src/a.h" "src/a.h" /\ flagged has_parent st' "src/a.h"
        /\ print_top_level_nodes st' = Some (listed is_top_level st')
        /\ ~ In "src/a.h" (selected is_top_level (nodes st') (keys st'))
        /\ print_leaf_nodes st' = Some (listed is_leaf st')
        /\ ~ In "src/a.h" (selected is_leaf (nodes st') (keys st'))).
Proof.
  apply (self_include_edge E_self (map fst self_files) "src/a.h" initial_state).
  - apply fs_of_listed.
  - apply scan_inv_initial.
  - reflexivity.
  - reflexivity.
  - exists (include_quoted "a.h"). split; [now left | reflexivity].
  - reflexivity.
Defined.

(** C10 as stated fails: [/usr/include/a.h] includes itself, but its
    directory starts with a system header path; after its scan its node has
    no child and no parent, and both listings select it. *)
Lemma self_include_counterexample :
  isfile (fs E_self_sys) "/usr/include/a.h" = true
  /\ resolves_to E_self_sys "/usr/include/a.h" "/usr/include/a.h"
  /\ cpp_scan_file E_self_sys 3 "/usr/include/a.h" initial_state
     = Some self_sys_scanned
  /\ ~ has_edge self_sys_scanned "/usr/include/a.h" "/usr/include/a.h"
  /\ ~ flagged has_parent self_sys_scanned "/usr/include/a.h"
  /\ In "/usr/include/a.h"
        (selected is_top_level (nodes self_sys_scanned) (keys self_sys_scanned))
  /\ In "/usr/include/a.h"
        (selected is_leaf (nodes self_sys_scanned) (keys self_sys_scanned)).
Proof.
  split; [reflexivity|]. split.
  - exists (include_quoted "a.h"). split; [now left | reflexivity].
  - split; [reflexivity|]. split; [|split; [|split]].
    + intros [n [H Hin]]. vm_compute in H. injection H as <-. destruct Hin.
    + intros [n [H Hp]]. vm_compute in H. injection H as <-. discriminate.
    + vm_compute. now left.
    + vm_compute. now left.
Qed.

(** ** Termination of the renderer *)

Lemma vis_le_refl (n : Node) : vis_le n n.
Proof. unfold vis_le; tauto. Qed.

Lemma render_le_refl (g : list (string * Node)) : render_le g g.
Proof.
  induction g as [|kn g IH]; constructor; [|assumption].
  split; [reflexivity | apply vis_le_refl].
Qed.

Lemma render_le_trans (a b c : list (string * Node)) :
  render_le a b -> render_le b c -> render_le a c.
Proof.
  intros H. revert c. induction H as [|x y a b [Hk Hv] Hab IH]; intros c Hbc.
  - inversion Hbc. constructor.
  - inversion Hbc as [|? z ? c' [Hk' Hv'] Hbc']; subst. constructor.
    + split; [congruence|].
      destruct Hv as (F1 & C1 & P1 & M1 & V1), Hv' as (F2 & C2 & P2 & M2 & V2).
      unfold vis_le. repeat split; try congruence. auto.
    + now apply IH.
Qed.

Lemma render_le_update (k : string) (g : list (string * Node)) :
  render_le g (update k (set_visited true) g).
Proof.
  induction g as [|[q n] g IH]; simpl; constructor; [|assumption].
  simpl. destruct (String.eqb k q); simpl; split; try reflexivity.
  - unfold vis_le; simpl; tauto.
  - apply vis_le_refl.
Qed.

Lemma render_le_lookup (g g' : list (string * Node)) (k : string) :
  render_le g g' ->
  match lookup g k, lookup g' k with
  | Some n, Some n' => vis_le n n'
  | None, None => True
  | _, _ => False
  end.
Proof.
  induction 1 as [|[q n] [q' n'] g g' [Hk Hv] _ IH]; simpl; [trivial|].
  simpl in Hk, Hv. subst q'. now destruct (String.eqb k q).
Qed.

Lemma render_le_count (g g' : list (string * Node)) :
  render_le g g' -> count_unvisited g' <= count_unvisited g.
Proof.
  unfold count_unvisited.
  induction 1 as [|[q n] [q' n'] g g' [_ Hv] _ IH]; simpl; [lia|].
  simpl in Hv. destruct Hv as (_ & _ & _ & _ & V).
  destruct (visited n) eqn:Hn; simpl.
  - rewrite (V eq_refl). simpl. exact IH.
  - destruct (visited n'); simpl; lia.
Qed.

Lemma render_le_count_lt (g g' : list (string * Node)) (k : string) (n n' : Node) :
  render_le g g' -> lookup g k = Some n -> lookup g' k = Some n' ->
  visited n = false -> visited n' = true ->
  count_unvisited g' < count_unvisited g.
Proof.
  unfold count_unvisited.
  induction 1 as [|[q m] [q' m'] g g' [Hk Hv] Hgg IH]; simpl; [discriminate|].
  simpl in Hk, Hv. subst q'. intros Hn Hn' V V'.
  pose proof (render_le_count g g' Hgg) as Hle. unfold count_unvisited in Hle.
  destruct (String.eqb k q).
  - injection Hn as ->. injection Hn' as ->. rewrite V, V'. simpl. lia.
  - specialize (IH Hn Hn' V V'). destruct Hv as (_ & _ & _ & _ & Vm).
    destruct (visited m) eqn:Hm; simpl.
    + rewrite (Vm eq_refl). simpl. exact IH.
    + destruct (visited m'); simpl; lia.
Qed.

Lemma render_le_closed (st st' : State) :
  render_le (nodes st) (nodes st') -> graph_closed st -> graph_closed st'.
Proof.
  intros Hr Hc k n' c Hn' Hin.
  pose proof (render_le_lookup (nodes st) (nodes st') k Hr) as Hk.
  unfold node_at in *. rewrite Hn' in Hk.
  destruct (lookup (nodes st) k) as [n|] eqn:Hn; [|destruct Hk].
  destruct Hk as (_ & Hch & _). rewrite Hch in Hin.
  destruct (Hc k n c Hn Hin) as [nc Hnc].
  pose proof (render_le_lookup (nodes st) (nodes st') c Hr) as Hcc.
  unfold node_at in Hnc. rewrite Hnc in Hcc.
  destruct (lookup (nodes st') c) as [nc'|]; [eauto | destruct Hcc].
Qed.

Lemma render_le_exists (g g' : list (string * Node)) (k : string) (n : Node) :
  render_le g g' -> lookup g k = Some n -> exists n', lookup g' k = Some n'.
Proof.
  intros Hr Hn. pose proof (render_le_lookup g g' k Hr) as H. rewrite Hn in H.
  destruct (lookup g' k); [eauto | destruct H].
Qed.

Section PrintChildren.
Variable fuel : nat.
Variable pt : string -> State -> option (pyret * State).
Hypothesis pt_total : forall c st,
  graph_closed st -> count_unvisited (nodes st) < fuel ->
  (exists n, node_at st c = Some n) ->
  exists r st', pt c st = Some (r, st') /\ render_le (nodes st) (nodes st').

Lemma print_children_total (cs : list string) :
  forall st,
  graph_closed st -> count_unvisited (nodes st) < fuel ->
  (forall c, In c cs -> exists n, node_at st c = Some n) ->
  exists b st', print_children pt cs st = Some (b, st')
                /\ render_le (nodes st) (nodes st').
Proof.
  induction cs as [|c cs IH]; intros st Hc Hm Hex; simpl.
  - exists true, st. split; [reflexivity | apply render_le_refl].
  - destruct (pt_total c st Hc Hm (Hex c (or_introl eq_refl)))
      as (r & st1 & -> & Hr).
    destruct (py_not r).
    + exists false, st1. now split.
    + destruct (IH st1) as (b & st2 & H2 & Hr2).
      * now apply (render_le_closed st st1).
      * pose proof (render_le_count _ _ Hr). lia.
      * intros c' Hc'. destruct (Hex c' (or_intror Hc')) as [n Hn].
        now apply (render_le_exists (nodes st) (nodes st1) c' n).
      * exists b, st2. split; [assumption|].
        now apply (render_le_trans _ (nodes st1)).
Qed.
End PrintChildren.

(** With fuel above the number of unvisited nodes [print_tree] returns. *)
Lemma print_tree_total (fuel : nat) :
  forall key st,
  graph_closed st -> count_unvisited (nodes st) < fuel ->
  (exists n, node_at st key = Some n) ->
  exists r st', print_tree fuel key st = Some (r, st')
                /\ render_le (nodes st) (nodes st').
Proof.
  induction fuel as [|fuel IH]; intros key st Hc Hm [self Hself]; [lia|].
  simpl. destruct (MAX_DEPTH <? depth st)%nat.
  - eexists _, _. split; [reflexivity | apply render_le_refl].
  - unfold print_node. rewrite Hself.
    destruct (visited self) eqn:Hv.
    + eexists _, _. split; [reflexivity | apply render_le_refl].
    + set (st3 := with_depth _ _ _).
      assert (Hr3 : render_le (nodes st) (nodes st3)) by apply render_le_update.
      assert (Hm3 : count_unvisited (nodes st3) < fuel).
      { assert (count_unvisited (nodes st3) < count_unvisited (nodes st)); [|lia].
        apply (render_le_count_lt (nodes st) (nodes st3) key self
                 (set_visited true self) Hr3 Hself); [|assumption|reflexivity].
        unfold st3. simpl. rewrite lookup_update, String.eqb_refl.
        unfold node_at in Hself. now rewrite Hself. }
      destruct (print_children_total fuel (print_tree fuel) IH (children self) st3)
        as (b & st4 & H4 & Hr4).
      * now apply (render_le_closed st st3).
      * exact Hm3.
      * intros c Hin. destruct (Hc key self c Hself Hin) as [nc Hnc].
        now apply (render_le_exists (nodes st) (nodes st3) c nc).
      * rewrite H4. destruct b; eexists _, _; (split; [reflexivity|]);
          now apply (render_le_trans _ (nodes st3)).
Qed.

(** ** The three ways through [print_tree] *)

Lemma print_tree_ceiling (fuel : nat) (key : string) (st : State) :
  MAX_DEPTH < depth st ->
  print_tree (S fuel) key st
  = Some (RetFalse, print (max_depth_msg (depth st)) st).
Proof.
  intros H. apply Nat.ltb_lt in H.
  change (print_tree (S fuel) key st)
    with (if (MAX_DEPTH <? depth st)%nat
          then Some (RetFalse, print (max_depth_msg (depth st)) st)
          else match node_at st key, print_node key st with
               | Some self, Some st1 =>
                   if visited self then Some (RetNone, st1)
                   else
                     let st2 := modify key (set_visited true) st1 in
                     let st3 := with_depth (depth st2 + 1) (depth st2 + 1) st2 in
                     match print_children (print_tree fuel) (children self) st3 with
                     | None => None
                     | Some (false, st4) => Some (RetFalse, st4)
                     | Some (true, st4) =>
                         Some (RetTrue,
                               with_depth (depth st4 - 1) (max_depth_reached st4) st4)
                     end
               | _, _ => None
               end).
  now rewrite H.
Qed.

Lemma print_tree_seen (fuel : nat) (key : string) (st : State) (n : Node) :
  depth st <= MAX_DEPTH -> node_at st key = Some n -> visited n = true ->
  print_tree (S fuel) key st = Some (RetNone, print (node_line (depth st) n) st).
Proof.
  intros H Hn Hv. assert ((MAX_DEPTH <? depth st)%nat = false) as Hd
    by (apply Nat.ltb_ge; exact H).
  cbn [print_tree]. rewrite Hd. unfold print_node. now rewrite Hn, Hv.
Qed.

Lemma print_tree_enter (fuel : nat) (key : string) (st : State) (n : Node) :
  depth st <= MAX_DEPTH -> node_at st key = Some n -> visited n = false ->
  print_tree (S fuel) key st
  = match print_children (print_tree fuel) (children n)
            (with_depth (depth st + 1) (depth st + 1)
               (modify key (set_visited true)
                  (print (node_line (depth st) n) st))) with
    | None => None
    | Some (false, st4) => Some (RetFalse, st4)
    | Some (true, st4) =>
        Some (RetTrue, with_depth (depth st4 - 1) (max_depth_reached st4) st4)
    end.
Proof.
  intros H Hn Hv. assert ((MAX_DEPTH <? depth st)%nat = false) as Hd
    by (apply Nat.ltb_ge; exact H).
  cbn [print_tree]. rewrite Hd. unfold print_node. now rewrite Hn, Hv.
Qed.




Lemma node_at_clear_visisted (st : State) (k : string) :
  node_at (clear_visisted st) k = option_map (set_visited false) (node_at st k).
Proof. unfold node_at, clear_visisted. simpl. apply lookup_map_snd. Qed.

(** The graph that the scanner leaves is closed, also once its [visited]
    flags are cleared for a render. *)
Lemma scanned_graph_closed (E : Env) (st : State) :
  scan_inv E st -> graph_closed (clear_visisted st).
Proof.
  intros [Ha _] k n c Hn Hin. rewrite node_at_clear_visisted in *.
  destruct (node_at st k) as [m|] eqn:Hm; [|discriminate].
  injection Hn as <-. simpl in Hin.
  destruct (Ha k m c Hm Hin) as [nc [Hnc _]]. rewrite Hnc. simpl. eauto.
Qed.



(** C5 fails on the code.  In the graph of [shared_files] the node of
    [base.h] has the children [a.h], [b.c] and [c.c], and [b.c] is also a
    child of [a.h].  The render of [base.h] prints [base.h], [a.h], [b.c]
    and then [b.c] again with its marker; that call returns [None], the loop
    over the children of [base.h] takes it for a failure, and the remaining
    sibling [c.c] is never printed. *)
Theorem visited_child_aborts_render :
  has_edge shared_scanned "base.h" "c.c"
  /\ (exists n, node_at shared_scanned "base.h" = Some n
                /\ children n = ["a.h"; "b.c"; "c.c"])
  /\ (exists st',
        print_tree 4 "base.h" (clear_visisted shared_scanned) = Some (RetFalse, st')
        /\ trace st' = (trace shared_scanned
                        ++ [EvPrint "base.h"; EvPrint "  a.h"; EvPrint "    b.c";
                            EvPrint "  b.c *"])%list)
  /\ (exists st',
        print_graph 4 shared_scanned = Some st'
        /\ trace st' = (trace shared_scanned
                        ++ [EvPrint "base.h"; EvPrint "  a.h"; EvPrint "    b.c";
                            EvPrint "  b.c *"])%list).
Proof.
  split; [|split; [|split]].
  - eexists. split; [reflexivity|]. simpl. tauto.
  - eexists. split; reflexivity.
  - eexists. split; vm_compute; reflexivity.
  - eexists. split; vm_compute; reflexivity.
Qed.

(** * Further properties of the scanner *)

(** ** The states of one call of [cpp_scan_file] *)

Lemma nodes_after_read (E : Env) (path : string) (st : State) :
  nodes (after_read E path st)
  = update path (set_visited true) (nodes (get_node path st)).
Proof.
  destruct (scan_lines_nodes E path (fst (path_split path))
              (read_lines (fs E) path) 1 []
              (emit (EvOpen path)
                 (log E ("Scanning " ++ path)
                    (modify path (set_visited true) (get_node path st)))))
    as [Hnodes _].
  fold (read_state E path st) in Hnodes.
  unfold after_read. simpl. rewrite Hnodes. simpl. now rewrite nodes_log.
Qed.

Lemma node_at_after_read (E : Env) (path : string) (st : State) (k : string) :
  node_at (after_read E path st) k
  = if String.eqb path k
    then option_map (set_visited true) (node_at (get_node path st) k)
    else node_at (get_node path st) k.
Proof. unfold node_at. rewrite nodes_after_read. apply lookup_update. Qed.

Lemma node_at_missing_step (path : string) (st : State) (k : string) :
  node_at (error (missing_msg path)
             (modify path (set_missing true)
                (modify path (set_visited true) (get_node path st)))) k
  = if String.eqb path k
    then option_map (fun m => set_missing true (set_visited true m))
           (node_at (get_node path st) k)
    else node_at (get_node path st) k.
Proof.
  unfold error, print. rewrite node_at_emit, !node_at_modify.
  destruct (String.eqb path k); [|reflexivity].
  now destruct (node_at (get_node path st) k).
Qed.

Lemma trace_get_node (f : string) (st : State) :
  trace (get_node f st) = trace st.
Proof. unfold get_node. now destruct (node_at st f). Qed.

Lemma keys_get_node (f : string) (st : State) :
  keys (get_node f st)
  = match node_at st f with Some _ => keys st | None => (keys st ++ [f])%list end.
Proof.
  unfold get_node. destruct (node_at st f); [reflexivity|].
  unfold keys. simpl. now rewrite map_app.
Qed.

Lemma keys_update (k : string) (f : Node -> Node) (g : list (string * Node)) :
  map fst (update k f g) = map fst g.
Proof.
  unfold update. rewrite map_map. apply map_ext. intros [q n]. simpl.
  now destruct (String.eqb k q).
Qed.

(** The state after a link step. *)
Lemma node_at_link_step (inc this : string) (st st1 : State) :
  add_child inc this (get_node inc st) = Some st1 ->
  trace st1 = trace st
  /\ ((st1 = get_node inc st /\ has_edge (get_node inc st) inc this)
      \/ (~ has_edge (get_node inc st) inc this
          /\ forall k, node_at st1 k
               = option_map (linked inc this k) (node_at (get_node inc st) k))).
Proof.
  intros Hadd.
  destruct (node_at_get_node_same inc st) as [p Hp].
  destruct (has_child p this) eqn:Hc.
  - unfold add_child in Hadd. rewrite Hp, Hc in Hadd. injection Hadd as <-.
    split; [apply trace_get_node|]. left. split; [reflexivity|].
    exists p. split; [assumption | now apply existsb_eqb_In].
  - destruct (node_at_add_child inc this _ st1 p Hp Hc Hadd) as [Ht Hk].
    split; [now rewrite Ht, trace_get_node|]. right. split; [|assumption].
    intros [p' [Hp' Hin]]. assert (p' = p) as -> by congruence.
    apply existsb_eqb_In in Hin. unfold has_child in Hc. congruence.
Qed.

Lemma keys_link_step (inc this : string) (st st1 : State) :
  add_child inc this (get_node inc st) = Some st1 ->
  keys st1 = keys (get_node inc st).
Proof.
  intros Hadd. unfold add_child in Hadd.
  destruct (node_at (get_node inc st) inc) as [p|]; [|discriminate].
  destruct (has_child p this); injection Hadd as <-; [reflexivity|].
  unfold keys, modify. simpl. now rewrite !keys_update.
Qed.

(** ** Induction over the calls of [cpp_scan_file]

    A property of the state that each of the four ways through the
    function keeps is kept by every call that returns. *)

Section ScanInduction.
Variable E : Env.
Variable P : State -> Prop.

Hypothesis P_seen : forall path st n,
  P st -> node_at (get_node path st) path = Some n -> visited n = true ->
  P (log E ("Ignoring scanned file: " ++ path) (get_node path st)).

Hypothesis P_missing : forall path st n,
  P st -> node_at (get_node path st) path = Some n -> visited n = false ->
  isfile (fs E) path = false ->
  P (error (missing_msg path)
       (modify path (set_missing true)
          (modify path (set_visited true) (get_node path st)))).

Hypothesis P_read : forall path st n,
  P st -> node_at (get_node path st) path = Some n -> visited n = false ->
  isfile (fs E) path = true ->
  P (after_read E path st).

Hypothesis P_link : forall inc this st st1,
  P st -> isfile (fs E) this = true -> is_visited st this = true ->
  In inc (includes_of E this) ->
  add_child inc this (get_node inc st) = Some st1 ->
  P st1.

Lemma link_includes_ind (scan : string -> State -> option State) (this : string) :
  (forall inc st st', scan inc st = Some st' -> ext st st') ->
  (forall inc st st', P st -> scan inc st = Some st' -> P st') ->
  isfile (fs E) this = true ->
  forall includes st st',
  (forall inc, In inc includes -> In inc (includes_of E this)) ->
  P st -> is_visited st this = true ->
  link_includes scan this includes st = Some st' -> P st'.
Proof.
  intros Hext Hscan Hf.
  induction includes as [|inc rest IH]; intros st st' Hsub HP Hv; simpl.
  - now intros [= <-].
  - destruct (add_child inc this (get_node inc st)) as [st1|] eqn:Hadd;
      [|discriminate].
    destruct (scan inc st1) as [st2|] eqn:Hs; [|discriminate].
    intros Hrest.
    assert (E01 : ext st st1).
    { eapply ext_trans; [apply ext_get_node | eapply ext_add_child; eassumption]. }
    apply (IH st2 st'); [| | |assumption].
    + intros i Hi. apply Hsub. now right.
    + apply (Hscan inc st1 st2); [|assumption].
      apply (P_link inc this st st1 HP Hf Hv); [|assumption].
      apply Hsub. now left.
    + apply (ext_is_visited st st2 this); [|assumption].
      eapply ext_trans; [exact E01 | eapply Hext; eassumption].
Qed.

Lemma cpp_scan_file_ind (fuel : nat) :
  forall path st st', P st -> cpp_scan_file E fuel path st = Some st' -> P st'.
Proof.
  induction fuel as [|fuel IH]; intros path st st' HP H; [discriminate|].
  destruct (node_at_get_node_same path st) as [n Hn].
  destruct (visited n) eqn:Hv.
  - rewrite (cpp_scan_file_seen E fuel path st n Hn Hv) in H. injection H as <-.
    now apply (P_seen path st n).
  - destruct (isfile (fs E) path) eqn:Hf.
    + rewrite (cpp_scan_file_unfold E fuel path st n Hn Hv Hf) in H.
      apply (link_includes_ind (cpp_scan_file E fuel) path) with
        (includes := includes_of E path) (st := after_read E path st);
        try assumption.
      * intros inc s s' Hs. now apply (cpp_scan_file_sound E fuel inc s s').
      * auto.
      * now apply (P_read path st n).
      * apply after_read_ext.
    + rewrite (cpp_scan_file_missing E fuel path st n Hn Hv Hf) in H.
      injection H as <-. now apply (P_missing path st n).
Qed.
End ScanInduction.

(** ** The registry of nodes *)

Lemma graph_keyed_get_node (f : string) (st : State) :
  graph_keyed st -> graph_keyed (get_node f st).
Proof.
  intros [Hnd Hfile]. split.
  - rewrite keys_get_node. destruct (node_at st f) eqn:Hf; [assumption|].
    apply NoDup_snoc; [assumption|]. now apply lookup_None.
  - intros k n H. rewrite node_at_get_node in H.
    destruct (node_at st k) as [m|] eqn:Hk.
    + injection H as <-. now apply Hfile.
    + destruct (String.eqb k f) eqn:Hkf; [|discriminate].
      injection H as <-. apply String.eqb_eq in Hkf. now subst.
Qed.

Lemma graph_keyed_update (k : string) (f : Node -> Node) (st st' : State) :
  (forall n, file (f n) = file n) ->
  nodes st' = update k f (nodes st) ->
  graph_keyed st -> graph_keyed st'.
Proof.
  intros Hf Hn [Hnd Hfile]. split.
  - unfold keys. now rewrite Hn, keys_update.
  - intros q n H. unfold node_at in H. rewrite Hn, lookup_update in H.
    destruct (String.eqb k q).
    + fold (node_at st q) in H. destruct (node_at st q) as [m|] eqn:Hm;
        [|discriminate].
      injection H as <-. rewrite Hf. now apply Hfile.
    + now apply Hfile.
Qed.

Lemma graph_keyed_same_nodes (st st' : State) :
  nodes st' = nodes st -> graph_keyed st -> graph_keyed st'.
Proof. unfold graph_keyed, keys, node_at. now intros ->. Qed.

Lemma graph_keyed_link (inc this : string) (st st1 : State) :
  add_child inc this (get_node inc st) = Some st1 ->
  graph_keyed st -> graph_keyed st1.
Proof.
  intros Hadd Hk. apply (graph_keyed_get_node inc) in Hk.
  destruct (node_at_link_step inc this st st1 Hadd) as [_ [[-> _] | [_ Hat]]];
    [assumption|].
  destruct Hk as [Hnd Hfile]. split.
  - now rewrite (keys_link_step inc this st st1 Hadd).
  - intros k n H. rewrite Hat in H.
    destruct (node_at (get_node inc st) k) as [m|] eqn:Hm; [|discriminate].
    injection H as <-.
    destruct (linked_flags inc this k m) as (_ & _ & ->). now apply Hfile.
Qed.

Lemma children_nodup_get_node (f : string) (st : State) :
  children_nodup st -> children_nodup (get_node f st).
Proof.
  intros H k n Hn. rewrite node_at_get_node in Hn.
  destruct (node_at st k) as [m|] eqn:Hk.
  - injection Hn as <-. now apply (H k).
  - destruct (String.eqb k f); [|discriminate]. injection Hn as <-. constructor.
Qed.

Lemma children_nodup_update (k : string) (f : Node -> Node) (st st' : State) :
  (forall n, children (f n) = children n) ->
  nodes st' = update k f (nodes st) ->
  children_nodup st -> children_nodup st'.
Proof.
  intros Hf Hn H q n Hq. unfold node_at in Hq. rewrite Hn, lookup_update in Hq.
  destruct (String.eqb k q).
  - fold (node_at st q) in Hq. destruct (node_at st q) as [m|] eqn:Hm;
      [|discriminate].
    injection Hq as <-. rewrite Hf. now apply (H q).
  - now apply (H q).
Qed.

Lemma scan_keeps_registry_aux (E : Env) (fuel : nat) (path : string)
    (st st' : State) :
  graph_keyed st /\ children_nodup st ->
  cpp_scan_file E fuel path st = Some st' ->
  graph_keyed st' /\ children_nodup st'.
Proof.
  apply (cpp_scan_file_ind E (fun s => graph_keyed s /\ children_nodup s)).
  - intros p s n [K C] _ _. split.
    + apply (graph_keyed_same_nodes (get_node p s)); [apply nodes_log|].
      now apply graph_keyed_get_node.
    + intros k m Hk. rewrite node_at_log in Hk.
      now apply (children_nodup_get_node p s C k).
  - intros p s n [K C] _ _ _. split.
    + apply (graph_keyed_update p (fun m => set_missing true (set_visited true m))
               (get_node p s)); [reflexivity | apply update_update|].
      now apply graph_keyed_get_node.
    + apply (children_nodup_update p (fun m => set_missing true (set_visited true m))
               (get_node p s)); [reflexivity | apply update_update|].
      now apply children_nodup_get_node.
  - intros p s n [K C] _ _ _. split.
    + apply (graph_keyed_update p (set_visited true) (get_node p s));
        [reflexivity | apply nodes_after_read|].
      now apply graph_keyed_get_node.
    + apply (children_nodup_update p (set_visited true) (get_node p s));
        [reflexivity | apply nodes_after_read|].
      now apply children_nodup_get_node.
  - intros inc this s s1 [K C] _ _ _ Hadd. split.
    + now apply (graph_keyed_link inc this s s1).
    + intros k n. apply (add_child_NoDup inc this (get_node inc s) s1 Hadd).
      now apply children_nodup_get_node.
Qed.

(** ** What the steps of a call do to edges and flags *)

Lemma has_edge_get_node (f : string) (st : State) (p c : string) :
  has_edge (get_node f st) p c <-> has_edge st p c.
Proof.
  unfold has_edge. rewrite node_at_get_node. split.
  - intros [n [H Hin]]. destruct (node_at st p) as [m|] eqn:Hm.
    + injection H as <-. eauto.
    + destruct (String.eqb p f); [|discriminate]. injection H as <-. destruct Hin.
  - intros [n [H Hin]]. rewrite H. eauto.
Qed.

Lemma flagged_get_node (g : Node -> bool) (f : string) (st : State) (c : string) :
  g (Node_init f) = false ->
  flagged g (get_node f st) c <-> flagged g st c.
Proof.
  intros Hg. unfold flagged. rewrite node_at_get_node. split.
  - intros [n [H Hf]]. destruct (node_at st c) as [m|] eqn:Hm.
    + injection H as <-. eauto.
    + destruct (String.eqb c f); [|discriminate]. injection H as <-. congruence.
  - intros [n [H Hf]]. rewrite H. eauto.
Qed.

Lemma is_visited_get_node (f : string) (st : State) (k : string) :
  is_visited (get_node f st) k = is_visited st k.
Proof.
  unfold is_visited. rewrite node_at_get_node.
  destruct (node_at st k); [reflexivity|]. now destruct (String.eqb k f).
Qed.

Lemma has_edge_update (k : string) (f : Node -> Node) (st st' : State) (p c : string) :
  (forall n, children (f n) = children n) ->
  nodes st' = update k f (nodes st) ->
  has_edge st' p c <-> has_edge st p c.
Proof.
  intros Hf Hn. unfold has_edge, node_at. rewrite Hn, lookup_update.
  destruct (String.eqb k p); [|reflexivity]. split.
  - intros [n [H Hin]]. destruct (lookup (nodes st) p) as [m|]; [|discriminate].
    injection H as <-. rewrite Hf in Hin. eauto.
  - intros [n [H Hin]]. rewrite H. simpl. exists (f n). now rewrite Hf.
Qed.

Lemma flagged_update (g : Node -> bool) (k : string) (f : Node -> Node)
    (st st' : State) (c : string) :
  (forall n, g (f n) = g n) ->
  nodes st' = update k f (nodes st) ->
  flagged g st' c <-> flagged g st c.
Proof.
  intros Hf Hn. unfold flagged, node_at. rewrite Hn, lookup_update.
  destruct (String.eqb k c); [|reflexivity]. split.
  - intros [n [H Hg]]. destruct (lookup (nodes st) c) as [m|]; [|discriminate].
    injection H as <-. rewrite Hf in Hg. eauto.
  - intros [n [H Hg]]. rewrite H. simpl. exists (f n). now rewrite Hf.
Qed.

Lemma flagged_update_other (g : Node -> bool) (k : string) (f : Node -> Node)
    (st st' : State) (c : string) :
  c <> k ->
  nodes st' = update k f (nodes st) ->
  flagged g st' c <-> flagged g st c.
Proof.
  intros Hc Hn. unfold flagged, node_at. rewrite Hn, lookup_update.
  assert (String.eqb k c = false) as ->; [|reflexivity].
  apply String.eqb_neq. congruence.
Qed.

Lemma is_visited_update (k : string) (f : Node -> Node) (st st' : State) (q : string) :
  nodes st' = update k f (nodes st) ->
  is_visited st' q
  = if String.eqb k q
    then match node_at st q with Some n => visited (f n) | None => false end
    else is_visited st q.
Proof.
  intros Hn. unfold is_visited, node_at. rewrite Hn, lookup_update.
  destruct (String.eqb k q); [|reflexivity].
  now destruct (lookup (nodes st) q).
Qed.

Lemma is_visited_flagged (st : State) (k : string) :
  is_visited st k = true <-> flagged visited st k.
Proof.
  unfold is_visited, flagged. split.
  - destruct (node_at st k) as [n|]; [eauto | discriminate].
  - now intros [n [-> H]].
Qed.

(** The edges and flags after a link step. *)
Lemma link_step_facts (inc this : string) (st st1 : State) :
  add_child inc this (get_node inc st) = Some st1 ->
  (exists n, node_at st this = Some n) ->
  (forall p c, has_edge st1 p c <-> has_edge st p c \/ (p = inc /\ c = this))
  /\ (forall c, flagged has_parent st1 c -> flagged has_parent st c \/ c = this)
  /\ (forall k, is_visited st1 k = is_visited st k)
  /\ (forall k, flagged missing st1 k <-> flagged missing st k)
  /\ trace st1 = trace st.
Proof.
  intros Hadd [n0 Hthis].
  destruct (node_at_link_step inc this st st1 Hadd) as [Ht [[-> He] | [Hne Hat]]].
  - split; [|split; [|split; [|split]]]; try assumption.
    + intros p c. rewrite has_edge_get_node. split; [tauto|].
      intros [H | [-> ->]]; [assumption | now apply has_edge_get_node in He].
    + intros c H. left. now apply (flagged_get_node has_parent inc st c eq_refl).
    + intros k. apply is_visited_get_node.
    + intros k. now apply flagged_get_node.
  - split; [|split; [|split; [|split]]]; try assumption.
    + intros p c. unfold has_edge at 1. rewrite Hat. split.
      * intros [n [H Hin]].
        destruct (node_at (get_node inc st) p) as [m|] eqn:Hm; [|discriminate].
        injection H as <-. apply linked_children in Hin.
        destruct Hin as [Hin | [-> ->]]; [|now right].
        left. apply (has_edge_get_node inc st p c). now exists m.
      * intros [H | [-> ->]].
        -- apply (has_edge_get_node inc st p c) in H. destruct H as [m [Hm Hin]].
           rewrite Hm. simpl. eexists. split; [reflexivity|].
           rewrite linked_children_eq. destruct (String.eqb inc p); [|assumption].
           apply in_or_app. now left.
        -- destruct (node_at_get_node_same inc st) as [m Hm]. rewrite Hm. simpl.
           eexists. split; [reflexivity|].
           rewrite linked_children_eq, String.eqb_refl.
           apply in_or_app. right. now left.
    + intros c [n [H Hp]]. rewrite Hat in H.
      destruct (node_at (get_node inc st) c) as [m|] eqn:Hm; [|discriminate].
      injection H as <-.
      destruct (String.eqb this c) eqn:Hc;
        [apply String.eqb_eq in Hc; now right|].
      left. unfold linked in Hp. rewrite Hc in Hp.
      apply (flagged_get_node has_parent inc st c eq_refl). exists m. split; [assumption|].
      destruct (String.eqb inc c); exact Hp.
    + intros k. rewrite <- (is_visited_get_node inc st k). unfold is_visited.
      rewrite Hat. destruct (node_at (get_node inc st) k) as [m|]; [|reflexivity].
      simpl. now destruct (linked_flags inc this k m) as (-> & _).
    + intros k. rewrite <- (flagged_get_node missing inc st k eq_refl).
      unfold flagged. rewrite Hat. split.
      * intros [n [H Hm]].
        destruct (node_at (get_node inc st) k) as [m|]; [|discriminate].
        injection H as <-. destruct (linked_flags inc this k m) as (_ & Hmis & _).
        rewrite Hmis in Hm. eauto.
      * intros [n [H Hm]]. rewrite H. simpl. eexists. split; [reflexivity|].
        now destruct (linked_flags inc this k n) as (_ & -> & _).
Qed.

Lemma update_id (k : string) (g : list (string * Node)) :
  update k (fun n => n) g = g.
Proof.
  unfold update. rewrite <- (map_id g) at 2. apply map_ext. intros [q n]. simpl.
  now destruct (String.eqb k q).
Qed.

(** The edges and flags after a step that only raises flags of the node of
    [path]. *)
Lemma flag_step_facts (path : string) (f : Node -> Node) (st st' : State) :
  (forall n, children (f n) = children n) ->
  (forall n, has_parent (f n) = has_parent n) ->
  (forall n, visited n = true -> visited (f n) = true) ->
  nodes st' = update path f (nodes (get_node path st)) ->
  (forall p c, has_edge st' p c <-> has_edge st p c)
  /\ (forall c, flagged has_parent st' c <-> flagged has_parent st c)
  /\ (forall k, is_visited st k = true -> is_visited st' k = true)
  /\ (forall k, k <> path -> (flagged missing st' k <-> flagged missing st k))
  /\ (forall k, k <> path -> is_visited st' k = is_visited st k).
Proof.
  intros Hc Hp Hv Hn. split; [|split; [|split; [|split]]].
  - intros p c. rewrite (has_edge_update path f (get_node path st) st' p c Hc Hn).
    apply has_edge_get_node.
  - intros c.
    rewrite (flagged_update has_parent path f (get_node path st) st' c Hp Hn).
    now apply flagged_get_node.
  - intros k H. rewrite (is_visited_update path f (get_node path st) st' k Hn).
    rewrite <- (is_visited_get_node path st k) in H.
    destruct (String.eqb path k); [|assumption].
    unfold is_visited in H. destruct (node_at (get_node path st) k); [|discriminate].
    now apply Hv.
  - intros k Hk.
    rewrite (flagged_update_other missing path f (get_node path st) st' k Hk Hn).
    now apply flagged_get_node.
  - intros k Hk. rewrite (is_visited_update path f (get_node path st) st' k Hn).
    assert (String.eqb path k = false) as -> by (apply String.eqb_neq; congruence).
    apply is_visited_get_node.
Qed.

Lemma nodes_seen_step (E : Env) (path : string) (st : State) :
  nodes (log E ("Ignoring scanned file: " ++ path) (get_node path st))
  = update path (fun n => n) (nodes (get_node path st)).
Proof. now rewrite nodes_log, update_id. Qed.

Lemma nodes_missing_step (path : string) (st : State) :
  nodes (error (missing_msg path)
           (modify path (set_missing true)
              (modify path (set_visited true) (get_node path st))))
  = update path (fun m => set_missing true (set_visited true m))
      (nodes (get_node path st)).
Proof. simpl. apply update_update. Qed.

(** ** Edges come from include directives only *)

Lemma graph_facts_flag_step (E : Env) (path : string) (f : Node -> Node)
    (st st' : State) :
  (forall n, children (f n) = children n) ->
  (forall n, has_parent (f n) = has_parent n) ->
  (forall n, visited n = true -> visited (f n) = true) ->
  nodes st' = update path f (nodes (get_node path st)) ->
  edges_sound E st /\ parent_has_edge st ->
  edges_sound E st' /\ parent_has_edge st'.
Proof.
  intros Hc Hp Hv Hn [Hes Hpe].
  destruct (flag_step_facts path f st st' Hc Hp Hv Hn) as (He & Hhp & Hvis & _ & _).
  split.
  - intros p c H. apply He in H. destruct (Hes p c H) as (V & F & I).
    repeat split; auto.
  - intros c H. apply Hhp in H. destruct (Hpe c H) as [p Hedge].
    exists p. now apply He.
Qed.

Lemma scan_keeps_edges_aux (E : Env) (fuel : nat) (path : string) (st st' : State) :
  edges_sound E st /\ parent_has_edge st ->
  cpp_scan_file E fuel path st = Some st' ->
  edges_sound E st' /\ parent_has_edge st'.
Proof.
  apply (cpp_scan_file_ind E (fun s => edges_sound E s /\ parent_has_edge s)).
  - intros p s n H _ _.
    apply (graph_facts_flag_step E p (fun m => m) s); auto.
    apply nodes_seen_step.
  - intros p s n H _ _ _.
    apply (graph_facts_flag_step E p (fun m => set_missing true (set_visited true m)) s);
      auto.
    apply nodes_missing_step.
  - intros p s n H _ _ _.
    apply (graph_facts_flag_step E p (set_visited true) s); auto.
    apply nodes_after_read.
  - intros inc this s s1 [Hes Hpe] Hf Hv Hin Hadd.
    assert (exists n, node_at s this = Some n) as Hex.
    { unfold is_visited in Hv. destruct (node_at s this); [eauto | discriminate]. }
    destruct (link_step_facts inc this s s1 Hadd Hex) as (He & Hhp & Hvis & _ & _).
    split.
    + intros p c H. rewrite Hvis. apply He in H.
      destruct H as [H | [-> ->]]; [now apply Hes | auto].
    + intros c H. destruct (Hhp c H) as [H0 | ->].
      * destruct (Hpe c H0) as [p Hedge]. exists p. apply He. now left.
      * exists inc. apply He. now right.
Qed.

(** ** Missing nodes *)

Lemma scan_keeps_missing_aux (E : Env) (fuel : nat) (path : string) (st st' : State) :
  missing_sound E st ->
  cpp_scan_file E fuel path st = Some st' ->
  missing_sound E st'.
Proof.
  apply (cpp_scan_file_ind E (missing_sound E)).
  - intros p s n H _ _ k Hk.
    destruct (flag_step_facts p (fun m => m) s _ (fun _ => eq_refl) (fun _ => eq_refl)
                (fun _ h => h) (nodes_seen_step E p s)) as (_ & _ & Hvis & _ & _).
    assert (flagged missing s k) as Hk0.
    { apply (flagged_get_node missing p s k eq_refl).
      apply (flagged_update missing p (fun m => m) (get_node p s) _ k
               (fun _ => eq_refl) (nodes_seen_step E p s)). exact Hk. }
    destruct (H k Hk0) as [V F]. split; [now apply Hvis | assumption].
  - intros p s n H Hn Hv Hf k Hk.
    destruct (flag_step_facts p (fun m => set_missing true (set_visited true m)) s _
                (fun _ => eq_refl) (fun _ => eq_refl) (fun _ _ => eq_refl)
                (nodes_missing_step p s)) as (_ & _ & Hvis & Hmis & _).
    destruct (String.eqb p k) eqn:Hpk.
    + apply String.eqb_eq in Hpk; subst k. split; [|assumption].
      rewrite (is_visited_update p _ (get_node p s) _ p (nodes_missing_step p s)).
      now rewrite String.eqb_refl, Hn.
    + apply String.eqb_neq in Hpk.
      assert (k <> p) as Hkp by congruence.
      destruct (H k (proj1 (Hmis k Hkp) Hk)) as [V F].
      split; [now apply Hvis | assumption].
  - intros p s n H Hn Hv Hf k Hk.
    destruct (flag_step_facts p (set_visited true) s _
                (fun _ => eq_refl) (fun _ => eq_refl) (fun _ _ => eq_refl)
                (nodes_after_read E p s)) as (_ & _ & Hvis & _ & _).
    assert (flagged missing s k) as Hk0.
    { apply (flagged_get_node missing p s k eq_refl).
      apply (flagged_update missing p (set_visited true) (get_node p s) _ k
               (fun _ => eq_refl) (nodes_after_read E p s)). exact Hk. }
    destruct (H k Hk0) as [V F]. split; [now apply Hvis | assumption].
  - intros inc this s s1 H Hf Hv Hin Hadd k Hk.
    assert (exists n, node_at s this = Some n) as Hex.
    { unfold is_visited in Hv. destruct (node_at s this); [eauto | discriminate]. }
    destruct (link_step_facts inc this s s1 Hadd Hex) as (_ & _ & Hvis & Hmis & _).
    rewrite Hvis. apply H. now apply Hmis.
Qed.

(** ** Every file is read once *)

Lemma lines_read_app (a b : list event) (p : string) :
  lines_read (a ++ b) p = (lines_read a p ++ lines_read b p)%list.
Proof.
  induction a as [|e a IH]; simpl; [reflexivity|].
  destruct e; try exact IH. destruct (String.eqb path p); simpl; now rewrite IH.
Qed.

Lemma opened_app (a b : list event) :
  opened (a ++ b) = (opened a ++ opened b)%list.
Proof.
  induction a as [|e a IH]; simpl; [reflexivity|].
  destruct e; simpl; now rewrite IH.
Qed.

Lemma lines_read_prints (ps : list string) (p : string) :
  lines_read (map EvPrint ps) p = [].
Proof. induction ps; simpl; auto. Qed.

Lemma opened_prints (ps : list string) : opened (map EvPrint ps) = [].
Proof. induction ps; simpl; auto. Qed.

Lemma log_prints (E : Env) (s : string) (st : State) :
  exists ps, trace (log E s st) = (trace st ++ map EvPrint ps)%list.
Proof. destruct (only_prints_log E s st) as (_ & _ & _ & H). exact H. Qed.

Lemma scan_line_prints (E : Env) (path dir_path : string) (line_num : nat)
    (line : string) (includes : list string) (st : State) :
  exists ps, trace (snd (scan_line E path dir_path line_num line includes st))
             = (trace st ++ map EvPrint ps)%list.
Proof.
  unfold scan_line.
  destruct (CPP_INC_PATTERN_match line) as [[[first inc] last]|]; simpl.
  - destruct (mismatched first last); simpl.
    + now exists [("ERROR: " ++ invalid_directive_msg path line_num line)].
    + destruct (path_split _) as [base_dir inc_file].
      destruct (is_sys_header_path E base_dir); simpl; apply log_prints.
  - exists []. simpl. now rewrite app_nil_r.
Qed.

(** The events of the loop over the lines: the lines of the file, in order,
    with printed lines in between. *)
Lemma scan_lines_events (E : Env) (path dir_path : string) (lines : list string) :
  forall (line_num : nat) (includes : list string) (st : State),
  exists evs,
    trace (snd (scan_lines E path dir_path lines line_num includes st))
    = (trace st ++ evs)%list
    /\ opened evs = []
    /\ forall q, lines_read evs q = if String.eqb path q then lines else [].
Proof.
  induction lines as [|line rest IH]; intros line_num includes st; simpl.
  - exists []. rewrite app_nil_r. repeat split. intros q.
    now destruct (String.eqb path q).
  - destruct (scan_line_prints E path dir_path line_num line includes
                (emit (EvLine path line) st)) as [ps Hps].
    destruct (scan_line E path dir_path line_num line includes
                (emit (EvLine path line) st)) as [includes' st1].
    simpl in Hps.
    destruct (IH (S line_num) includes' st1) as (evs & Ht & Ho & Hl).
    exists (EvLine path line :: map EvPrint ps ++ evs)%list. split; [|split].
    + rewrite Ht, Hps. simpl. now rewrite <- !app_assoc.
    + simpl. now rewrite opened_app, opened_prints, Ho.
    + intros q. simpl. rewrite lines_read_app, lines_read_prints, Hl. simpl.
      now destruct (String.eqb path q).
Qed.

Lemma after_read_events (E : Env) (path : string) (st : State) :
  exists evs,
    trace (after_read E path st) = (trace st ++ evs)%list
    /\ opened evs = [path]
    /\ forall q, lines_read evs q
                 = if String.eqb path q then read_lines (fs E) path else [].
Proof.
  destruct (scan_lines_events E path (fst (path_split path))
              (read_lines (fs E) path) 1 []
              (emit (EvOpen path)
                 (log E ("Scanning " ++ path)
                    (modify path (set_visited true) (get_node path st)))))
    as (evs & Ht & Ho & Hl).
  fold (read_state E path st) in Ht.
  destruct (log_prints E ("Scanning " ++ path)
              (modify path (set_visited true) (get_node path st))) as [ps Hps].
  exists (map EvPrint ps ++ [EvOpen path] ++ evs ++ [EvClose path])%list.
  split; [|split].
  - unfold after_read. rewrite trace_emit, Ht, trace_emit, Hps.
    change (trace (modify path (set_visited true) (get_node path st)))
      with (trace (get_node path st)).
    rewrite trace_get_node. now rewrite <- !app_assoc.
  - rewrite !opened_app, opened_prints, Ho. reflexivity.
  - intros q. rewrite !lines_read_app, lines_read_prints, Hl. simpl.
    now rewrite app_nil_r.
Qed.

Lemma unvisited_before (path : string) (st : State) (n : Node) :
  node_at (get_node path st) path = Some n -> visited n = false ->
  is_visited st path = false.
Proof.
  intros Hn Hv. rewrite <- (is_visited_get_node path st path).
  unfold is_visited. now rewrite Hn.
Qed.

Lemma is_visited_nodes (st st' : State) (q : string) :
  nodes st' = nodes st -> is_visited st' q = is_visited st q.
Proof. unfold is_visited, node_at. now intros ->. Qed.

Lemma scan_keeps_read_once_aux (E : Env) (fuel : nat) (path : string)
    (st st' : State) :
  read_once E st -> cpp_scan_file E fuel path st = Some st' -> read_once E st'.
Proof.
  apply (cpp_scan_file_ind E (read_once E)).
  - (* already seen *)
    intros p s n (Hl & Hnd & Ho) _ _.
    destruct (log_prints E ("Ignoring scanned file: " ++ p) (get_node p s))
      as [ps Hps]. rewrite trace_get_node in Hps.
    assert (Hvis : forall q, is_visited
                     (log E ("Ignoring scanned file: " ++ p) (get_node p s)) q
                   = is_visited s q).
    { intros q. rewrite (is_visited_nodes (get_node p s)); [|apply nodes_log].
      apply is_visited_get_node. }
    split; [|split].
    + intros q. rewrite Hps, lines_read_app, lines_read_prints, app_nil_r, Hvis.
      apply Hl.
    + now rewrite Hps, opened_app, opened_prints, app_nil_r.
    + intros q. rewrite Hps, opened_app, opened_prints, app_nil_r, Hvis. apply Ho.
  - (* missing *)
    intros p s n (Hl & Hnd & Ho) Hn Hv Hf.
    destruct (flag_step_facts p (fun m => set_missing true (set_visited true m)) s _
                (fun _ => eq_refl) (fun _ => eq_refl) (fun _ _ => eq_refl)
                (nodes_missing_step p s)) as (_ & _ & Hmono & _ & Hsame).
    assert (Ht : trace (error (missing_msg p)
                    (modify p (set_missing true)
                       (modify p (set_visited true) (get_node p s))))
                 = (trace s ++ map EvPrint [("ERROR: " ++ missing_msg p)%string])%list).
    { simpl. now rewrite trace_get_node. }
    split; [|split].
    + intros q. rewrite Ht, lines_read_app, lines_read_prints, app_nil_r, Hl.
      destruct (String.eqb p q) eqn:Hpq.
      * apply String.eqb_eq in Hpq; subst q. now rewrite Hf, !andb_false_r.
      * apply String.eqb_neq in Hpq. rewrite Hsame; [reflexivity | congruence].
    + now rewrite Ht, opened_app, opened_prints, app_nil_r.
    + intros q. rewrite Ht, opened_app, opened_prints, app_nil_r. intros Hq.
      destruct (Ho q Hq) as [V F]. split; [now apply Hmono | assumption].
  - (* read *)
    intros p s n (Hl & Hnd & Ho) Hn Hv Hf.
    destruct (flag_step_facts p (set_visited true) s _
                (fun _ => eq_refl) (fun _ => eq_refl) (fun _ _ => eq_refl)
                (nodes_after_read E p s)) as (_ & _ & Hmono & _ & Hsame).
    destruct (after_read_events E p s) as (evs & Ht & Hop & Hlr).
    pose proof (unvisited_before p s n Hn Hv) as V0.
    pose proof (proj2 (after_read_ext E p s)) as V1.
    split; [|split].
    + intros q. rewrite Ht, lines_read_app, Hlr, Hl.
      destruct (String.eqb p q) eqn:Hpq.
      * apply String.eqb_eq in Hpq; subst q. now rewrite V0, V1, Hf.
      * apply String.eqb_neq in Hpq.
        rewrite Hsame; [now rewrite app_nil_r | congruence].
    + rewrite Ht, opened_app, Hop. apply NoDup_snoc; [assumption|].
      intros Hin. destruct (Ho p Hin) as [V _]. congruence.
    + intros q. rewrite Ht, opened_app, Hop. intros Hq.
      apply in_app_or in Hq. destruct Hq as [Hq | [<- | []]].
      * destruct (Ho q Hq) as [V F]. split; [now apply Hmono | assumption].
      * now split.
  - (* link *)
    intros inc this s s1 (Hl & Hnd & Ho) Hf Hv Hin Hadd.
    assert (exists n, node_at s this = Some n) as Hex.
    { unfold is_visited in Hv. destruct (node_at s this); [eauto | discriminate]. }
    destruct (link_step_facts inc this s s1 Hadd Hex) as (_ & _ & Hvis & _ & Ht).
    split; [|split].
    + intros q. rewrite Ht, Hvis. apply Hl.
    + now rewrite Ht.
    + intros q. rewrite Ht, Hvis. apply Ho.
Qed.

(** ** No node is left unvisited *)

Lemma all_visited_flag_step (path : string) (f : Node -> Node) (st st' : State) :
  (forall n, visited n = true -> visited (f n) = true) ->
  nodes st' = update path f (nodes (get_node path st)) ->
  (exists n, node_at st' path = Some n /\ visited n = true) ->
  visited_except path st -> all_visited st'.
Proof.
  intros Hf Hn [n0 [Hn0 Hv0]] HQ k n Hk.
  destruct (String.eqb path k) eqn:Hpk.
  - apply String.eqb_eq in Hpk; subst k. congruence.
  - unfold node_at in Hk. rewrite Hn, lookup_update, Hpk in Hk.
    fold (node_at (get_node path st) k) in Hk. rewrite node_at_get_node in Hk.
    apply String.eqb_neq in Hpk.
    destruct (node_at st k) as [m|] eqn:Hm.
    + injection Hk as <-. apply (HQ k m Hm). congruence.
    + destruct (String.eqb k path) eqn:Hkp; [|discriminate].
      apply String.eqb_eq in Hkp. congruence.
Qed.

Lemma visited_except_link (inc this : string) (st st1 : State) :
  add_child inc this (get_node inc st) = Some st1 ->
  all_visited st -> visited_except inc st1.
Proof.
  intros Hadd HQ k n Hk Hne.
  assert (Hg : forall m, node_at (get_node inc st) k = Some m -> visited m = true).
  { intros m Hm. rewrite node_at_get_node in Hm.
    destruct (node_at st k) as [m'|] eqn:Hm'.
    - injection Hm as <-. now apply (HQ k).
    - destruct (String.eqb k inc) eqn:Hki; [|discriminate].
      apply String.eqb_eq in Hki. congruence. }
  destruct (node_at_link_step inc this st st1 Hadd) as [_ [[-> _] | [_ Hat]]].
  - now apply Hg.
  - rewrite Hat in Hk.
    destruct (node_at (get_node inc st) k) as [m|] eqn:Hm; [|discriminate].
    injection Hk as <-. destruct (linked_flags inc this k m) as (-> & _).
    now apply Hg.
Qed.

Lemma link_includes_all_visited (scan : string -> State -> option State)
    (this : string) :
  (forall inc st st', visited_except inc st -> scan inc st = Some st' ->
                      all_visited st') ->
  forall includes st st',
  all_visited st -> link_includes scan this includes st = Some st' ->
  all_visited st'.
Proof.
  intros Hscan. induction includes as [|inc rest IH]; intros st st' HQ; simpl.
  - now intros [= <-].
  - destruct (add_child inc this (get_node inc st)) as [st1|] eqn:Hadd;
      [|discriminate].
    destruct (scan inc st1) as [st2|] eqn:Hs; [|discriminate].
    apply IH. apply (Hscan inc st1 st2); [|assumption].
    now apply (visited_except_link inc this st st1).
Qed.

Lemma cpp_scan_file_all_visited (E : Env) (fuel : nat) :
  forall path st st',
  visited_except path st -> cpp_scan_file E fuel path st = Some st' ->
  all_visited st'.
Proof.
  induction fuel as [|fuel IH]; intros path st st' HQ H; [discriminate|].
  destruct (node_at_get_node_same path st) as [n Hn].
  destruct (visited n) eqn:Hv.
  - rewrite (cpp_scan_file_seen E fuel path st n Hn Hv) in H. injection H as <-.
    apply (all_visited_flag_step path (fun m => m) st); auto.
    + apply nodes_seen_step.
    + exists n. now rewrite node_at_log.
  - destruct (isfile (fs E) path) eqn:Hf.
    + rewrite (cpp_scan_file_unfold E fuel path st n Hn Hv Hf) in H.
      apply (link_includes_all_visited (cpp_scan_file E fuel) path IH
               (includes_of E path) (after_read E path st) st'); [|assumption].
      apply (all_visited_flag_step path (set_visited true) st); auto.
      * apply nodes_after_read.
      * apply is_visited_flagged. apply after_read_ext.
    + rewrite (cpp_scan_file_missing E fuel path st n Hn Hv Hf) in H.
      injection H as <-.
      apply (all_visited_flag_step path
               (fun m => set_missing true (set_visited true m)) st); auto.
      * apply nodes_missing_step.
      * exists (set_missing true (set_visited true n)).
        rewrite node_at_missing_step, String.eqb_refl, Hn. now split.
Qed.

(** ** Every include of a visited file has its edge *)

Lemma complete_except_flag_step (E : Env) (S S' : list string) (path : string)
    (f : Node -> Node) (st st' : State) :
  (forall n, children (f n) = children n) ->
  (forall n, has_parent (f n) = has_parent n) ->
  (forall n, visited n = true -> visited (f n) = true) ->
  nodes st' = update path f (nodes (get_node path st)) ->
  (forall A, is_visited st' A = true -> isfile (fs E) A = true -> ~ In A S' ->
             ~ In A S /\ is_visited st A = true) ->
  complete_except E S st -> complete_except E S' st'.
Proof.
  intros Hc Hp Hv Hn HS HC A VA FA NA B HB.
  destruct (flag_step_facts path f st st' Hc Hp Hv Hn) as (He & _).
  apply He. destruct (HS A VA FA NA) as [NS V]. now apply (HC A).
Qed.

Section LinkComplete.
Variable E : Env.
Variable S : list string.
Variable scan : string -> State -> option State.
Variable this : string.
Hypothesis scan_sound : forall inc st st',
  scan inc st = Some st' -> ext st st' /\ (scan_inv E st -> scan_inv E st').
Hypothesis scan_complete : forall inc st st',
  scan_inv E st -> complete_except E S st -> scan inc st = Some st' ->
  complete_except E S st'.

Lemma link_includes_complete (includes : list string) :
  forall st st',
  is_visited st this = true -> scan_inv E st -> complete_except E S st ->
  link_includes scan this includes st = Some st' ->
  complete_except E S st'.
Proof.
  induction includes as [|inc rest IH]; intros st st' Hv I HC; simpl.
  - now intros [= <-].
  - destruct (add_child inc this (get_node inc st)) as [st1|] eqn:Hadd;
      [|discriminate].
    destruct (scan inc st1) as [st2|] eqn:Hs; [|discriminate].
    assert (exists n, node_at st this = Some n) as [n0 Hn0].
    { unfold is_visited in Hv. destruct (node_at st this); [eauto | discriminate]. }
    destruct (link_step_facts inc this st st1 Hadd (ex_intro _ n0 Hn0))
      as (He & _ & Hvis & _ & _).
    destruct (proj1 (ext_get_node inc st) _ _ Hn0) as [ng [Hng _]].
    destruct (add_child_inv E inc this (get_node inc st) st1 ng
                (scan_inv_get_node E inc st I) Hng Hadd) as (I1 & _ & _).
    destruct (scan_sound inc st1 st2 Hs) as [E12 I12].
    apply IH.
    + apply (ext_is_visited st1 st2 this E12). now rewrite Hvis.
    + now apply I12.
    + apply (scan_complete inc st1 st2 I1); [|assumption].
      intros A VA FA NA B HB. apply He. left. apply (HC A); auto.
      now rewrite <- Hvis.
Qed.
End LinkComplete.

Lemma cpp_scan_file_complete (E : Env) (fuel : nat) :
  forall S path st st',
  scan_inv E st -> complete_except E S st ->
  cpp_scan_file E fuel path st = Some st' ->
  complete_except E S st'.
Proof.
  induction fuel as [|fuel IH]; intros S path st st' I HC H; [discriminate|].
  pose proof H as H0.
  destruct (node_at_get_node_same path st) as [n Hn].
  destruct (visited n) eqn:Hv.
  - rewrite (cpp_scan_file_seen E fuel path st n Hn Hv) in H. injection H as <-.
    apply (complete_except_flag_step E S S path (fun m => m) st); auto.
    + apply nodes_seen_step.
    + intros A VA _ NA. split; [assumption|].
      rewrite (is_visited_nodes (get_node path st)) in VA; [|apply nodes_log].
      now rewrite is_visited_get_node in VA.
  - pose proof (unvisited_before path st n Hn Hv) as V0.
    destruct (isfile (fs E) path) eqn:Hf.
    + rewrite (cpp_scan_file_unfold E fuel path st n Hn Hv Hf) in H.
      destruct (flag_step_facts path (set_visited true) st (after_read E path st)
                  (fun _ => eq_refl) (fun _ => eq_refl) (fun _ _ => eq_refl)
                  (nodes_after_read E path st)) as (_ & _ & _ & _ & Hsame).
      assert (HC1 : complete_except E (path :: S) (after_read E path st)).
      { apply (complete_except_flag_step E S (path :: S) path (set_visited true) st);
          auto; [apply nodes_after_read|].
        intros A VA _ NA. split; [intros HA; apply NA; now right|].
        rewrite <- (Hsame A); [assumption|]. intros ->. apply NA. now left. }
      assert (I1 : scan_inv E (after_read E path st)).
      { destruct (after_read_ext E path st) as [[_ T] _].
        apply (scan_inv_flags E path (set_visited true) (get_node path st));
          [ now apply scan_inv_get_node | intros m; now split
          | apply nodes_after_read | now rewrite trace_get_node | congruence ]. }
      pose proof (link_includes_complete E (path :: S) (cpp_scan_file E fuel) path
                    (cpp_scan_file_sound E fuel) (IH (path :: S))
                    (includes_of E path) (after_read E path st) st'
                    (proj2 (after_read_ext E path st)) I1 HC1 H) as HC2.
      intros A VA FA NA B HB.
      destruct (String.eqb A path) eqn:HAp.
      * apply String.eqb_eq in HAp; subst A.
        exact (proj1 (cpp_scan_file_edges E (Datatypes.S fuel) path st st' I Hf V0 H0
                        B HB)).
      * apply String.eqb_neq in HAp. apply (HC2 A); auto.
        intros [HA | HA]; [congruence | now apply NA].
    + rewrite (cpp_scan_file_missing E fuel path st n Hn Hv Hf) in H.
      injection H as <-.
      destruct (flag_step_facts path (fun m => set_missing true (set_visited true m))
                  st _ (fun _ => eq_refl) (fun _ => eq_refl) (fun _ _ => eq_refl)
                  (nodes_missing_step path st)) as (_ & _ & _ & _ & Hsame).
      apply (complete_except_flag_step E S S path
               (fun m => set_missing true (set_visited true m)) st); auto.
      * apply nodes_missing_step.
      * intros A VA FA NA. split; [assumption|].
        rewrite <- (Hsame A); [assumption|]. intros ->. congruence.
Qed.

(** ** The state between two top-level calls *)

Lemma scan_done_initial (E : Env) : scan_done E initial_state.
Proof.
  split; [apply scan_inv_initial|].
  split; [intros p c [n [H _]]; discriminate|].
  split; [intros c [n [H _]]; discriminate|].
  split; [intros k [n [H _]]; discriminate|].
  split; [intros k n H; discriminate|].
  intros A V. discriminate.
Qed.

Lemma scan_done_step (E : Env) (fuel : nat) (path : string) (st st' : State) :
  scan_done E st -> cpp_scan_file E fuel path st = Some st' -> scan_done E st'.
Proof.
  intros (I & Es & Pe & Ms & Av & Co) H.
  destruct (scan_keeps_edges_aux E fuel path st st' (conj Es Pe) H) as [Es' Pe'].
  split; [now apply (proj2 (cpp_scan_file_sound E fuel path st st' H))|].
  split; [assumption|]. split; [assumption|].
  split; [now apply (scan_keeps_missing_aux E fuel path st st')|].
  split.
  - apply (cpp_scan_file_all_visited E fuel path st st'); [|assumption].
    intros k n Hk _. now apply (Av k).
  - now apply (cpp_scan_file_complete E fuel [] path st st').
Qed.

Lemma scan_done_edges (E : Env) (st : State) (A B : string) :
  scan_done E st ->
  (has_edge st B A <->
   (exists n, node_at st A = Some n) /\ isfile (fs E) A = true
   /\ In B (includes_of E A)).
Proof.
  intros (I & Es & Pe & Ms & Av & Co). split.
  - intros H. destruct (Es B A H) as (V & F & Hin).
    repeat split; try assumption.
    unfold is_visited in V. destruct (node_at st A); [eauto | discriminate].
  - intros ([n Hn] & F & Hin). apply (Co A); auto.
    unfold is_visited. rewrite Hn. now apply (Av A).
Qed.

Lemma In_includes_of (E : Env) (A B : string) :
  In B (includes_of E A) <->
  resolves_to E A B /\ is_sys_header_path E (fst (path_split B)) = false.
Proof.
  split.
  - rewrite includes_of_flat_map. intros H. apply in_flat_map in H.
    destruct H as [line [Hl Hb]]. unfold line_includes in Hb.
    destruct (include_directive E A line) as [inc|] eqn:Hd; [|destruct Hb].
    destruct (is_sys_header_path E (fst (path_split inc))) eqn:Hs; [destruct Hb|].
    destruct Hb as [<- | []]. split; [|assumption]. now exists line.
  - intros [Hr Hs]. now apply resolves_to_included.
Qed.

(** ** More fuel changes nothing *)

Lemma link_includes_mono (scan1 scan2 : string -> State -> option State)
    (this : string) :
  (forall inc st st', scan1 inc st = Some st' -> scan2 inc st = Some st') ->
  forall includes st st',
  link_includes scan1 this includes st = Some st' ->
  link_includes scan2 this includes st = Some st'.
Proof.
  intros Hs. induction includes as [|inc rest IH]; intros st st'; simpl; [auto|].
  destruct (add_child inc this (get_node inc st)) as [st1|]; [|discriminate].
  destruct (scan1 inc st1) as [st2|] eqn:H1; [|discriminate].
  rewrite (Hs inc st1 st2 H1). apply IH.
Qed.

Lemma cpp_scan_file_fuel_S (E : Env) (fuel : nat) :
  forall path st st',
  cpp_scan_file E fuel path st = Some st' ->
  cpp_scan_file E (S fuel) path st = Some st'.
Proof.
  induction fuel as [|fuel IH]; intros path st st' H; [discriminate|].
  destruct (node_at_get_node_same path st) as [n Hn].
  destruct (visited n) eqn:Hv.
  - rewrite (cpp_scan_file_seen E fuel path st n Hn Hv) in H.
    now rewrite (cpp_scan_file_seen E (S fuel) path st n Hn Hv).
  - destruct (isfile (fs E) path) eqn:Hf.
    + rewrite (cpp_scan_file_unfold E fuel path st n Hn Hv Hf) in H.
      rewrite (cpp_scan_file_unfold E (S fuel) path st n Hn Hv Hf).
      now apply (link_includes_mono (cpp_scan_file E fuel)).
    + rewrite (cpp_scan_file_missing E fuel path st n Hn Hv Hf) in H.
      now rewrite (cpp_scan_file_missing E (S fuel) path st n Hn Hv Hf).
Qed.

Lemma cpp_scan_file_fuel_le (E : Env) (fuel fuel' : nat) (path : string)
    (st st' : State) :
  fuel <= fuel' ->
  cpp_scan_file E fuel path st = Some st' ->
  cpp_scan_file E fuel' path st = Some st'.
Proof.
  induction 1 as [|m _ IH]; [auto|].
  intros H. now apply cpp_scan_file_fuel_S, IH.
Qed.



(** ** [log] keeps the invariants *)

Lemma scan_done_log (E : Env) (s : string) (st : State) :
  scan_done E st -> scan_done E (log E s st).
Proof.
  intros (I & Es & Pe & Ms & Av & Co).
  assert (Hn : forall k, node_at (log E s st) k = node_at st k)
    by (intros k; apply node_at_log).
  assert (Hv : forall k, is_visited (log E s st) k = is_visited st k)
    by (intros k; apply is_visited_nodes, nodes_log).
  assert (He : forall p c, has_edge (log E s st) p c <-> has_edge st p c)
    by (intros p c; unfold has_edge; now rewrite Hn).
  assert (Hf : forall g k, flagged g (log E s st) k <-> flagged g st k)
    by (intros g k; unfold flagged; now rewrite Hn).
  split; [now apply scan_inv_log|].
  split; [intros p c H; rewrite Hv; apply Es; now apply He|].
  split; [intros c H; apply Hf in H; destruct (Pe c H) as [p Hp]; exists p;
          now apply He|].
  split; [intros k H; rewrite Hv; apply Ms; now apply Hf|].
  split; [intros k n H; rewrite Hn in H; now apply (Av k)|].
  intros A VA FA NA B HB. apply He. apply (Co A); auto. now rewrite <- Hv.
Qed.

Lemma registry_log (E : Env) (s : string) (st : State) :
  graph_keyed st /\ children_nodup st ->
  graph_keyed (log E s st) /\ children_nodup (log E s st).
Proof.
  intros [K C]. split.
  - apply (graph_keyed_same_nodes st); [apply nodes_log | assumption].
  - intros k n H. rewrite node_at_log in H. now apply (C k).
Qed.

Lemma read_once_log (E : Env) (s : string) (st : State) :
  read_once E st -> read_once E (log E s st).
Proof.
  intros (Hl & Hnd & Ho). destruct (log_prints E s st) as [ps Hps].
  assert (Hv : forall k, is_visited (log E s st) k = is_visited st k)
    by (intros k; apply is_visited_nodes, nodes_log).
  split; [|split].
  - intros q. rewrite Hps, lines_read_app, lines_read_prints, app_nil_r, Hv.
    apply Hl.
  - now rewrite Hps, opened_app, opened_prints, app_nil_r.
  - intros q. rewrite Hps, opened_app, opened_prints, app_nil_r, Hv. apply Ho.
Qed.

Lemma scanned_read_once (E : Env) (st : State) : scanned E st -> read_once E st.
Proof.
  induction 1 as [|st st' fuel path _ IH H | st s _ IH].
  - split; [|split].
    + intros p. reflexivity.
    + constructor.
    + intros p [].
  - now apply (scan_keeps_read_once_aux E fuel path st st').
  - now apply read_once_log.
Qed.

(** ** Directory scanning *)

Lemma tracked_not_ignored (ext : string) :
  str_in ext CPP_FILE_TYPES = true -> str_in ext IGNORE_LIST = false.
Proof.
  unfold str_in. intros H. apply existsb_eqb_In in H.
  destruct H as [<- | [<- | [<- | []]]]; reflexivity.
Qed.

Lemma scan_dir_files_cons (E : Env) (ffuel : nat) (dirpath file : string)
    (rest : list string) (st : State) :
  scan_dir_files E ffuel dirpath (file :: rest) st
  = if isfile (fs E) (path_join dirpath file) then
      if str_in (entry_ext file) IGNORE_LIST then
        scan_dir_files E ffuel dirpath rest (log E ("Ignoring " ++ file) st)
      else if str_in (entry_ext file) CPP_FILE_TYPES then
        match cpp_scan_file E ffuel (path_join dirpath file) st with
        | None => None
        | Some st' => scan_dir_files E ffuel dirpath rest st'
        end
      else scan_dir_files E ffuel dirpath rest st
    else scan_dir_files E ffuel dirpath rest st.
Proof.
  unfold entry_ext. cbn [scan_dir_files].
  now destruct (splitext ("x" ++ file)) as [name ext].
Qed.

Lemma scan_subdirs_cons (E : Env) (D : DirSystem)
    (rec : string -> State -> option State) (dirpath file : string)
    (rest : list string) (st : State) :
  scan_subdirs E D rec dirpath (file :: rest) st
  = if isdir D (path_join dirpath file) then
      if str_in (entry_ext file) IGNORE_LIST then
        scan_subdirs E D rec dirpath rest (log E ("Ignoring " ++ file) st)
      else
        match rec (path_join dirpath file) st with
        | None => None
        | Some st' => scan_subdirs E D rec dirpath rest st'
        end
    else scan_subdirs E D rec dirpath rest st.
Proof.
  unfold entry_ext. cbn [scan_subdirs].
  now destruct (splitext ("x" ++ file)) as [name ext].
Qed.

Lemma cpp_scan_dir_S (E : Env) (D : DirSystem) (ffuel fuel : nat)
    (dirpath : string) (st : State) :
  cpp_scan_dir E D ffuel (S fuel) dirpath st
  = match scan_dir_files E ffuel dirpath (listdir D dirpath)
            (log E ("Scanning dir " ++ dirpath) st) with
    | None => None
    | Some st1 =>
        scan_subdirs E D (cpp_scan_dir E D ffuel fuel) dirpath
          (listdir D dirpath) st1
    end.
Proof. reflexivity. Qed.

Section DirLoops.
Variable E : Env.
Variable D : DirSystem.
Variable P : State -> Prop.
Hypothesis P_log : forall s st, P st -> P (log E s st).
Hypothesis P_scan : forall fuel path st st',
  P st -> cpp_scan_file E fuel path st = Some st' -> P st'.

Lemma scan_dir_files_ind (ffuel : nat) (dirpath : string) (files : list string) :
  forall st st', P st -> scan_dir_files E ffuel dirpath files st = Some st' -> P st'.
Proof.
  induction files as [|file rest IH]; intros st st' HP.
  - now intros [= <-].
  - rewrite scan_dir_files_cons.
    destruct (isfile (fs E) (path_join dirpath file)); [|now apply IH].
    destruct (str_in (entry_ext file) IGNORE_LIST); [apply IH; now apply P_log|].
    destruct (str_in (entry_ext file) CPP_FILE_TYPES); [|now apply IH].
    destruct (cpp_scan_file E ffuel (path_join dirpath file) st) as [st1|] eqn:Hs;
      [|discriminate].
    apply IH. now apply (P_scan ffuel (path_join dirpath file) st).
Qed.

Lemma scan_subdirs_ind (rec : string -> State -> option State)
    (dirpath : string) (files : list string) :
  (forall path st st', P st -> rec path st = Some st' -> P st') ->
  forall st st', P st -> scan_subdirs E D rec dirpath files st = Some st' -> P st'.
Proof.
  intros Hrec. induction files as [|file rest IH]; intros st st' HP.
  - now intros [= <-].
  - rewrite scan_subdirs_cons.
    destruct (isdir D (path_join dirpath file)); [|now apply IH].
    destruct (str_in (entry_ext file) IGNORE_LIST); [apply IH; now apply P_log|].
    destruct (rec (path_join dirpath file) st) as [st1|] eqn:Hs; [|discriminate].
    apply IH. now apply (Hrec (path_join dirpath file) st).
Qed.

Lemma cpp_scan_dir_ind (ffuel fuel : nat) :
  forall dirpath st st',
  P st -> cpp_scan_dir E D ffuel fuel dirpath st = Some st' -> P st'.
Proof.
  induction fuel as [|fuel IH]; intros dirpath st st' HP H; [discriminate|].
  rewrite cpp_scan_dir_S in H.
  destruct (scan_dir_files E ffuel dirpath (listdir D dirpath)
              (log E ("Scanning dir " ++ dirpath) st)) as [st1|] eqn:H1;
    [|discriminate].
  apply (scan_subdirs_ind (cpp_scan_dir E D ffuel fuel) dirpath
           (listdir D dirpath) IH st1 st'); [|assumption].
  apply (scan_dir_files_ind ffuel dirpath (listdir D dirpath)
           (log E ("Scanning dir " ++ dirpath) st) st1); [|assumption].
  now apply P_log.
Qed.
End DirLoops.

Lemma cpp_scan_dir_scanned (E : Env) (D : DirSystem) (ffuel fuel : nat)
    (dirpath : string) (st st' : State) :
  scanned E st -> cpp_scan_dir E D ffuel fuel dirpath st = Some st' ->
  scanned E st'.
Proof.
  apply (cpp_scan_dir_ind E D (scanned E)).
  - intros s s0 H. now apply scanned_log.
  - intros f p s0 s1 H Hs. now apply (scanned_step E s0 s1 f p).
Qed.

Lemma cpp_scan_dir_ext (E : Env) (D : DirSystem) (ffuel fuel : nat)
    (dirpath : string) (st st' : State) :
  cpp_scan_dir E D ffuel fuel dirpath st = Some st' -> ext st st'.
Proof.
  apply (cpp_scan_dir_ind E D (ext st)); [| |apply ext_refl].
  - intros s s0 H. eapply ext_trans; [exact H | apply ext_log].
  - intros f p s0 s1 H Hs. eapply ext_trans; [exact H|].
    now apply (cpp_scan_file_sound E f p s0 s1).
Qed.

Lemma scan_dir_files_ext (E : Env) (ffuel : nat) (dirpath : string)
    (files : list string) (st st' : State) :
  scan_dir_files E ffuel dirpath files st = Some st' -> ext st st'.
Proof.
  apply (scan_dir_files_ind E (ext st)); [| |apply ext_refl].
  - intros s s0 H. eapply ext_trans; [exact H | apply ext_log].
  - intros f p s0 s1 H Hs. eapply ext_trans; [exact H|].
    now apply (cpp_scan_file_sound E f p s0 s1).
Qed.

Lemma scan_subdirs_ext (E : Env) (D : DirSystem)
    (rec : string -> State -> option State) (dirpath : string)
    (files : list string) (st st' : State) :
  (forall path s s', rec path s = Some s' -> ext s s') ->
  scan_subdirs E D rec dirpath files st = Some st' -> ext st st'.
Proof.
  intros Hrec.
  apply (scan_subdirs_ind E D (ext st)); [| |apply ext_refl].
  - intros s s0 H. eapply ext_trans; [exact H | apply ext_log].
  - intros p s0 s1 H Hs. eapply ext_trans; [exact H | now apply (Hrec p)].
Qed.

(** The first loop visits every tracked file of the directory. *)
Lemma scan_dir_files_visits (E : Env) (ffuel : nat) (dirpath : string)
    (files : list string) :
  forall st st' file,
  scan_dir_files E ffuel dirpath files st = Some st' ->
  In file files -> isfile (fs E) (path_join dirpath file) = true ->
  str_in (entry_ext file) CPP_FILE_TYPES = true ->
  is_visited st' (path_join dirpath file) = true.
Proof.
  induction files as [|f rest IH]; intros st st' file H Hin Hf Hx; [destruct Hin|].
  destruct Hin as [-> | Hin].
  - rewrite scan_dir_files_cons, Hf, (tracked_not_ignored _ Hx), Hx in H.
    destruct (cpp_scan_file E ffuel (path_join dirpath file) st) as [st1|] eqn:Hs;
      [|discriminate].
    apply (ext_is_visited st1 st'); [now apply scan_dir_files_ext in H|].
    now apply (cpp_scan_file_visited E ffuel _ st st1).
  - rewrite scan_dir_files_cons in H.
    destruct (isfile (fs E) (path_join dirpath f)); [|now apply (IH st st')].
    destruct (str_in (entry_ext f) IGNORE_LIST); [eapply IH; eassumption|].
    destruct (str_in (entry_ext f) CPP_FILE_TYPES); [|now apply (IH st st')].
    destruct (cpp_scan_file E ffuel (path_join dirpath f) st) as [st1|];
      [|discriminate].
    now apply (IH st1 st').
Qed.

(** The second loop calls [rec] on every sub directory that is not
    ignored. *)
Lemma scan_subdirs_calls (E : Env) (D : DirSystem)
    (rec : string -> State -> option State) (dirpath : string)
    (files : list string) :
  (forall path s s', rec path s = Some s' -> ext s s') ->
  forall st st' sub,
  scan_subdirs E D rec dirpath files st = Some st' ->
  In sub files -> isdir D (path_join dirpath sub) = true ->
  str_in (entry_ext sub) IGNORE_LIST = false ->
  exists s s', rec (path_join dirpath sub) s = Some s' /\ ext s' st'.
Proof.
  intros Hrec.
  induction files as [|f rest IH]; intros st st' sub H Hin Hd Hx; [destruct Hin|].
  destruct Hin as [-> | Hin].
  - rewrite scan_subdirs_cons, Hd, Hx in H.
    destruct (rec (path_join dirpath sub) st) as [st1|] eqn:Hs; [|discriminate].
    exists st, st1. split; [assumption|].
    now apply (scan_subdirs_ext E D rec dirpath rest st1 st' Hrec).
  - rewrite scan_subdirs_cons in H.
    destruct (isdir D (path_join dirpath f)); [|now apply (IH st st')].
    destruct (str_in (entry_ext f) IGNORE_LIST); [eapply IH; eassumption|].
    destruct (rec (path_join dirpath f) st) as [st1|]; [|discriminate].
    now apply (IH st1 st').
Qed.

Lemma cpp_scan_dir_visits (E : Env) (D : DirSystem) (ffuel : nat)
    (dirpath path : string) :
  dir_source E D dirpath path ->
  forall fuel st st',
  cpp_scan_dir E D ffuel fuel dirpath st = Some st' ->
  is_visited st' path = true.
Proof.
  induction 1 as [dirpath file Hin Hf Hx | dirpath sub path Hin Hd Hx _ IH];
    intros fuel st st' H; (destruct fuel as [|fuel]; [discriminate|]);
    rewrite cpp_scan_dir_S in H;
    destruct (scan_dir_files E ffuel dirpath (listdir D dirpath)
                (log E ("Scanning dir " ++ dirpath) st)) as [st1|] eqn:H1;
    try discriminate.
  - apply (ext_is_visited st1 st').
    + apply (scan_subdirs_ext E D (cpp_scan_dir E D ffuel fuel) dirpath
               (listdir D dirpath) st1 st'); [|assumption].
      intros p s s'. apply cpp_scan_dir_ext.
    + eapply scan_dir_files_visits; eassumption.
  - destruct (scan_subdirs_calls E D (cpp_scan_dir E D ffuel fuel) dirpath
                (listdir D dirpath)
                (fun p s s' => cpp_scan_dir_ext E D ffuel fuel p s s')
                st1 st' sub H Hin Hd Hx) as (s & s' & Hs & He).
    apply (ext_is_visited s' st' path He). now apply (IH fuel s s').
Qed.

(** ** Extensions of directory entries *)

Lemma string_app_nil_r (s : string) : s ++ EmptyString = s.
Proof. induction s as [|c s IH]; simpl; [reflexivity | now rewrite IH]. Qed.

Lemma rev_string_spec (s : string) :
  forall acc, rev_string acc s = rev_string EmptyString s ++ acc.
Proof.
  induction s as [|c s IH]; intros acc; simpl; [reflexivity|].
  rewrite (IH (String c acc)), (IH (String c EmptyString)).
  now rewrite string_app_assoc.
Qed.

Lemma rev_string_app (a b : string) :
  rev_string EmptyString (a ++ b)
  = rev_string EmptyString b ++ rev_string EmptyString a.
Proof.
  induction a as [|c a IH]; simpl.
  - now rewrite string_app_nil_r.
  - rewrite (rev_string_spec (a ++ b)), (rev_string_spec a), IH.
    now rewrite string_app_assoc.
Qed.

Lemma rev_string_involutive (s : string) :
  rev_string EmptyString (rev_string EmptyString s) = s.
Proof.
  induction s as [|c s IH]; simpl; [reflexivity|].
  now rewrite (rev_string_spec s), rev_string_app, IH.
Qed.

Lemma plain_app (a b : string) : plain (a ++ b) = plain a && plain b.
Proof.
  induction a as [|c a IH]; simpl; [reflexivity|].
  rewrite IH. now rewrite !andb_assoc.
Qed.

Lemma plain_rev (s : string) : plain (rev_string EmptyString s) = plain s.
Proof.
  induction s as [|c s IH]; simpl; [reflexivity|].
  rewrite (rev_string_spec s), plain_app, IH. simpl.
  rewrite andb_true_r. apply andb_comm.
Qed.

Lemma no_sep_app (a b : string) : no_sep (a ++ b) = no_sep a && no_sep b.
Proof.
  induction a as [|c a IH]; simpl; [reflexivity|].
  rewrite IH. now rewrite andb_assoc.
Qed.

Lemma no_sep_rev (s : string) : no_sep (rev_string EmptyString s) = no_sep s.
Proof.
  induction s as [|c s IH]; simpl; [reflexivity|].
  rewrite (rev_string_spec s), no_sep_app, IH. simpl.
  rewrite andb_true_r. apply andb_comm.
Qed.

Lemma rfind_dot_plain (u v : string) :
  plain u = true ->
  rfind_dot (u ++ String "." v) = Some (u ++ String "." EmptyString, v).
Proof.
  induction u as [|c u IH]; simpl; [reflexivity|].
  intros H. apply andb_true_iff in H. destruct H as [H Hu].
  apply andb_true_iff in H. destruct H as [Hd Hs].
  apply negb_true_iff in Hd, Hs. now rewrite Hd, Hs, (IH Hu).
Qed.

Lemma has_name_char_x (w : string) :
  no_sep w = true -> has_name_char (w ++ "x") = true.
Proof.
  induction w as [|c w IH]; simpl; [reflexivity|].
  intros H. apply andb_true_iff in H. destruct H as [Hs Hw].
  apply negb_true_iff in Hs. rewrite Hs.
  destruct (Ascii.eqb c "."); [now apply IH | reflexivity].
Qed.

Lemma rev_string_dot (a e : string) :
  rev_string EmptyString (a ++ String "." e)
  = rev_string EmptyString e ++ String "." (rev_string EmptyString a).
Proof.
  rewrite rev_string_app. simpl.
  rewrite (rev_string_spec e (String "." EmptyString)).
  now rewrite string_app_assoc.
Qed.

Lemma splitext_suffix (a e : string) :
  plain e = true -> has_name_char (rev_string EmptyString a) = true ->
  splitext (a ++ String "." e) = (a, String "." e).
Proof.
  intros He Ha. unfold splitext.
  rewrite rev_string_dot, rfind_dot_plain by (now rewrite plain_rev).
  rewrite Ha, rev_string_involutive. f_equal.
  rewrite <- (rev_string_involutive (String "." e)). f_equal.
  simpl. symmetry. apply rev_string_spec.
Qed.

(** The extension of an entry named [stem.e], where [e] has neither dot nor
    separator: the part from the last dot on, whatever the stem, also when
    the stem is empty. *)
Lemma entry_ext_suffix (stem e : string) :
  no_sep stem = true -> plain e = true ->
  entry_ext (stem ++ String "." e) = String "." e.
Proof.
  intros Hs He. unfold entry_ext.
  change ("x" ++ (stem ++ String "." e)) with (String "x" stem ++ String "." e).
  rewrite splitext_suffix; [reflexivity | assumption |].
  simpl. rewrite (rev_string_spec stem (String "x" EmptyString)).
  apply has_name_char_x. now rewrite no_sep_rev.
Qed.

(** An entry without a dot has no extension. *)
Lemma entry_ext_plain (name : string) :
  plain name = true -> entry_ext name = EmptyString.
Proof.
  intros H. unfold entry_ext, splitext.
  assert (Hnone : forall r, plain r = true -> rfind_dot (r ++ "x") = None).
  { induction r as [|c r IH]; simpl; [reflexivity|].
    intros Hr. apply andb_true_iff in Hr. destruct Hr as [Hr Hu].
    apply andb_true_iff in Hr. destruct Hr as [Hd Hs].
    apply negb_true_iff in Hd, Hs. now rewrite Hd, Hs, (IH Hu). }
  simpl (rev_string EmptyString ("x" ++ name)).
  rewrite (rev_string_spec name (String "x" EmptyString)), Hnone
    by (now rewrite plain_rev).
  reflexivity.
Qed.

(** ** Termination of the directory scan *)

Lemma unvisited_le_length (files : list string) (st : State) :
  unvisited_files files st <= length files.
Proof.
  unfold unvisited_files. induction files as [|p files IH]; simpl; [lia|].
  destruct (negb (is_visited st p)); simpl; lia.
Qed.

Lemma scan_dir_files_total (E : Env) (flist : list string) (dirpath : string)
    (files : list string) :
  fs_listed E flist ->
  forall st, exists st',
    scan_dir_files E (S (length flist)) dirpath files st = Some st'.
Proof.
  intros Hfin. induction files as [|file rest IH]; intros st; [now exists st|].
  rewrite scan_dir_files_cons.
  destruct (isfile (fs E) (path_join dirpath file)); [|apply IH].
  destruct (str_in (entry_ext file) IGNORE_LIST); [apply IH|].
  destruct (str_in (entry_ext file) CPP_FILE_TYPES); [|apply IH].
  destruct (cpp_scan_file_total E flist Hfin (S (length flist))
              (path_join dirpath file) st) as [st1 ->]; [|apply IH].
  pose proof (unvisited_le_length flist st). lia.
Qed.

Lemma scan_subdirs_total (E : Env) (D : DirSystem)
    (rec : string -> State -> option State) (dirpath : string)
    (files : list string) :
  (forall sub, In sub files -> isdir D (path_join dirpath sub) = true ->
     str_in (entry_ext sub) IGNORE_LIST = false ->
     forall st, exists st', rec (path_join dirpath sub) st = Some st') ->
  forall st, exists st', scan_subdirs E D rec dirpath files st = Some st'.
Proof.
  induction files as [|file rest IH]; intros Hrec st; [now exists st|].
  rewrite scan_subdirs_cons.
  assert (IH' : forall s, exists s', scan_subdirs E D rec dirpath rest s = Some s').
  { apply IH. intros sub Hin. apply Hrec. now right. }
  destruct (isdir D (path_join dirpath file)) eqn:Hd; [|apply IH'].
  destruct (str_in (entry_ext file) IGNORE_LIST) eqn:Hi; [apply IH'|].
  destruct (Hrec file (or_introl eq_refl) Hd Hi st) as [st1 ->]. apply IH'.
Qed.

Lemma cpp_scan_dir_total (E : Env) (D : DirSystem) (flist : list string) (n : nat) :
  fs_listed E flist ->
  forall dirpath st, dir_bounded D n dirpath ->
  exists st', cpp_scan_dir E D (S (length flist)) n dirpath st = Some st'.
Proof.
  intros Hfin. induction n as [|n IH]; intros dirpath st Hb; [destruct Hb|].
  rewrite cpp_scan_dir_S.
  destruct (scan_dir_files_total E flist dirpath (listdir D dirpath) Hfin
              (log E ("Scanning dir " ++ dirpath) st)) as [st1 ->].
  apply scan_subdirs_total. intros sub Hin Hd Hi s.
  apply IH. now apply Hb.
Qed.

(** A directory without tracked files and without sub directories to
    descend into. *)
Lemma scan_dir_files_quiet (E : Env) (ffuel : nat) (dirpath : string)
    (files : list string) :
  (forall file, In file files -> isfile (fs E) (path_join dirpath file) = true ->
     str_in (entry_ext file) CPP_FILE_TYPES = false) ->
  forall st, exists st',
    scan_dir_files E ffuel dirpath files st = Some st' /\ only_prints st st'.
Proof.
  assert (Hrefl : forall s, only_prints s s).
  { intros s. repeat split. exists []. now rewrite app_nil_r. }
  assert (Htrans : forall a b c, only_prints a b -> only_prints b c -> only_prints a c).
  { intros a b c (N1 & D1 & M1 & l1 & T1) (N2 & D2 & M2 & l2 & T2).
    repeat split; try congruence. exists (l1 ++ l2)%list.
    now rewrite T2, T1, map_app, app_assoc. }
  induction files as [|file rest IH]; intros Hq st; [exists st; auto|].
  rewrite scan_dir_files_cons.
  assert (IH' : forall s, exists s',
            scan_dir_files E ffuel dirpath rest s = Some s' /\ only_prints s s').
  { apply IH. intros f Hin. apply Hq. now right. }
  destruct (isfile (fs E) (path_join dirpath file)) eqn:Hf; [|apply IH'].
  destruct (str_in (entry_ext file) IGNORE_LIST).
  - destruct (IH' (log E ("Ignoring " ++ file) st)) as (s' & H & Ho).
    exists s'. split; [assumption|].
    apply (Htrans st (log E ("Ignoring " ++ file) st) s'); [|assumption].
    apply only_prints_log.
  - rewrite (Hq file (or_introl eq_refl) Hf). apply IH'.
Qed.

Lemma scan_subdirs_quiet (E : Env) (D : DirSystem)
    (rec : string -> State -> option State) (dirpath : string)
    (files : list string) :
  (forall sub, In sub files -> isdir D (path_join dirpath sub) = true ->
     str_in (entry_ext sub) IGNORE_LIST = true) ->
  forall st, exists st',
    scan_subdirs E D rec dirpath files st = Some st' /\ only_prints st st'.
Proof.
  assert (Hrefl : forall s, only_prints s s).
  { intros s. repeat split. exists []. now rewrite app_nil_r. }
  assert (Htrans : forall a b c, only_prints a b -> only_prints b c -> only_prints a c).
  { intros a b c (N1 & D1 & M1 & l1 & T1) (N2 & D2 & M2 & l2 & T2).
    repeat split; try congruence. exists (l1 ++ l2)%list.
    now rewrite T2, T1, map_app, app_assoc. }
  induction files as [|file rest IH]; intros Hq st; [exists st; auto|].
  rewrite scan_subdirs_cons.
  assert (IH' : forall s, exists s',
            scan_subdirs E D rec dirpath rest s = Some s' /\ only_prints s s').
  { apply IH. intros f Hin. apply Hq. now right. }
  destruct (isdir D (path_join dirpath file)) eqn:Hd; [|apply IH'].
  rewrite (Hq file (or_introl eq_refl) Hd).
  destruct (IH' (log E ("Ignoring " ++ file) st)) as (s' & H & Ho).
  exists s'. split; [assumption|].
  apply (Htrans st (log E ("Ignoring " ++ file) st) s'); [|assumption].
  apply only_prints_log.
Qed.

Lemma scan_subdirs_no_call (E : Env) (D : DirSystem)
    (rec rec' : string -> State -> option State) (dirpath : string)
    (files : list string) :
  (forall sub, In sub files -> isdir D (path_join dirpath sub) = true ->
     str_in (entry_ext sub) IGNORE_LIST = true) ->
  forall st,
  scan_subdirs E D rec dirpath files st = scan_subdirs E D rec' dirpath files st.
Proof.
  induction files as [|file rest IH]; intros Hq st; [reflexivity|].
  rewrite !scan_subdirs_cons.
  assert (IH' : forall s, scan_subdirs E D rec dirpath rest s
                          = scan_subdirs E D rec' dirpath rest s).
  { apply IH. intros f Hin. apply Hq. now right. }
  destruct (isdir D (path_join dirpath file)) eqn:Hd; [|apply IH'].
  rewrite (Hq file (or_introl eq_refl) Hd). apply IH'.
Qed.

(** * Further properties of the renderer *)

Lemma render_le_keys (g g' : list (string * Node)) :
  render_le g g' -> map fst g' = map fst g.
Proof.
  induction 1 as [|x y g g' [Hk _] _ IH]; simpl; [reflexivity|].
  now rewrite IH, Hk.
Qed.

Lemma update_notin (k : string) (f : Node -> Node) (g : list (string * Node)) :
  ~ In k (map fst g) -> update k f g = g.
Proof.
  induction g as [|[q n] g IH]; simpl; [reflexivity|].
  intros H. destruct (String.eqb k q) eqn:Hkq.
  - apply String.eqb_eq in Hkq. exfalso. apply H. now left.
  - simpl. f_equal. apply IH. intros Hin. apply H. now right.
Qed.

Lemma count_update_exact (k : string) (g : list (string * Node)) (n : Node) :
  NoDup (map fst g) -> lookup g k = Some n -> visited n = false ->
  count_unvisited (update k (set_visited true) g) + 1 = count_unvisited g.
Proof.
  unfold count_unvisited.
  induction g as [|[q m] g IH]; simpl; [discriminate|].
  intros Hnd Hl Hv. inversion Hnd as [|? ? Hq Hg]; subst.
  destruct (String.eqb k q) eqn:Hkq.
  - apply String.eqb_eq in Hkq; subst q. injection Hl as ->.
    fold (update k (set_visited true) g). rewrite (update_notin k _ g Hq).
    simpl. rewrite Hv. simpl. lia.
  - specialize (IH Hg Hl Hv). fold (update k (set_visited true) g).
    simpl. destruct (negb (visited m)); simpl; lia.
Qed.

Lemma render_step_refl (st : State) : render_step 0 st st.
Proof.
  split; [apply render_le_refl|]. split; [lia|].
  exists []. simpl. rewrite app_nil_r. split; [reflexivity | lia].
Qed.

Lemma render_step_trans (a b : nat) (s1 s2 s3 : State) :
  render_step a s1 s2 -> render_step b s2 s3 -> render_step (a + b) s1 s3.
Proof.
  intros (R1 & D1 & l1 & T1 & C1) (R2 & D2 & l2 & T2 & C2).
  split; [now apply (render_le_trans _ (nodes s2))|]. split; [lia|].
  exists (l1 ++ l2)%list. split.
  - now rewrite T2, T1, map_app, app_assoc.
  - rewrite length_app. lia.
Qed.

Lemma render_step_print (s : string) (st : State) : render_step 1 st (print s st).
Proof.
  split; [apply render_le_refl|]. split; [simpl; lia|].
  exists [s]. simpl. split; [reflexivity | lia].
Qed.

Section PrintChildrenFacts.
Variable pt : string -> State -> option (pyret * State).
Hypothesis pt_facts : forall c st r st',
  NoDup (keys st) -> pt c st = Some (r, st') ->
  render_step (last_line r) st st' /\ (r = RetTrue -> depth st' = depth st).

Lemma print_children_facts (cs : list string) :
  forall st b st',
  NoDup (keys st) -> print_children pt cs st = Some (b, st') ->
  render_step (if b then 0 else 1) st st' /\ (b = true -> depth st' = depth st).
Proof.
  induction cs as [|c cs IH]; intros st b st' Hnd; simpl.
  - intros [= <- <-]. split; [apply render_step_refl | reflexivity].
  - destruct (pt c st) as [[r s1]|] eqn:Hc; [|discriminate].
    destruct (pt_facts c st r s1 Hnd Hc) as [R1 D1].
    destruct r; simpl.
    + intros [= <- <-]. split; [exact R1 | discriminate].
    + intros H.
      assert (Hnd1 : NoDup (keys s1)).
      { unfold keys. now rewrite (render_le_keys _ _ (proj1 R1)). }
      destruct (IH s1 b st' Hnd1 H) as [R2 D2]. split.
      * apply (render_step_trans 0 _ st s1 st' R1 R2).
      * intros Hb. rewrite (D2 Hb). now apply D1.
    + intros [= <- <-]. split; [exact R1 | discriminate].
Qed.
End PrintChildrenFacts.

Lemma print_tree_facts (fuel : nat) :
  forall key st r st',
  NoDup (keys st) -> print_tree fuel key st = Some (r, st') ->
  render_step (last_line r) st st' /\ (r = RetTrue -> depth st' = depth st).
Proof.
  induction fuel as [|fuel IH]; intros key st r st' Hnd H; [discriminate|].
  destruct (Nat.lt_ge_cases MAX_DEPTH (depth st)) as [Hd | Hd].
  - rewrite (print_tree_ceiling fuel key st Hd) in H. injection H as <- <-.
    split; [apply render_step_print | discriminate].
  - destruct (node_at st key) as [self|] eqn:Hself.
    + destruct (visited self) eqn:Hv.
      * rewrite (print_tree_seen fuel key st self Hd Hself Hv) in H.
        injection H as <- <-. split; [apply render_step_print | discriminate].
      * rewrite (print_tree_enter fuel key st self Hd Hself Hv) in H.
        set (st3 := with_depth _ _ _) in H.
        assert (R3 : render_step 0 st st3 /\ depth st3 = depth st + 1).
        { split; [|reflexivity]. split; [apply render_le_update|].
          split; [simpl; lia|].
          exists [node_line (depth st) self]. split; [reflexivity|].
          simpl. pose proof (count_update_exact key (nodes st) self Hnd Hself Hv).
          lia. }
        destruct R3 as [R3 D3].
        assert (Hnd3 : NoDup (keys st3)).
        { unfold keys. now rewrite (render_le_keys _ _ (proj1 R3)). }
        destruct (print_children (print_tree fuel) (children self) st3)
          as [[b st4]|] eqn:Hc; [|discriminate].
        destruct (print_children_facts (print_tree fuel) IH (children self)
                    st3 b st4 Hnd3 Hc) as [R4 D4].
        destruct b; injection H as <- <-.
        -- split.
           ++ destruct (render_step_trans 0 0 st st3 st4 R3 R4)
                as (Rl & _ & ls & T & C).
              split; [exact Rl|]. split; [simpl; rewrite (D4 eq_refl); lia|].
              exists ls. now split.
           ++ intros _. simpl. rewrite (D4 eq_refl). lia.
        -- split; [|discriminate].
           apply (render_step_trans 0 1 st st3 st4 R3 R4).
    + exfalso. cbn [print_tree] in H.
      assert ((MAX_DEPTH <? depth st)%nat = false) as Hlt
        by (apply Nat.ltb_ge; exact Hd).
      rewrite Hlt, Hself in H. discriminate.
Qed.

(** ** The full-graph render *)

Lemma for_each_node_cons (body : Node -> string -> State -> option State)
    (k : string) (rest : list string) (st : State) (n : Node) :
  node_at st k = Some n ->
  for_each_node body (k :: rest) st
  = match body n k st with
    | None => None
    | Some st' => for_each_node body rest st'
    end.
Proof. intros H. simpl. now rewrite H. Qed.

Lemma count_unvisited_le_length (g : list (string * Node)) :
  count_unvisited g <= length g.
Proof.
  unfold count_unvisited. induction g as [|kn g IH]; simpl; [lia|].
  destruct (negb (visited (snd kn))); simpl; lia.
Qed.

Lemma print_graph_loop_total (fuel : nat) (ks : list string) :
  forall st,
  graph_closed st -> count_unvisited (nodes st) < fuel ->
  (forall k, In k ks -> exists n, node_at st k = Some n) ->
  exists st',
    for_each_node
      (fun node k s =>
         if negb (has_parent node) then
           match print_tree fuel k s with
           | None => None
           | Some (_, s') => Some s'
           end
         else Some s) ks st = Some st'
    /\ render_le (nodes st) (nodes st').
Proof.
  induction ks as [|k ks IH]; intros st Hc Hm Hex.
  - exists st. split; [reflexivity | apply render_le_refl].
  - destruct (Hex k (or_introl eq_refl)) as [n Hn].
    rewrite (for_each_node_cons _ k ks st n Hn).
    destruct (negb (has_parent n)).
    + destruct (print_tree_total fuel k st Hc Hm (ex_intro _ n Hn))
        as (r & s1 & -> & R1).
      destruct (IH s1) as (s2 & H2 & R2).
      * now apply (render_le_closed st s1).
      * pose proof (render_le_count _ _ R1). lia.
      * intros q Hq. destruct (Hex q (or_intror Hq)) as [m Hm'].
        now apply (render_le_exists (nodes st) (nodes s1) q m).
      * exists s2. split; [assumption|].
        now apply (render_le_trans _ (nodes s1)).
    + apply IH; auto. intros q Hq. apply Hex. now right.
Qed.

Lemma keys_exist (st : State) (k : string) :
  In k (keys st) -> exists n, node_at st k = Some n.
Proof. apply lookup_key. Qed.

Lemma print_graph_total (fuel : nat) (st : State) :
  graph_closed (clear_visisted st) -> length (nodes st) < fuel ->
  exists st', print_graph fuel st = Some st'
              /\ render_le (nodes (clear_visisted st)) (nodes st').
Proof.
  intros Hc Hf. unfold print_graph.
  apply print_graph_loop_total; [assumption | | apply keys_exist].
  pose proof (count_unvisited_le_length (nodes (clear_visisted st))) as H.
  assert (length (nodes (clear_visisted st)) = length (nodes st)) as Hl
    by (unfold clear_visisted; simpl; apply length_map).
  lia.
Qed.

Lemma print_graph_loop_no_root (fuel : nat) (ks : list string) (st : State) :
  (forall k n, node_at st k = Some n -> has_parent n = true) ->
  (forall k, In k ks -> exists n, node_at st k = Some n) ->
  for_each_node
    (fun node k s =>
       if negb (has_parent node) then
         match print_tree fuel k s with
         | None => None
         | Some (_, s') => Some s'
         end
       else Some s) ks st = Some st.
Proof.
  intros Hp. induction ks as [|k ks IH]; intros Hex; [reflexivity|].
  destruct (Hex k (or_introl eq_refl)) as [n Hn].
  rewrite (for_each_node_cons _ k ks st n Hn), (Hp k n Hn). simpl.
  apply IH. intros q Hq. apply Hex. now right.
Qed.

Lemma print_graph_no_root (fuel : nat) (st : State) :
  (forall k n, node_at st k = Some n -> has_parent n = true) ->
  print_graph fuel st = Some (clear_visisted st).
Proof.
  intros Hp. unfold print_graph. apply print_graph_loop_no_root.
  - intros k n H. rewrite node_at_clear_visisted in H.
    destruct (node_at st k) as [m|] eqn:Hm; [|discriminate].
    injection H as <-. simpl. now apply (Hp k m).
  - apply keys_exist.
Qed.

(** * The command line *)

Lemma process_opts_cons (opt arg : string) (rest : list (string * string))
    (o : Options) (st : State) :
  process_opts ((opt, arg) :: rest) o st
  = if String.eqb opt "-h" then Exit 0 false (usage st)
    else if handled opt then process_opts rest (apply_opt opt arg o) st
    else Exit 1 false (usage (print ("Invalid option " ++ quoted opt) st)).
Proof.
  cbn [process_opts]. unfold handled, apply_opt, str_in. cbn [existsb].
  destruct (String.eqb opt "-h"); [reflexivity|].
  destruct (String.eqb opt "-I"); [reflexivity|].
  destruct (String.eqb opt "-i"); [reflexivity|].
  destruct (String.eqb opt "-f"); [reflexivity|].
  destruct (String.eqb opt "-v"); [reflexivity|].
  destruct (String.eqb opt "--node"); [reflexivity|].
  destruct (String.eqb opt "--top-level"); [reflexivity|].
  destruct (String.eqb opt "--only_leaf_level"); reflexivity.
Qed.

(** Among the names declared to [getopt], the loop handles all but [-o]
    and [--leaf-level], and none of them sets [only_leaf_level]. *)
Lemma getopt_name_cases (opt : string) :
  In opt getopt_names ->
  String.eqb opt "-h" = false
  /\ ((handled opt = true
       /\ (String.eqb opt "-o" || String.eqb opt "--leaf-level") = false
       /\ forall arg o, only_leaf_level (apply_opt opt arg o) = only_leaf_level o)
      \/ (handled opt = false /\ (opt = "-o" \/ opt = "--leaf-level")
          /\ (String.eqb opt "-o" || String.eqb opt "--leaf-level") = true)).
Proof.
  unfold getopt_names. simpl.
  intros [<- | [<- | [<- | [<- | [<- | [<- | [<- | [<- | []]]]]]]]];
    (split; [reflexivity|]);
    try (left; repeat split; reflexivity);
    right; repeat split; auto.
Qed.

Lemma process_opts_getopt (opts : list (string * string)) :
  (forall opt arg, In (opt, arg) opts -> In opt getopt_names) ->
  forall o st,
  match process_opts opts o st with
  | Go o' st' =>
      existsb (fun oa => String.eqb (fst oa) "-o"
                         || String.eqb (fst oa) "--leaf-level") opts = false
      /\ st' = st /\ only_leaf_level o' = only_leaf_level o
  | Exit code neg st' =>
      existsb (fun oa => String.eqb (fst oa) "-o"
                         || String.eqb (fst oa) "--leaf-level") opts = true
      /\ code = 1 /\ neg = false
      /\ exists opt, (opt = "-o" \/ opt = "--leaf-level")
           /\ (exists arg, In (opt, arg) opts)
           /\ trace st' = (trace st ++ [EvPrint ("Invalid option " ++ quoted opt);
                                        EvPrint usage_text])%list
  | Raised _ _ => False
  end.
Proof.
  induction opts as [|[opt arg] rest IH]; intros Hall o st.
  - simpl. auto.
  - assert (Hrest : forall op a, In (op, a) rest -> In op getopt_names).
    { intros op a H. apply (Hall op a). now right. }
    rewrite process_opts_cons.
    destruct (getopt_name_cases opt (Hall opt arg (or_introl eq_refl)))
      as [-> [(-> & Hb & Hl) | (-> & Hopt & Hb)]].
    + specialize (IH Hrest (apply_opt opt arg o) st).
      cbn [existsb fst]. rewrite Hb. cbn [orb].
      destruct (process_opts rest (apply_opt opt arg o) st)
        as [code neg st' | o' st' | exc st'].
      * destruct IH as (He & Hc & Hn & op & Hop & [a Ha] & Ht).
        repeat split; auto. exists op. split; [assumption|].
        split; [exists a; now right | assumption].
      * destruct IH as (He & Hs & Hlv). repeat split; auto.
        now rewrite Hlv, Hl.
      * assumption.
    + cbn [existsb fst]. rewrite Hb. repeat split; auto.
      exists opt. split; [assumption|]. split; [exists arg; now left|].
      unfold usage, print. rewrite !trace_emit. now rewrite <- app_assoc.
Qed.

Lemma apply_opt_fields (opt arg : string) (o : Options) :
  handled opt = true ->
  opt_search_paths (apply_opt opt arg o)
  = (opt_search_paths o ++ (if String.eqb opt "-I" then [arg] else []))%list
  /\ input_dir (apply_opt opt arg o)
     = (if String.eqb opt "-i" then arg else input_dir o)
  /\ opt_verbose (apply_opt opt arg o)
     = (opt_verbose o || String.eqb opt "-v").
Proof.
  unfold handled, apply_opt, str_in. cbn [existsb].
  destruct (String.eqb opt "-I") eqn:H1.
  { apply String.eqb_eq in H1; subst opt. intros _. simpl.
    now rewrite orb_false_r. }
  destruct (String.eqb opt "-i") eqn:H2.
  { apply String.eqb_eq in H2; subst opt. intros _. simpl.
    now rewrite app_nil_r, orb_false_r. }
  destruct (String.eqb opt "-f") eqn:H3.
  { apply String.eqb_eq in H3; subst opt. intros _. simpl.
    now rewrite app_nil_r, orb_false_r. }
  destruct (String.eqb opt "-v") eqn:H4.
  { intros _. simpl. now rewrite app_nil_r, orb_true_r. }
  destruct (String.eqb opt "--node") eqn:H5.
  { intros _. simpl. now rewrite app_nil_r, orb_false_r. }
  destruct (String.eqb opt "--top-level") eqn:H6.
  { intros _. simpl. now rewrite app_nil_r, orb_false_r. }
  destruct (String.eqb opt "--only_leaf_level") eqn:H7.
  { intros _. simpl. now rewrite app_nil_r, orb_false_r. }
  discriminate.
Qed.

Lemma process_opts_settings (opts : list (string * string)) :
  forall o st o' st',
  process_opts opts o st = Go o' st' ->
  opt_search_paths o' = (opt_search_paths o ++ args_of "-I" opts)%list
  /\ input_dir o' = last_or (input_dir o) (args_of "-i" opts)
  /\ opt_verbose o'
     = (opt_verbose o || existsb (fun oa => String.eqb (fst oa) "-v") opts).
Proof.
  induction opts as [|[opt arg] rest IH]; intros o st o' st' H.
  - simpl in H. injection H as <- <-. simpl.
    now rewrite app_nil_r, orb_false_r.
  - rewrite process_opts_cons in H.
    destruct (String.eqb opt "-h"); [discriminate|].
    destruct (handled opt) eqn:Hh; [|discriminate].
    destruct (IH _ _ _ _ H) as (Hs & Hi & Hv).
    destruct (apply_opt_fields opt arg o Hh) as (As & Ai & Av).
    rewrite Hs, Hi, Hv, As, Ai, Av. unfold args_of. cbn [filter fst existsb].
    split; [|split].
    + destruct (String.eqb opt "-I"); simpl;
        [now rewrite <- app_assoc | now rewrite app_nil_r].
    + destruct (String.eqb opt "-i"); reflexivity.
    + now rewrite orb_assoc.
Qed.

(** * The pattern, the system paths and the resolver *)

Lemma CPP_INC_PATTERN_match_directive (n m : nat) (first last : ascii)
    (body rest : string) :
  is_open first = true -> no_close body = true -> is_close last = true ->
  CPP_INC_PATTERN_match (directive_line n m first body last rest)
  = Some (first, body, last).
Proof.
  intros Ho Hb Hl. unfold directive_line. simpl.
  rewrite skip_blanks_spaces. simpl. rewrite skip_blanks_spaces. simpl.
  rewrite (is_open_not_blank first Ho), Ho.
  rewrite (span_spelling_body body last rest Hb Hl). now rewrite Hl.
Qed.

Lemma prefix_app (p d : string) :
  String.prefix p d = true <-> exists s, d = p ++ s.
Proof.
  revert d. induction p as [|c p IH]; intros d.
  - split; [intros _; now exists d | intros _; now destruct d].
  - destruct d as [|c' d]; simpl.
    + split; [discriminate | intros [s H]; discriminate].
    + destruct (ascii_dec c c') as [<- | Hne].
      * rewrite IH. split; intros [s H]; exists s; [now rewrite H | now injection H].
      * split; [discriminate | intros [s H]; injection H as H1 _; congruence].
Qed.

Lemma search_loop_result (F : FileSystem) (inc : string) (paths : list string) :
  search_loop F paths inc = inc
  \/ (exists sp, In sp paths /\ search_loop F paths inc = path_join sp inc
                 /\ isfile F (path_join sp inc) = true).
Proof.
  induction paths as [|p paths IH]; simpl; [now left|].
  destruct (isfile F (path_join p inc)) eqn:Hf.
  - right. exists p. auto.
  - destruct IH as [H | (sp & Hin & H & Hsf)]; [now left|].
    right. exists sp. auto.
Qed.

(** * Reached states *)

Lemma scanned_done (E : Env) (st : State) : scanned E st -> scan_done E st.
Proof.
  induction 1 as [|st st' fuel path _ IH H | st s _ IH].
  - apply scan_done_initial.
  - now apply (scan_done_step E fuel path st st').
  - now apply scan_done_log.
Qed.

Lemma demo_scanned_reached : scanned E_demo demo_scanned.
Proof.
  apply (scanned_step E_demo initial_state demo_scanned 4 "main.cpp").
  - apply scanned_initial.
  - reflexivity.
Qed.

(** * Termination of [main] *)













(** * The scan of a file that is not marked *)

Lemma cpp_scan_file_opens (E : Env) (fuel : nat) (path : string)
    (st st' : State) :
  is_visited st path = false ->
  isfile (fs E) path = true ->
  cpp_scan_file E fuel path st = Some st' ->
  exists more, opened (trace st') = (opened (trace st) ++ path :: more)%list.
Proof.
  intros Hv Hf H. destruct fuel as [|fuel]; [discriminate|].
  destruct (node_at_get_node_same path st) as [n Hn].
  assert (Hvn : visited n = false).
  { rewrite <- (is_visited_get_node path st path) in Hv.
    unfold is_visited in Hv. now rewrite Hn in Hv. }
  rewrite (cpp_scan_file_unfold E fuel path st n Hn Hvn Hf) in H.
  assert (Ha : node_at (after_read E path st) path = Some (set_visited true n)).
  { now rewrite node_at_after_read, String.eqb_refl, Hn. }
  destruct (link_includes_sound E (cpp_scan_file E fuel) path
              (cpp_scan_file_sound E fuel) (includes_of E path)
              (after_read E path st) st' _ Ha H) as [[_ [evs Hevs]] _].
  destruct (after_read_events E path st) as (evs0 & Ht0 & Ho & _).
  exists (opened evs).
  rewrite Hevs, Ht0, !opened_app, Ho, <- app_assoc. reflexivity.
Qed.

Lemma is_visited_clear_visisted (st : State) (k : string) :
  is_visited (clear_visisted st) k = false.
Proof.
  unfold is_visited. rewrite node_at_clear_visisted.
  now destruct (node_at st k).
Qed.

(** * Further theorems *)

(** X1. In every state the scanner reaches, the keys of the graph are
    distinct, every node is stored under its own [file], no children list
    holds a key twice, and [get_node] of any path leaves such a state with a
    node for that path whose [file] is the path, keeping every node there
    was. *)
Theorem scanned_registry (E : Env) (st : State) :
  scanned E st ->
  graph_keyed st /\ children_nodup st
  /\ forall f,
       graph_keyed (get_node f st)
       /\ (exists n, node_at (get_node f st) f = Some n /\ file n = f)
       /\ (forall k n, node_at st k = Some n -> node_at (get_node f st) k = Some n).
Proof.
  intros H.
  assert (graph_keyed st /\ children_nodup st) as [K C].
  { induction H as [|st st' fuel path _ IH H | st s _ IH].
    - split; [split; [constructor | intros k n; discriminate]
             | intros k n; discriminate].
    - now apply (scan_keeps_registry_aux E fuel path st st').
    - now apply registry_log. }
  split; [assumption|]. split; [assumption|].
  intros f. pose proof (graph_keyed_get_node f st K) as Kf.
  split; [assumption|]. split.
  - destruct (node_at_get_node_same f st) as [n Hn]. exists n.
    split; [assumption | now apply (proj2 Kf)].
  - intros k n Hk. now rewrite node_at_get_node, Hk.
Qed.

Lemma scanned_registry_witness :
  graph_keyed demo_scanned /\ children_nodup demo_scanned
  /\ forall f,
       graph_keyed (get_node f demo_scanned)
       /\ (exists n, node_at (get_node f demo_scanned) f = Some n /\ file n = f)
       /\ (forall k n, node_at demo_scanned k = Some n ->
                       node_at (get_node f demo_scanned) k = Some n).
Proof. exact (scanned_registry E_demo demo_scanned demo_scanned_reached). Defined.

(** X2. A call of [cpp_scan_file] that returns only adds: every node of the
    graph is still there, with the same [file], at least the children it
    had and every flag that was set still set, and the trace is the old one
    with events appended. *)
Theorem scan_only_grows (E : Env) (fuel : nat) (path : string) (st st' : State) :
  cpp_scan_file E fuel path st = Some st' ->
  (forall k n, node_at st k = Some n ->
     exists n', node_at st' k = Some n'
       /\ file n = file n'
       /\ (forall c, In c (children n) -> In c (children n'))
       /\ (has_parent n = true -> has_parent n' = true)
       /\ (visited n = true -> visited n' = true)
       /\ (missing n = true -> missing n' = true))
  /\ exists evs, trace st' = (trace st ++ evs)%list.
Proof. intros H. exact (proj1 (cpp_scan_file_sound E fuel path st st' H)). Qed.

Lemma scan_only_grows_witness :
  (forall k n, node_at initial_state k = Some n ->
     exists n', node_at demo_scanned k = Some n'
       /\ file n = file n'
       /\ (forall c, In c (children n) -> In c (children n'))
       /\ (has_parent n = true -> has_parent n' = true)
       /\ (visited n = true -> visited n' = true)
       /\ (missing n = true -> missing n' = true))
  /\ exists evs, trace demo_scanned = (trace initial_state ++ evs)%list.
Proof.
  exact (scan_only_grows E_demo 4 "main.cpp" initial_state demo_scanned eq_refl).
Defined.

(** X3. In every state the scanner reaches, the node of [B] lists [A] among
    its children exactly when [A] is a node of the graph, [A] is a file, and
    the text of [A] holds an include directive that resolves to [B] outside
    the system header paths. *)
Theorem edges_are_includes (E : Env) (st : State) (A B : string) :
  scanned E st ->
  (has_edge st B A <->
   (exists n, node_at st A = Some n) /\ isfile (fs E) A = true
   /\ resolves_to E A B
   /\ is_sys_header_path E (fst (path_split B)) = false).
Proof.
  intros H. rewrite (scan_done_edges E st A B (scanned_done E st H)).
  rewrite In_includes_of. tauto.
Qed.

Lemma edges_are_includes_witness :
  has_edge demo_scanned "base.h" "util.h" <->
  (exists n, node_at demo_scanned "util.h" = Some n)
  /\ isfile (fs E_demo) "util.h" = true
  /\ resolves_to E_demo "util.h" "base.h"
  /\ is_sys_header_path E_demo (fst (path_split "base.h")) = false.
Proof.
  exact (edges_are_includes E_demo demo_scanned "util.h" "base.h"
           demo_scanned_reached).
Defined.

(** X4. In every state the scanner reaches, every node has been visited; it
    is marked missing exactly when its path is not a file; its [has_parent]
    is set exactly when its path is a file whose text includes something
    outside the system header paths, so that the top-level listing selects
    the paths that are not files and the files that include nothing; and the
    leaf listing selects the nodes that no scanned file includes. *)
Theorem node_flags_meaning (E : Env) (st : State) (k : string) (n : Node) :
  scanned E st -> node_at st k = Some n ->
  visited n = true
  /\ (missing n = true <-> isfile (fs E) k = false)
  /\ (has_parent n = true <-> isfile (fs E) k = true /\ includes_of E k <> [])
  /\ (is_top_level n = true <-> isfile (fs E) k = false \/ includes_of E k = [])
  /\ (is_leaf n = true <-> forall A, ~ has_edge st k A).
Proof.
  intros Hs Hn. destruct (scanned_done E st Hs) as (I & Es & Pe & Ms & Av & Co).
  pose proof (Av k n Hn) as V.
  assert (Hp : has_parent n = true <-> isfile (fs E) k = true /\ includes_of E k <> []).
  { split.
    - intros Hhp. destruct (Pe k (ex_intro _ n (conj Hn Hhp))) as [p Hedge].
      destruct (Es p k Hedge) as (_ & F & Hin). split; [assumption|].
      intros Hnil. rewrite Hnil in Hin. destruct Hin.
    - intros [F Hne]. destruct (includes_of E k) as [|B rest] eqn:Hinc;
        [congruence|].
      assert (has_edge st B k) as [nb [Hnb Hin]].
      { apply (Co k); auto.
        - unfold is_visited. now rewrite Hn.
        - rewrite Hinc. now left. }
      destruct (proj1 I B nb k Hnb Hin) as [nc [Hnc Hhp]]. congruence. }
  split; [assumption|]. split; [|split; [assumption|split]].
  - split.
    + intros Hm. apply (Ms k). now exists n.
    + intros F. now apply (proj2 I k n Hn V F).
  - unfold is_top_level. rewrite negb_true_iff. split.
    + intros Hhp. destruct (isfile (fs E) k) eqn:F; [|now left]. right.
      destruct (includes_of E k) eqn:Hinc; [reflexivity|].
      assert (has_parent n = true); [|congruence].
      apply Hp. split; [reflexivity | discriminate].
    + intros H. destruct (has_parent n) eqn:Hhp; [|reflexivity].
      destruct (proj1 Hp eq_refl) as [F Hne]. destruct H; congruence.
  - unfold is_leaf, has_children, has_edge. split.
    + intros Hl A [n' [Hn' Hin]]. assert (n' = n) as -> by congruence.
      destruct (children n); [destruct Hin | discriminate].
    + intros Hl. destruct (children n) as [|c cs] eqn:Hc; [reflexivity|].
      exfalso. apply (Hl c). exists n. split; [assumption|]. rewrite Hc. now left.
Qed.

Lemma node_flags_meaning_witness :
  visited (mkNode "base.h" ["util.h"] false true false) = true
  /\ (missing (mkNode "base.h" ["util.h"] false true false) = true
      <-> isfile (fs E_demo) "base.h" = false)
  /\ (has_parent (mkNode "base.h" ["util.h"] false true false) = true
      <-> isfile (fs E_demo) "base.h" = true /\ includes_of E_demo "base.h" <> [])
  /\ (is_top_level (mkNode "base.h" ["util.h"] false true false) = true
      <-> isfile (fs E_demo) "base.h" = false \/ includes_of E_demo "base.h" = [])
  /\ (is_leaf (mkNode "base.h" ["util.h"] false true false) = true
      <-> forall A, ~ has_edge demo_scanned "base.h" A).
Proof.
  exact (node_flags_meaning E_demo demo_scanned "base.h"
           (mkNode "base.h" ["util.h"] false true false)
           demo_scanned_reached eq_refl).
Defined.

(** X5. In every state the scanner reaches, the lines that the trace shows
    as read from a path are the lines of the file, once and in order, if the
    path is a visited file, and none otherwise; no path is opened twice, and
    only visited files are opened. *)
Theorem each_file_read_once (E : Env) (st : State) :
  scanned E st ->
  (forall p, lines_read (trace st) p
             = if is_visited st p && isfile (fs E) p then read_lines (fs E) p
               else [])
  /\ NoDup (opened (trace st))
  /\ (forall p, In p (opened (trace st)) ->
                is_visited st p = true /\ isfile (fs E) p = true).
Proof. intros H. exact (scanned_read_once E st H). Qed.

Lemma each_file_read_once_witness :
  (forall p, lines_read (trace demo_scanned) p
             = if is_visited demo_scanned p && isfile (fs E_demo) p
               then read_lines (fs E_demo) p else [])
  /\ NoDup (opened (trace demo_scanned))
  /\ (forall p, In p (opened (trace demo_scanned)) ->
                is_visited demo_scanned p = true /\ isfile (fs E_demo) p = true).
Proof. exact (each_file_read_once E_demo demo_scanned demo_scanned_reached). Defined.

(** X6. On a file system with finitely many files [cpp_scan_file] returns
    for every path and every state, with fuel one above the number of files
    not yet visited; and a call that returns with some fuel returns the same
    state with any larger fuel. *)
Theorem scan_terminates (E : Env) (files : list string) (path : string) (st : State) :
  fs_listed E files ->
  (exists st', cpp_scan_file E (S (unvisited_files files st)) path st = Some st')
  /\ (forall fuel fuel' st',
        fuel <= fuel' -> cpp_scan_file E fuel path st = Some st' ->
        cpp_scan_file E fuel' path st = Some st').
Proof.
  intros Hfin. split.
  - apply (cpp_scan_file_total E files Hfin). lia.
  - intros fuel fuel' st'. apply cpp_scan_file_fuel_le.
Qed.

Lemma scan_terminates_witness :
  (exists st', cpp_scan_file E_demo
                 (S (unvisited_files (map fst demo_files) initial_state))
                 "util.h" initial_state = Some st')
  /\ (forall fuel fuel' st',
        fuel <= fuel' -> cpp_scan_file E_demo fuel "util.h" initial_state = Some st' ->
        cpp_scan_file E_demo fuel' "util.h" initial_state = Some st').
Proof.
  apply (scan_terminates E_demo (map fst demo_files) "util.h" initial_state).
  apply fs_of_listed.
Defined.

(** X7. The graph is closed under includes: in every state the scanner
    reaches, every path reached from a node of the graph through includes of
    files is itself a node of the graph, and visited. *)
Theorem include_closure (E : Env) (st : State) (A C : string) :
  scanned E st -> (exists n, node_at st A = Some n) ->
  include_chain E A C ->
  exists n, node_at st C = Some n /\ visited n = true.
Proof.
  intros Hs HA Hc. pose proof (scanned_done E st Hs) as D.
  induction Hc as [A | A B C F Hin _ IH].
  - destruct HA as [n Hn]. exists n. split; [assumption|].
    now apply (proj1 (proj2 (proj2 (proj2 (proj2 D)))) A).
  - apply IH.
    assert (has_edge st B A) as [nb [Hnb _]]; [|eauto].
    apply (scan_done_edges E st A B D). auto.
Qed.

Lemma include_closure_witness :
  exists n, node_at demo_scanned "base.h" = Some n /\ visited n = true.
Proof.
  apply (include_closure E_demo demo_scanned "main.cpp" "base.h").
  - apply demo_scanned_reached.
  - eexists. reflexivity.
  - apply (chain_next E_demo "main.cpp" "util.h" "base.h");
      [reflexivity | vm_compute; now left |].
    apply (chain_next E_demo "util.h" "base.h" "base.h");
      [reflexivity | vm_compute; now left |].
    apply chain_here.
Defined.

(** X8. When [cpp_scan_dir] returns, every file of the directory whose
    extension is among [CPP_FILE_TYPES], and every such file of a sub
    directory, at any depth, that is reached through directories whose
    extension is not in [IGNORE_LIST], has a visited node. *)
Theorem dir_scan_visits_sources (E : Env) (D : DirSystem) (ffuel fuel : nat)
    (dirpath path : string) (st st' : State) :
  cpp_scan_dir E D ffuel fuel dirpath st = Some st' ->
  dir_source E D dirpath path ->
  is_visited st' path = true.
Proof.
  intros H Hs. exact (cpp_scan_dir_visits E D ffuel dirpath path Hs fuel st st' H).
Qed.

Lemma dir_scan_visits_sources_witness :
  is_visited (run_dir E_tree D_tree 6 3 "src" initial_state) "src/lib/io.cpp" = true.
Proof.
  apply (dir_scan_visits_sources E_tree D_tree 6 3 "src" "src/lib/io.cpp"
           initial_state).
  - vm_compute. reflexivity.
  - apply (source_below E_tree D_tree "src" "lib" "src/lib/io.cpp");
      [simpl; tauto | reflexivity | reflexivity |].
    apply (source_here E_tree D_tree "src/lib" "io.cpp");
      [simpl; tauto | reflexivity | reflexivity].
Defined.

(** X9. A directory scan is a sequence of file scans and log lines: started
    in a state the scanner reaches it returns such a state, so the
    invariants of the scanner hold after it, and every node, edge and flag
    that was there before is still there. *)
Theorem dir_scan_reaches (E : Env) (D : DirSystem) (ffuel fuel : nat)
    (dirpath : string) (st st' : State) :
  scanned E st -> cpp_scan_dir E D ffuel fuel dirpath st = Some st' ->
  scanned E st' /\ ext st st'.
Proof.
  intros Hs H. split.
  - now apply (cpp_scan_dir_scanned E D ffuel fuel dirpath st st').
  - now apply (cpp_scan_dir_ext E D ffuel fuel dirpath st st').
Qed.

Lemma dir_scan_reaches_witness :
  scanned E_tree (run_dir E_tree D_tree 6 3 "src" initial_state)
  /\ ext initial_state (run_dir E_tree D_tree 6 3 "src" initial_state).
Proof.
  apply (dir_scan_reaches E_tree D_tree 6 3 "src" initial_state).
  - apply scanned_initial.
  - vm_compute. reflexivity.
Defined.

(** X10. On a file system with finitely many files and a directory tree of
    bounded depth, [cpp_scan_dir] returns for every state. *)
Theorem dir_scan_terminates (E : Env) (D : DirSystem) (flist : list string)
    (n : nat) (dirpath : string) (st : State) :
  fs_listed E flist -> dir_bounded D n dirpath ->
  exists st', cpp_scan_dir E D (S (length flist)) n dirpath st = Some st'.
Proof. intros Hfin Hb. now apply cpp_scan_dir_total. Qed.

Lemma dir_scan_terminates_witness :
  exists st',
    cpp_scan_dir E_tree D_tree (S (length (map fst tree_files))) 2 "src"
      initial_state = Some st'.
Proof.
  apply (dir_scan_terminates E_tree D_tree (map fst tree_files) 2 "src"
           initial_state).
  - apply fs_of_listed.
  - intros sub Hin Hd Hi. simpl in Hin.
    destruct Hin as [<- | [<- | [<- | [<- | [<- | []]]]]]; try discriminate.
    intros sub' Hin' Hd' _. simpl in Hin'.
    destruct Hin' as [<- | []]. discriminate.
Defined.

(** X11. On a directory none of whose files has a tracked extension and all
    of whose sub directories have an ignored extension, [cpp_scan_dir]
    returns without any recursive call and changes nothing but the printed
    output: no node is created and no file is read. *)
Theorem dir_scan_quiet (E : Env) (D : DirSystem) (ffuel fuel : nat)
    (dirpath : string) (st : State) :
  (forall file, In file (listdir D dirpath) ->
     isfile (fs E) (path_join dirpath file) = true ->
     str_in (entry_ext file) CPP_FILE_TYPES = false) ->
  (forall sub, In sub (listdir D dirpath) ->
     isdir D (path_join dirpath sub) = true ->
     str_in (entry_ext sub) IGNORE_LIST = true) ->
  exists st',
    cpp_scan_dir E D ffuel (S fuel) dirpath st = Some st'
    /\ cpp_scan_dir E D ffuel 1 dirpath st = Some st'
    /\ only_prints st st'.
Proof.
  intros Hq1 Hq2.
  destruct (scan_dir_files_quiet E ffuel dirpath (listdir D dirpath) Hq1
              (log E ("Scanning dir " ++ dirpath) st)) as (st1 & H1 & O1).
  destruct (scan_subdirs_quiet E D (cpp_scan_dir E D ffuel fuel) dirpath
              (listdir D dirpath) Hq2 st1) as (st2 & H2 & O2).
  exists st2. rewrite !cpp_scan_dir_S, H1.
  rewrite (scan_subdirs_no_call E D (cpp_scan_dir E D ffuel 0)
             (cpp_scan_dir E D ffuel fuel) dirpath (listdir D dirpath) Hq2 st1).
  split; [assumption|]. split; [assumption|].
  destruct (only_prints_log E ("Scanning dir " ++ dirpath) st)
    as (N0 & D0 & M0 & l0 & T0).
  destruct O1 as (N1 & D1 & M1 & l1 & T1).
  destruct O2 as (N2 & D2 & M2 & l2 & T2).
  repeat split; try congruence.
  exists (l0 ++ l1 ++ l2)%list. rewrite T2, T1, T0, !map_app.
  now rewrite <- !app_assoc.
Qed.

Lemma dir_scan_quiet_witness :
  exists st',
    cpp_scan_dir E_quiet D_quiet 3 (S 0) "doc" initial_state = Some st'
    /\ cpp_scan_dir E_quiet D_quiet 3 1 "doc" initial_state = Some st'
    /\ only_prints initial_state st'.
Proof.
  apply (dir_scan_quiet E_quiet D_quiet 3 0 "doc" initial_state).
  - intros file Hin Hf. simpl in Hin.
    destruct Hin as [<- | [<- | [<- | []]]]; try reflexivity; discriminate.
  - intros sub Hin Hd. simpl in Hin.
    destruct Hin as [<- | [<- | [<- | []]]]; try reflexivity; discriminate.
Defined.

(** X12. [cpp_scan_dir] classifies a directory entry by the text from its
    last dot on: an entry named stem, dot, suffix, where the suffix has no
    dot, has that dot and suffix as its extension for every stem, also the
    empty one, so that a name made of an extension alone is ignored or
    tracked by it; and an entry without a dot has the empty extension, which
    is neither ignored nor tracked. *)
Theorem entry_extension (stem e : string) :
  (no_sep stem = true -> plain e = true ->
   entry_ext (stem ++ String "." e) = String "." e)
  /\ (plain stem = true ->
      entry_ext stem = EmptyString
      /\ str_in (entry_ext stem) IGNORE_LIST = false
      /\ str_in (entry_ext stem) CPP_FILE_TYPES = false)
  /\ entry_ext ".git" = ".git"
  /\ str_in ".git" IGNORE_LIST = true
  /\ CPP_FILE_TYPES = [".c"; ".cpp"; ".cxx"].
Proof.
  split; [apply entry_ext_suffix|]. split; [|repeat split].
  intros H. rewrite (entry_ext_plain stem H). repeat split.
Qed.

Lemma entry_extension_witness :
  entry_ext ("archive.tar" ++ String "." "cpp") = String "." "cpp".
Proof.
  exact (proj1 (entry_extension "archive.tar" "cpp") eq_refl eq_refl).
Defined.

(** X13. A call of [print_tree] that returns changes the graph by raising
    [visited] flags only, keys, children, [has_parent] and [missing] staying
    as they are; it adds printed lines only to the trace, one for every node
    it newly marks visited, plus exactly one more line, a node with its
    marker or the depth diagnostic, when it does not return [True]; the depth
    never goes down, and is restored when it returns [True]. *)
Theorem render_accounting (fuel : nat) (key : string) (st st' : State) (r : pyret) :
  NoDup (keys st) -> print_tree fuel key st = Some (r, st') ->
  render_le (nodes st) (nodes st')
  /\ depth st <= depth st'
  /\ (r = RetTrue -> depth st' = depth st)
  /\ exists lines,
       trace st' = (trace st ++ map EvPrint lines)%list
       /\ length lines + count_unvisited (nodes st')
          = count_unvisited (nodes st) + last_line r.
Proof.
  intros Hnd H.
  destruct (print_tree_facts fuel key st r st' Hnd H) as [(R & D & L) Hd].
  repeat split; assumption.
Qed.

Lemma render_accounting_witness :
  exists st',
    print_tree 4 "base.h" (clear_visisted shared_scanned) = Some (RetFalse, st')
    /\ render_le (nodes (clear_visisted shared_scanned)) (nodes st')
    /\ exists lines,
         trace st' = (trace (clear_visisted shared_scanned) ++ map EvPrint lines)%list
         /\ length lines + count_unvisited (nodes st')
            = count_unvisited (nodes (clear_visisted shared_scanned)) + 1.
Proof.
  eexists. split; [vm_compute; reflexivity|].
  match goal with
  | |- render_le _ (nodes ?s) /\ _ =>
      destruct (render_accounting 4 "base.h" (clear_visisted shared_scanned) s
                  RetFalse) as (R & _ & _ & L)
  end.
  - vm_compute. repeat constructor; simpl; intuition discriminate.
  - vm_compute. reflexivity.
  - split; [exact R | exact L].
Defined.

(** X14. [print_graph] returns on every graph whose children are nodes, once
    the fuel exceeds the number of nodes, and leaves keys, children,
    [has_parent] and [missing] as they are; and on a graph all of whose nodes
    have [has_parent] set, such as files that include each other, it prints
    nothing at all. *)
Theorem full_graph_render (fuel : nat) (st : State) :
  (graph_closed (clear_visisted st) -> length (nodes st) < fuel ->
   exists st', print_graph fuel st = Some st'
               /\ render_le (nodes (clear_visisted st)) (nodes st'))
  /\ ((forall k n, node_at st k = Some n -> has_parent n = true) ->
      print_graph fuel st = Some (clear_visisted st)
      /\ trace (clear_visisted st) = trace st).
Proof.
  split.
  - apply print_graph_total.
  - intros Hp. split; [now apply print_graph_no_root | reflexivity].
Qed.

Lemma full_graph_render_witness :
  (exists st', print_graph 4 demo_scanned = Some st'
               /\ render_le (nodes (clear_visisted demo_scanned)) (nodes st'))
  /\ print_graph 1 cycle_scanned = Some (clear_visisted cycle_scanned)
  /\ trace (clear_visisted cycle_scanned) = trace cycle_scanned.
Proof.
  split.
  - apply (proj1 (full_graph_render 4 demo_scanned)).
    + apply (scanned_graph_closed E_demo).
      apply (proj2 (cpp_scan_file_sound E_demo 4 "main.cpp" initial_state
                      demo_scanned eq_refl)).
      apply scan_inv_initial.
    + vm_compute. lia.
  - apply (proj2 (full_graph_render 1 cycle_scanned)).
    intros k n H. unfold node_at in H. simpl in H.
    destruct (String.eqb k "a.h"); [now injection H as <-|].
    destruct (String.eqb k "b.h"); [now injection H as <-|discriminate].
Defined.

(** X15. Of the options that [main] declares to [getopt], the loop over the
    options rejects [-o] and [--leaf-level]: as soon as one of them is among
    the options, [main] prints that the option is invalid, prints the usage
    text and exits with status 1, before any scan.  When none is there the
    loop prints nothing and leaves [only_leaf_level] as it was, so the leaf
    listing cannot be asked for. *)
Theorem leaf_level_option_rejected (opts : list (string * string))
    (F : FileSystem) (D : DirSystem) (Pf : Platform) (ffuel fuel : nat) :
  (forall opt arg, In (opt, arg) opts -> In opt getopt_names) ->
  (has_unhandled opts = true ->
   exists opt st',
     (opt = "-o" \/ opt = "--leaf-level")
     /\ trace st' = [EvPrint ("Invalid option " ++ quoted opt); EvPrint usage_text]
     /\ main F D Pf ffuel fuel (Some opts) = Some (Exit 1 false st'))
  /\ (has_unhandled opts = false ->
      forall o st, exists o',
        process_opts opts o st = Go o' st
        /\ only_leaf_level o' = only_leaf_level o).
Proof.
  intros Hall. split.
  - intros Hbad.
    pose proof (process_opts_getopt opts Hall default_options initial_state) as H.
    unfold main.
    destruct (process_opts opts default_options initial_state)
      as [code neg st' | o' st' | exc st'].
    + destruct H as (_ & -> & -> & opt & Hopt & _ & Ht).
      exists opt, st'. repeat split; assumption.
    + destruct H as (He & _). unfold has_unhandled in Hbad. congruence.
    + destruct H.
  - intros Hok o st.
    pose proof (process_opts_getopt opts Hall o st) as H.
    destruct (process_opts opts o st) as [code neg st' | o' st' | exc st'].
    + destruct H as (He & _). unfold has_unhandled in Hok. congruence.
    + destruct H as (_ & -> & Hl). now exists o'.
    + destruct H.
Qed.

Lemma leaf_level_option_rejected_witness :
  exists opt st',
    (opt = "-o" \/ opt = "--leaf-level")
    /\ trace st' = [EvPrint ("Invalid option " ++ quoted opt); EvPrint usage_text]
    /\ main (fs_of tree_files) D_tree linux_py3 8 4
         (Some [("-i", "src"); ("--leaf-level", EmptyString)])
       = Some (Exit 1 false st').
Proof.
  apply (proj1 (leaf_level_option_rejected
                  [("-i", "src"); ("--leaf-level", EmptyString)]
                  (fs_of tree_files) D_tree linux_py3 8 4
                  (fun opt arg H =>
                     match H with
                     | or_introl e =>
                         eq_ind ("-i", "src")
                           (fun p => In (fst p) getopt_names)
                           (or_intror (or_intror (or_introl eq_refl))) _ e
                     | or_intror (or_introl e) =>
                         eq_ind ("--leaf-level", EmptyString)
                           (fun p => In (fst p) getopt_names)
                           (or_intror (or_intror (or_intror (or_intror
                              (or_intror (or_intror (or_introl eq_refl))))))) _ e
                     | or_intror (or_intror f) => match f with end
                     end))).
  reflexivity.
Defined.

(** X16. When the loop over the options ends without leaving, the search
    paths are those there were followed by the arguments of the [-I]
    options in the order given, the input directory is the argument of the
    last [-i] option, and the scan runs with these search paths followed by
    the system include paths, which are also the paths whose headers are
    dropped. *)
Theorem option_settings (opts : list (string * string)) (o o' : Options)
    (st st' : State) (F : FileSystem) (D : DirSystem) (Pf : Platform) :
  process_opts opts o st = Go o' st' ->
  opt_search_paths o' = (opt_search_paths o ++ args_of "-I" opts)%list
  /\ input_dir o' = last_or (input_dir o) (args_of "-i" opts)
  /\ opt_verbose o'
     = (opt_verbose o || existsb (fun oa => String.eqb (fst oa) "-v") opts)
  /\ inc_search_paths (main_env F D Pf o')
     = ((opt_search_paths o ++ args_of "-I" opts) ++ sys_inc_paths Pf D)%list
  /\ SYS_INC_PATHS (main_env F D Pf o') = sys_inc_paths Pf D.
Proof.
  intros H. destruct (process_opts_settings opts o st o' st' H) as (Hs & Hi & Hv).
  repeat split; try assumption. simpl. now rewrite Hs.
Qed.

Lemma option_settings_witness :
  exists o',
    process_opts [("-I", "inc1"); ("-i", "a"); ("-I", "inc2"); ("-i", "src")]
      default_options initial_state = Go o' initial_state
    /\ opt_search_paths o' = ["inc1"; "inc2"]
    /\ input_dir o' = "src"
    /\ inc_search_paths
         (main_env (fs_of tree_files) D_tree (mkPlatform "darwin" "posix") o')
       = ["inc1"; "inc2"; "/usr/include"].
Proof.
  eexists. split; [reflexivity|].
  match goal with
  | |- opt_search_paths ?o' = _ /\ _ =>
      destruct (option_settings
                  [("-I", "inc1"); ("-i", "a"); ("-I", "inc2"); ("-i", "src")]
                  default_options o' initial_state initial_state
                  (fs_of tree_files) D_tree (mkPlatform "darwin" "posix") eq_refl)
        as (Hs & Hi & _ & He & _)
  end.
  split; [exact Hs|]. split; [exact Hi | exact He].
Defined.

(** X17. On a platform whose [sys.platform] is none of [cygwin], [linux2],
    [darwin] and [win32], as under Python 3 on Linux, [main] registers no
    system include path: the search paths are the [-I] paths alone, and no
    include is ever dropped as a system header. *)
Theorem no_system_paths (Pf : Platform) (D : DirSystem) (F : FileSystem)
    (o : Options) :
  str_in (sys_platform Pf) ["cygwin"; "linux2"; "darwin"; "win32"] = false ->
  sys_inc_paths Pf D = []
  /\ inc_search_paths (main_env F D Pf o) = opt_search_paths o
  /\ forall d, is_sys_header_path (main_env F D Pf o) d = false.
Proof.
  unfold str_in. cbn [existsb]. intros H.
  apply orb_false_iff in H. destruct H as [H1 H].
  apply orb_false_iff in H. destruct H as [H2 H].
  apply orb_false_iff in H. destruct H as [H3 H].
  apply orb_false_iff in H. destruct H as [H4 _].
  assert (Hs : sys_inc_paths Pf D = []).
  { unfold sys_inc_paths, str_in. cbn [existsb].
    now rewrite H1, H2, H3, H4, !andb_false_r. }
  split; [assumption|]. split.
  - simpl. rewrite Hs. apply app_nil_r.
  - intros d. unfold is_sys_header_path. simpl. now rewrite Hs.
Qed.

Lemma no_system_paths_witness :
  sys_inc_paths linux_py3 D_tree = []
  /\ inc_search_paths (main_env (fs_of tree_files) D_tree linux_py3 default_options)
     = opt_search_paths default_options
  /\ forall d,
       is_sys_header_path
         (main_env (fs_of tree_files) D_tree linux_py3 default_options) d = false.
Proof.
  exact (no_system_paths linux_py3 D_tree (fs_of tree_files) default_options eq_refl).
Defined.

(** X18. The pattern matches a line, with given groups, exactly when the
    line is [#], blanks, [include], blanks, the first group, which is [<] or
    a double quote, the second group, which holds neither [>] nor a double
    quote, the third group, which is [>] or a double quote, and any rest:
    nothing may come before the [#], the spelling never holds a closing
    delimiter, and what follows the closing delimiter is not looked at. *)
Theorem pattern_match_exact (line : string) (first last : ascii) (body : string) :
  CPP_INC_PATTERN_match line = Some (first, body, last) <->
  exists n m rest,
    line = directive_line n m first body last rest
    /\ is_open first = true /\ no_close body = true /\ is_close last = true.
Proof.
  split.
  - apply CPP_INC_PATTERN_match_inv.
  - intros (n & m & rest & -> & Ho & Hb & Hl).
    now apply CPP_INC_PATTERN_match_directive.
Qed.

(** X19. [is_sys_header_path] holds of a directory exactly when its text
    starts with the text of a system include path: a directory that merely
    shares the leading characters of such a path, without being under it,
    counts as a system directory too, and with no system path registered no
    directory does. *)
Theorem sys_header_prefix (E : Env) (dir_path : string) :
  (is_sys_header_path E dir_path = true <->
   exists p s, In p (SYS_INC_PATHS E) /\ dir_path = p ++ s)
  /\ (SYS_INC_PATHS E = [] -> is_sys_header_path E dir_path = false).
Proof.
  split.
  - unfold is_sys_header_path, startswith. rewrite existsb_exists. split.
    + intros [p [Hin Hp]]. apply prefix_app in Hp. destruct Hp as [s Hs].
      now exists p, s.
    + intros (p & s & Hin & Hs). exists p. split; [assumption|].
      apply prefix_app. now exists s.
  - intros H. unfold is_sys_header_path. now rewrite H.
Qed.

Lemma sys_header_prefix_witness :
  is_sys_header_path E_sys "/usr/include2/private" = true <->
  exists p s, In p (SYS_INC_PATHS E_sys) /\ "/usr/include2/private" = p ++ s.
Proof. exact (proj1 (sys_header_prefix E_sys "/usr/include2/private")). Defined.

(** X20. [resolve_path] returns either the spelling it was given or a path
    that is a file, made of the including directory or of a search path
    joined with the spelling; for an include in angle brackets the including
    directory plays no part; and a quoted include that is not found beside
    the including file resolves as the same include in angle brackets. *)
Theorem resolve_path_result (E : Env) (dir_path inc_path : string) (relative : bool) :
  (resolve_path E dir_path inc_path relative = inc_path
   \/ (isfile (fs E) (resolve_path E dir_path inc_path relative) = true
       /\ exists d, (d = dir_path /\ relative = true \/ In d (inc_search_paths E))
            /\ resolve_path E dir_path inc_path relative = path_join d inc_path))
  /\ (forall dir_path',
        resolve_path E dir_path inc_path false
        = resolve_path E dir_path' inc_path false)
  /\ (isfile (fs E) (path_join dir_path inc_path) = false ->
      resolve_path E dir_path inc_path true
      = resolve_path E dir_path inc_path false).
Proof.
  split; [|split].
  - unfold resolve_path.
    assert (Hs := search_loop_result (fs E) inc_path (inc_search_paths E)).
    destruct relative.
    + destruct (isfile (fs E) (path_join dir_path inc_path)) eqn:Hf.
      * right. split; [assumption|]. exists dir_path. auto.
      * destruct Hs as [H | (sp & Hin & H & Hsf)]; [now left|].
        right. rewrite H. split; [assumption|]. exists sp. auto.
    + destruct Hs as [H | (sp & Hin & H & Hsf)]; [now left|].
      right. rewrite H. split; [assumption|]. exists sp. auto.
  - reflexivity.
  - intros Hf. unfold resolve_path. now rewrite Hf.
Qed.

(** X21. The list of includes that [cpp_scan_file] builds from the lines of
    a file is what there was followed by the contributions of the lines in
    order, each line giving at most one path; it depends neither on the
    number of the first line nor on the graph or the output so far. *)
Theorem include_list_in_line_order (E : Env) (path : string) (lines : list string)
    (line_num : nat) (includes : list string) (st : State) :
  fst (scan_lines E path (fst (path_split path)) lines line_num includes st)
  = (includes ++ flat_map (line_includes E path) lines)%list
  /\ (forall line, length (line_includes E path line) <= 1)
  /\ includes_of E path
     = flat_map (line_includes E path) (read_lines (fs E) path).
Proof.
  split; [apply scan_lines_fst|]. split; [|apply includes_of_flat_map].
  intros line. unfold line_includes.
  destruct (include_directive E path line); simpl; [|lia].
  destruct (is_sys_header_path E _); simpl; lia.
Qed.

(** X20, at a concrete input: with the search paths [inc1], [inc2], [inc3]
    and no file [src/foo.h], the quoted form of [foo.h] resolves as the
    angle form does. *)
Lemma resolve_path_result_witness :
  resolve_path E_search "src" "foo.h" true
  = resolve_path E_search "src" "foo.h" false.
Proof.
  destruct (resolve_path_result E_search "src" "foo.h" true) as (_ & _ & H).
  apply H. reflexivity.
Defined.



(** X23. [clear_visisted] makes the scanner forget what it has read: in the
    state that [clear_visisted] leaves, a scan of any existing file opens
    the file, also when the file had been read before, and opens it before
    any file that its includes lead to. *)
Theorem clear_forgets_scan (E : Env) (fuel : nat) (path : string)
    (st st' : State) :
  isfile (fs E) path = true ->
  cpp_scan_file E fuel path (clear_visisted st) = Some st' ->
  exists more, opened (trace st') = (opened (trace st) ++ path :: more)%list.
Proof.
  intros Hf H.
  apply (cpp_scan_file_opens E fuel path (clear_visisted st) st'
           (is_visited_clear_visisted st path) Hf H).
Qed.

Lemma clear_forgets_scan_witness :
  exists more,
    opened (trace (run_scan E_demo 4 "main.cpp" (clear_visisted demo_scanned)))
    = (opened (trace demo_scanned) ++ "main.cpp" :: more)%list.
Proof.
  apply (clear_forgets_scan E_demo 4 "main.cpp" demo_scanned).
  - reflexivity.
  - vm_compute. reflexivity.
Defined.
